(** * Peredvizhnikov Engine: the entity-component database of [src/ecs.cpp]

    A shallow embedding of the archetype store, the archetype index, the
    entity registry and the [components_view] iterator, and the properties
    of them that the specification states. *)

From Stdlib Require Import ZArith Lia.
From stdpp Require Import base option list gmap sets fin_maps fin_map_dom.

Local Open Scope Z_scope.
#[local] Set Warnings "-clear-no-such-hyp".

(** ** Machine integers *)

(** [entity_t] and [component_id_t] are [uint64_t]; [component_bitfield_t]
    is the signed [__int128]. All three are carried by [Z], with the
    wrap-around of the machine type written out. *)
Abbreviation entity_t := Z (only parsing).
Abbreviation component_id_t := Z (only parsing).
Abbreviation component_bitfield_t := Z (only parsing).

Definition kMaxComponents : Z := 128.

(** Reduction modulo 2^64 of an unsigned 64-bit result. *)
Definition wrap_u64 (z : Z) : Z := z mod 2 ^ 64.

(** Two's complement reduction of a signed 128-bit result to
    [-2^127, 2^127). *)
Definition wrap_i128 (z : Z) : Z := (z + 2 ^ 127) mod 2 ^ 128 - 2 ^ 127.

(** [x << n] on [__int128] (C++20: the result is congruent to
    [x * 2^n] modulo 2^128). *)
Definition shl_i128 (x n : Z) : Z := wrap_i128 (Z.shiftl x n).

Definition in_i128 (z : Z) : Prop := - 2 ^ 127 <= z < 2 ^ 127.

(** ** Component ids *)

(** The unique ids are made at compile time. What the compiler has seen
    so far is the set of the values [Id] for which
    [Counter<Id>::generator] was instantiated, that is for which the
    friend [is_defined(Counter<Id>)] has a definition. *)

(** [Counter<Id>::exists(Id)]: the template overload is viable exactly
    when [is_defined(tag)] is defined, and returns [true]; otherwise the
    variadic overload is taken, which instantiates [generator] and
    returns [false]. *)
Definition Counter_exists (Id : Z) (defined : gset Z) : bool * gset Z :=
  if bool_decide (Id ∈ defined) then (true, defined) else (false, {[ Id ]} ∪ defined).

(** [ecs_component_id<Component, Id>()], started at [Id = uint64_t{}]:
    the recursion [ecs_component_id<Component, Id + 1>()] goes on while
    [Counter<Id>] exists; [depth] bounds the nesting of the
    instantiations. *)
Fixpoint ecs_component_id (depth : nat) (Id : Z) (defined : gset Z)
    : option (component_id_t * gset Z) :=
  match depth with
  | O => None
  | S depth' =>
      let '(found, defined') := Counter_exists Id defined in
      if found then ecs_component_id depth' (wrap_u64 (Id + 1)) defined'
      else Some (Id, defined')
  end.

(** How the instantiation of a template ends. *)
Inductive Instantiation (A : Type) : Type :=
  | Instantiated (a : A)
  | StaticAssertFailed
  | DepthExceeded.
Arguments Instantiated {A} a.
Arguments StaticAssertFailed {A}.
Arguments DepthExceeded {A}.

(** [component_traits<Component>], instantiated for a component type not
    seen before: [id = ecs_component_id<Component>()] with
    [static_assert(id < kMaxComponents)]. *)
Definition component_traits (depth : nat) (defined : gset Z)
    : Instantiation (component_id_t * gset Z) :=
  match ecs_component_id depth 0 defined with
  | None => DepthExceeded
  | Some (id, defined') =>
      if bool_decide (id < kMaxComponents) then Instantiated (id, defined')
      else StaticAssertFailed
  end.

(** A program that names [n] component types, one after the other: the
    ids they get. *)
Fixpoint declare_components (depth : nat) (n : nat) (defined : gset Z)
    : Instantiation (list component_id_t * gset Z) :=
  match n with
  | O => Instantiated ([], defined)
  | S n' =>
      match component_traits depth defined with
      | Instantiated (id, defined') =>
          match declare_components depth n' defined' with
          | Instantiated (ids, defined'') => Instantiated (id :: ids, defined'')
          | StaticAssertFailed => StaticAssertFailed
          | DepthExceeded => DepthExceeded
          end
      | StaticAssertFailed => StaticAssertFailed
      | DepthExceeded => DepthExceeded
      end
  end.

(** ** Component bitmask *)

(** [component_bitfield<Tuple>::helper]: the empty pack gives
    [component_bitfield_t{}], and [helper<Head, Tail...>::bits()] is
    [component_bitfield_t{1} << id | helper<Tail...>::value]. The tuple is
    given by the ids [component_traits<C>::id] of its component types. *)
Fixpoint component_bitfield (ids : list component_id_t) : component_bitfield_t :=
  match ids with
  | [] => 0
  | id :: tail => Z.lor (shl_i128 1 id) (component_bitfield tail)
  end.

Definition ecs_component_mask (ids : list component_id_t) : component_bitfield_t :=
  component_bitfield ids.

(** The static assertion of [component_traits]: [id < kMaxComponents]. *)
Definition valid_component (c : component_id_t) : Prop := 0 <= c < kMaxComponents.


(** ** Collaborators outside [src/] *)

(** Modelled from the spec: [FlatHashMap] (module [flat_hash_map], not under
    [src/]) is the "hash-map container, assumed given": a mapping with
    unique keys, carried here by [gmap]. The member functions are the ones
    [ecs.cpp] calls. Reading through [operator[]] is the spec's [get]: it
    yields the entry of a key that is present and leaves the map as it is;
    "precondition: eid present". For a key that is absent the spec defines
    nothing and the container is not under [src/]; the function is
    completed there the way the standard containers behave, and no
    property stated in this file is about that case. *)
Definition fhm_subscript {K A : Type} `{Countable K}
    (dflt : A) (k : K) (m : gmap K A) : A * gmap K A :=
  match m !! k with
  | Some v => (v, m)
  | None => (dflt, <[k := dflt]> m)
  end.

(** Modelled from the spec: the assignment [map[k] = v] through
    [operator[]] is the spec's [set], an upsert: afterwards the key holds
    [v], whether or not it had an entry. *)
Definition fhm_assign {K A : Type} `{Countable K}
    (k : K) (v : A) (m : gmap K A) : gmap K A :=
  <[k := v]> m.

(** Modelled from the spec: [FlatHashMap::insert(std::make_pair(k, v))] is
    the spec's [insert], which "overwrites an existing entry". *)
Definition fhm_insert {K A : Type} `{Countable K}
    (k : K) (v : A) (m : gmap K A) : gmap K A :=
  <[k := v]> m.

(** Modelled from the spec: [FlatHashMap::erase]. *)
Definition fhm_erase {K A : Type} `{Countable K} (k : K) (m : gmap K A) : gmap K A :=
  delete k m.

(** Modelled from the spec: a [FlatHashMap] iterator. The spec gives the
    iteration "implementation-defined but deterministic-per-snapshot order"
    and asks that sibling columns of one table, which hold the same keys
    after the same history, are walked in the same key order; [map_to_list]
    is such an order. An iterator is the sequence of entries from its
    position to the end, [end()] the empty sequence, and two iterators
    into one map are equal when they stand at the same position. *)
Definition fhm_begin {K A : Type} `{Countable K} (m : gmap K A) : list (K * A) :=
  map_to_list m.

Definition fhm_end {K A : Type} `{Countable K} (m : gmap K A) : list (K * A) := [].

Definition fhm_iter_eq {K A : Type} (a b : list (K * A)) : bool :=
  bool_decide (length a = length b).

(** [++it]; stepping past [end()] is undefined. *)
Definition fhm_iter_incr {K A : Type} (it : list (K * A)) : option (list (K * A)) :=
  match it with
  | [] => None
  | _ :: rest => Some rest
  end.

(** Modelled from the spec: [BitwiseTrie<component_bitfield_t>] (module
    [bitwise_trie], not under [src/]) is the archetype index, a set of
    bitmasks with [Insert]. *)
Definition trie_Insert (k : component_bitfield_t) (t : gset Z) : gset Z := {[ k ]} ∪ t.

(** Modelled from the spec: [trie_view_match_mask] over a [trie_view]
    enumerates "every stored key K such that K & Q == Q", each once, in a
    deterministic order. Its iterator is, again, the keys still to come. *)
Definition trie_view_match_mask (t : gset Z) (q : component_bitfield_t) : list Z :=
  filter (λ k, Z.land k q = q) (elements t).

(** Two iterators of one match-mask view are equal when they stand at the
    same position. *)
Definition trie_iter_eq (a b : list Z) : bool :=
  bool_decide (length a = length b).

(** ** Component values *)

(** The value-initialised object [C{}] of every component type. *)
Class ValueInit (V : Type) := value_init : component_id_t → V.
Global Hint Mode ValueInit ! : typeclass_instances.

(** ** Storage types *)

(** [Archetype<std::tuple<Components...>>::m_columns]: one
    [FlatHashMap<entity_t, C>] per component of the tuple, found by its
    component, that is by [component_traits<C>::id]. *)
Abbreviation Archetype V := (gmap Z (gmap Z V)).

(** [TypeErasedArchetype]: the [std::any] holding the archetype and the
    [ComponentDispatchTable]. The constructor assigns the table's entries
    at exactly the ids of the tuple's components, each entry calling the
    member of the archetype for that component, so dispatching on an id
    is the archetype's member when the id has a column; an entry that was
    never assigned is an indeterminate function pointer and calling it is
    undefined ([None]). A default-constructed [TypeErasedArchetype] has no
    assigned entry. *)
Abbreviation TypeErasedArchetype V := (gmap Z (gmap Z V)).

(** [ColumnSetIterator<Components...>]: one column iterator per component
    of the pack, in pack order. *)
Abbreviation ColumnSetIterator V := (list (list (Z * V))).

(** The class [ColumnSetIterator<Components...>] declares
    [ColumnSetIterator() = default;] and then the constructor
    [ColumnSetIterator(ComponentMapIterator<Components>... iterators)].
    With the empty pack the second declares [ColumnSetIterator()] once
    more, so [ColumnSetIterator<>] is ill-formed, and so is every program
    that needs the class complete: one that makes such an iterator or
    holds one as a member. The functions below that do so have no result
    ([None]) for the empty pack. *)
Definition ColumnSetIterator_well_formed (cs : list component_id_t) : bool :=
  match cs with
  | [] => false
  | _ :: _ => true
  end.

Section Model.
Context {V : Type} `{!ValueInit V}.

(** ** Entity shapes *)

(** The derived entity type: [components_from_bases_t<base_list_t<Derived>>]
    as the ids of its components, in tuple order, and the specialisations
    [Default<Derived, C>::value] that the program declares. *)
Record Shape := mkShape {
  shape_components : list component_id_t;
  shape_defaults : gmap Z V
}.

(** What the compiler checks of a shape: [component_traits] asserts every
    id below [kMaxComponents], and [std::get] by column type needs the
    component types distinct. *)
Definition shape_ok (S : Shape) : Prop :=
  Forall valid_component (shape_components S) ∧ NoDup (shape_components S).

(** [has_component<Entity, Component>()]. *)
Definition has_component (S : Shape) (c : component_id_t) : Prop :=
  c ∈ shape_components S.

(** ** Archetype *)

(** [Archetype<...>{}] for the tuple [cs]: every column empty. *)
Definition Archetype_new (cs : list component_id_t) : Archetype V :=
  list_to_map ((λ c, (c, (∅ : gmap Z V))) <$> cs).

(** [Archetype::Get<Component>(id)]: [return map[id];]. The result is
    [None] only when the tuple has no column of the component, which the
    typed source cannot express. *)
Definition Archetype_Get (c : component_id_t) (id : entity_t) (a : Archetype V)
    : option (V * (Archetype V)) :=
  map ← a !! c;
  let '(v, map') := fhm_subscript (value_init c) id map in
  Some (v, <[c := map']> a).

(** [Archetype::Set<Component>(id, value)]: [map[id] = value;]. *)
Definition Archetype_Set (c : component_id_t) (id : entity_t) (value : V) (a : Archetype V)
    : option (Archetype V) :=
  map ← a !! c;
  Some (<[c := fhm_assign id value map]> a).

(** [Archetype::Clear<Component>(id)]: [map.erase(id);]. *)
Definition Archetype_Clear (c : component_id_t) (id : entity_t) (a : Archetype V)
    : option (Archetype V) :=
  map ← a !! c;
  Some (<[c := fhm_erase id map]> a).

Definition Archetype_begin (c : component_id_t) (a : Archetype V) : option (list (Z * V)) :=
  map ← a !! c; Some (fhm_begin map).

Definition Archetype_end (c : component_id_t) (a : Archetype V) : option (list (Z * V)) :=
  map ← a !! c; Some (fhm_end map).

(** ** Type-erased archetype *)

Definition TypeErasedArchetype_default : TypeErasedArchetype V := ∅.

Definition TypeErasedArchetype_Get (c : component_id_t) (entity : entity_t)
    (t : TypeErasedArchetype V) : option (V * (TypeErasedArchetype V)) :=
  Archetype_Get c entity t.

(** Both [m_dispatch_table.Move] and [m_dispatch_table.Copy] end in
    [Archetype::Set]. *)
Definition TypeErasedArchetype_Set (c : component_id_t) (entity : entity_t) (value : V)
    (t : TypeErasedArchetype V) : option (TypeErasedArchetype V) :=
  Archetype_Set c entity value t.

Definition TypeErasedArchetype_Clear (c : component_id_t) (entity : entity_t)
    (t : TypeErasedArchetype V) : option (TypeErasedArchetype V) :=
  Archetype_Clear c entity t.

(** [TypeErasedArchetype::begin<Components...>()] returns
    [ColumnSetIterator<Components...>{any_cast(m_archetype).begin<Components>()...}]. *)
Definition TypeErasedArchetype_begin (cs : list component_id_t) (t : TypeErasedArchetype V)
    : option (ColumnSetIterator V) :=
  if ColumnSetIterator_well_formed cs then mapM (λ c, Archetype_begin c t) cs else None.

Definition TypeErasedArchetype_end (cs : list component_id_t) (t : TypeErasedArchetype V)
    : option (ColumnSetIterator V) :=
  if ColumnSetIterator_well_formed cs then mapM (λ c, Archetype_end c t) cs else None.

(** [operator*]: the entity id of the first column's entry with a
    reference to the value of every column's entry; [std::get<0>] of the
    empty tuple is ill-formed. *)
Definition ColumnSetIterator_deref (it : ColumnSetIterator V) : option (entity_t * list V) :=
  match it with
  | [] => None
  | first :: _ =>
      entry ← head first;
      refs ← mapM (λ col, snd <$> head col) it;
      Some (entry.1, refs)
  end.

(** [operator++]: every column iterator steps. *)
Definition ColumnSetIterator_incr (it : ColumnSetIterator V) : option (ColumnSetIterator V) :=
  mapM fhm_iter_incr it.

(** [operator==]: the fold [(... && (a_i == b_i))] over the columns of
    the pack. *)
Definition ColumnSetIterator_eq (a b : ColumnSetIterator V) : bool :=
  forallb (λ p, fhm_iter_eq p.1 p.2) (zip a b).

(** [drop_row<std::tuple<Components...>>]: [Clear<C>] for every component
    of the pack, in order. *)
Fixpoint drop_row (cs : list component_id_t) (eid : entity_t) (t : TypeErasedArchetype V)
    : option (TypeErasedArchetype V) :=
  match cs with
  | [] => Some t
  | c :: cs' => t' ← TypeErasedArchetype_Clear c eid t; drop_row cs' eid t'
  end.

(** [add_row::set_cell<Component>]: the declared default of the derived
    type when there is one, the value-initialised component otherwise. *)
Definition set_cell (S : Shape) (c : component_id_t) (eid : entity_t)
    (t : TypeErasedArchetype V) : option (TypeErasedArchetype V) :=
  match shape_defaults S !! c with
  | Some dflt => TypeErasedArchetype_Set c eid dflt t
  | None => TypeErasedArchetype_Set c eid (value_init c) t
  end.

Fixpoint add_row_cells (S : Shape) (cs : list component_id_t) (eid : entity_t)
    (t : TypeErasedArchetype V) : option (TypeErasedArchetype V) :=
  match cs with
  | [] => Some t
  | c :: cs' => t' ← set_cell S c eid t; add_row_cells S cs' eid t'
  end.

(** [add_row<Entity, std::tuple<Components...>>::operator()]. *)
Definition add_row (S : Shape) (eid : entity_t) (t : TypeErasedArchetype V)
    : option (TypeErasedArchetype V) :=
  add_row_cells S (shape_components S) eid t.

(** ** World *)

(** The static members of [World<Tag>]. *)
Record World := mkWorld {
  s_next_entity_id : Z;
  s_component_trie : gset Z;
  s_component_archetype_map : gmap Z (TypeErasedArchetype V);
  s_entity_archetype_map : gmap Z Z
}.

Definition World_init : World := mkWorld 0 ∅ ∅ ∅.

Definition set_archetype_map (f : gmap Z (TypeErasedArchetype V) → gmap Z (TypeErasedArchetype V))
    (w : World) : World :=
  mkWorld (s_next_entity_id w) (s_component_trie w)
          (f (s_component_archetype_map w)) (s_entity_archetype_map w).

Definition set_entity_map (f : gmap Z Z → gmap Z Z) (w : World) : World :=
  mkWorld (s_next_entity_id w) (s_component_trie w)
          (s_component_archetype_map w) (f (s_entity_archetype_map w)).

(** [World::AllocateID]: [s_next_entity_id.fetch_add(1)] on an
    [std::atomic_uint64_t]; the call is one atomic step. *)
Definition World_AllocateID (w : World) : entity_t * World :=
  (s_next_entity_id w,
   mkWorld (wrap_u64 (s_next_entity_id w + 1)) (s_component_trie w)
           (s_component_archetype_map w) (s_entity_archetype_map w)).

(** [World::Register(entity, components)]. *)
Definition World_Register (id : entity_t) (S : Shape) (components : component_bitfield_t)
    (w : World) : option World :=
  let w1 :=
    match s_component_archetype_map w !! components with
    | None =>
        (* Create a new archetype *)
        mkWorld (s_next_entity_id w)
                (trie_Insert components (s_component_trie w))
                (fhm_insert components (Archetype_new (shape_components S))
                            (s_component_archetype_map w))
                (s_entity_archetype_map w)
    | Some _ => w
    end in
  let w2 := set_entity_map (fhm_insert id components) w1 in
  let '(arch, store) :=
    fhm_subscript TypeErasedArchetype_default components (s_component_archetype_map w2) in
  arch' ← add_row S id arch;
  Some (set_archetype_map (λ _, <[components := arch']> store) w2).

(** [World::Unregister(entity)]. *)
Definition World_Unregister (id : entity_t) (S : Shape) (w : World) : option World :=
  let '(components, registry) := fhm_subscript 0 id (s_entity_archetype_map w) in
  let '(archetype, store) :=
    fhm_subscript TypeErasedArchetype_default components (s_component_archetype_map w) in
  archetype' ← drop_row (shape_components S) id archetype;
  Some (mkWorld (s_next_entity_id w) (s_component_trie w)
                (<[components := archetype']> store) registry).

(** ** Entity *)

(** An [Entity<Derived, World>] object: its [m_id] and its derived type. *)
Record Entity := mkEntity {
  m_id : entity_t;
  derived_type : Shape
}.

(** The constructor: the member initialiser [m_id{AllocateID()}], then
    [Register] of the object with [ecs_component_mask<components_type>()]. *)
Definition Entity_ctor (S : Shape) (w : World) : option (Entity * World) :=
  let '(id, w1) := World_AllocateID w in
  let bitmap := ecs_component_mask (shape_components S) in
  w2 ← World_Register id S bitmap w1;
  Some (mkEntity id S, w2).

(** The destructor. *)
Definition Entity_dtor (e : Entity) (w : World) : option World :=
  World_Unregister (m_id e) (derived_type e) w.

(** [Entity(Entity&&) = default;]: the new object is initialised member by
    member from the source. [m_id] is a [const uint64_t], so the new
    object has the id of the source, which keeps it; nothing is allocated
    or registered, and the source stays alive until its own destructor
    runs. (The defaulted move assignment is deleted, [m_id] being
    [const].) *)
Definition Entity_move (e : Entity) : Entity :=
  mkEntity (m_id e) (derived_type e).

(** [Entity::Get<Component>()]. *)
Definition Entity_Get (e : Entity) (c : component_id_t) (w : World) : option (V * World) :=
  let '(components, registry) := fhm_subscript 0 (m_id e) (s_entity_archetype_map w) in
  let '(archetype, store) :=
    fhm_subscript TypeErasedArchetype_default components (s_component_archetype_map w) in
  '(v, archetype') ← TypeErasedArchetype_Get c (m_id e) archetype;
  Some (v, mkWorld (s_next_entity_id w) (s_component_trie w)
                   (<[components := archetype']> store) registry).

(** [Entity::Set<Component>(value)]. *)
Definition Entity_Set (e : Entity) (c : component_id_t) (value : V) (w : World)
    : option World :=
  let '(components, registry) := fhm_subscript 0 (m_id e) (s_entity_archetype_map w) in
  let '(archetype, store) :=
    fhm_subscript TypeErasedArchetype_default components (s_component_archetype_map w) in
  archetype' ← TypeErasedArchetype_Set c (m_id e) value archetype;
  Some (mkWorld (s_next_entity_id w) (s_component_trie w)
                (<[components := archetype']> store) registry).

(** [Entity::HasComponent<Component>()]. *)
Definition Entity_HasComponent (e : Entity) (c : component_id_t) (w : World) : bool * World :=
  let '(components, registry) := fhm_subscript 0 (m_id e) (s_entity_archetype_map w) in
  let mask := shl_i128 1 c in
  (bool_decide (Z.land components mask = mask),
   set_entity_map (λ _, registry) w).

(** ** components_view *)

Inductive Stage := eBeginArchetype | eNextArchetype | eNextRow | eFinished.

Global Instance Stage_eq_dec : EqDecision Stage.
Proof. solve_decision. Defined.

(** [components_view::Iterator::GeneratorContext]. The archetype iterators
    are iterators of the match-mask view: the masks still to come, the
    sentinel being [end()], the empty remainder. *)
Record GeneratorContext := mkContext {
  m_stage : Stage;
  m_curr_archetype_it : list Z;
  m_sentinel_archetype_it : list Z;
  m_curr_row : ColumnSetIterator V;
  m_sentinel_row : ColumnSetIterator V
}.

(** The cases [eNextArchetype] (after its [++m_curr_archetype_it]) and
    [eBeginArchetype] of [next_row], where [rest] is [m_curr_archetype_it];
    the call [return next_row()] of an empty archetype re-enters here with
    the iterator advanced. *)
Fixpoint begin_archetype (Q : list component_id_t) (rest : list Z)
    (ctx : GeneratorContext) (w : World) : option (GeneratorContext * World) :=
  match rest with
  | [] =>
      Some (mkContext eFinished [] (m_sentinel_archetype_it ctx)
                      (m_curr_row ctx) (m_sentinel_row ctx), w)
  | mask :: rest' =>
      let '(arch, store) :=
        fhm_subscript TypeErasedArchetype_default mask (s_component_archetype_map w) in
      let w' := set_archetype_map (λ _, store) w in
      curr ← TypeErasedArchetype_begin Q arch;
      sentinel ← TypeErasedArchetype_end Q arch;
      if ColumnSetIterator_eq curr sentinel then
        begin_archetype Q rest'
          (mkContext eNextArchetype rest (m_sentinel_archetype_it ctx) curr sentinel) w'
      else
        Some (mkContext eNextRow rest (m_sentinel_archetype_it ctx) curr sentinel, w')
  end.

(** [components_view::Iterator::next_row]. *)
Definition next_row (Q : list component_id_t) (ctx : GeneratorContext) (w : World)
    : option (GeneratorContext * World) :=
  match m_stage ctx with
  | eNextArchetype => begin_archetype Q (tail (m_curr_archetype_it ctx)) ctx w
  | eBeginArchetype => begin_archetype Q (m_curr_archetype_it ctx) ctx w
  | eNextRow =>
      row ← ColumnSetIterator_incr (m_curr_row ctx);
      if ColumnSetIterator_eq row (m_sentinel_row ctx) then
        begin_archetype Q (tail (m_curr_archetype_it ctx))
          (mkContext eNextArchetype (m_curr_archetype_it ctx)
                     (m_sentinel_archetype_it ctx) row (m_sentinel_row ctx)) w
      else
        Some (mkContext eNextRow (m_curr_archetype_it ctx)
                        (m_sentinel_archetype_it ctx) row (m_sentinel_row ctx), w)
  | eFinished => None (* pe::assert(false) *)
  end.

(** [Iterator(begin, end)]: the context starts at [eBeginArchetype] with
    default-constructed row iterators, and [next_row] runs once. The
    context holds two [ColumnSetIterator<Components...>] members. *)
Definition Iterator_ctor (Q : list component_id_t) (begin end_ : list Z) (w : World)
    : option (GeneratorContext * World) :=
  if ColumnSetIterator_well_formed Q then
    next_row Q (mkContext eBeginArchetype begin end_ ((λ _, []) <$> Q) ((λ _, []) <$> Q)) w
  else None.

(** [Iterator::operator*]. *)
Definition Iterator_deref (it : GeneratorContext) : option (entity_t * list V) :=
  ColumnSetIterator_deref (m_curr_row it).

(** The defaulted comparison of [GeneratorContext], member by member. *)
Definition GeneratorContext_eq (a b : GeneratorContext) : bool :=
  bool_decide (m_stage a = m_stage b)
  && trie_iter_eq (m_curr_archetype_it a) (m_curr_archetype_it b)
  && trie_iter_eq (m_sentinel_archetype_it a) (m_sentinel_archetype_it b)
  && ColumnSetIterator_eq (m_curr_row a) (m_curr_row b)
  && ColumnSetIterator_eq (m_sentinel_row a) (m_sentinel_row b).

(** [operator==] of two [Iterator]s. *)
Definition Iterator_eq (a b : GeneratorContext) : bool :=
  if bool_decide (m_stage a = eFinished) && bool_decide (m_stage b = eFinished)
  then true
  else GeneratorContext_eq a b.

(** [components_view()]: [m_arch_view] is the match-mask view of the trie
    for [ecs_component_mask<components_type>()]. *)
Definition components_view (Q : list component_id_t) (w : World) : list Z :=
  trie_view_match_mask (s_component_trie w) (ecs_component_mask Q).

Definition components_view_begin (Q : list component_id_t) (w : World)
    : option (GeneratorContext * World) :=
  Iterator_ctor Q (components_view Q w) [] w.

Definition components_view_end (Q : list component_id_t) (w : World)
    : option (GeneratorContext * World) :=
  Iterator_ctor Q [] [] w.

(** The loop [for (auto it = begin; it != end; ++it) yield *it], bounded
    by [fuel] iterations. *)
Fixpoint iterate_view (fuel : nat) (Q : list component_id_t)
    (it end_ : GeneratorContext) (w : World) : option (list (entity_t * list V) * World) :=
  match fuel with
  | O => None
  | S fuel' =>
      if Iterator_eq it end_ then Some ([], w)
      else
        row ← Iterator_deref it;
        '(it', w') ← next_row Q it w;
        '(rows, w'') ← iterate_view fuel' Q it' end_ w';
        Some (row :: rows, w'')
  end.

(** Iterating a fresh [components_view<World, Q...>] from [begin()] to
    [end()]. *)
Definition view_rows (fuel : nat) (Q : list component_id_t) (w : World)
    : option (list (entity_t * list V) * World) :=
  '(first, w1) ← components_view_begin Q w;
  '(last, w2) ← components_view_end Q w1;
  iterate_view fuel Q first last w2.

(** ** Programs over the database *)

(** The state of a program using the database: the world, the entity
    objects that are alive, and (for reasoning only) the ids that
    [AllocateID] has returned so far, latest first. *)
Record System := mkSystem {
  sys_world : World;
  sys_live : list Entity;
  sys_issued : list entity_t
}.

Definition System_init : System := mkSystem World_init [] [].

(** One operation of a program that makes every entity object with the
    constructor [Entity()] and moves none. [Get] and [Set] carry the
    constraint [requires (has_component<Entity, Component>())], and every
    component named passed [component_traits]. In such a program no two
    objects have the same [m_id] before the counter wraps, and the
    destructor of an object ends the one object with its id. Programs
    that also move entity objects are [program_step] below. *)
Inductive sys_step : System → System → Prop :=
  | step_AllocateID s id w' :
      World_AllocateID (sys_world s) = (id, w') →
      sys_step s (mkSystem w' (sys_live s) (id :: sys_issued s))
  | step_ctor s S e w' :
      shape_ok S →
      Entity_ctor S (sys_world s) = Some (e, w') →
      sys_step s (mkSystem w' (e :: sys_live s) (m_id e :: sys_issued s))
  | step_Get s e c v w' :
      e ∈ sys_live s →
      has_component (derived_type e) c →
      Entity_Get e c (sys_world s) = Some (v, w') →
      sys_step s (mkSystem w' (sys_live s) (sys_issued s))
  | step_Set s e c v w' :
      e ∈ sys_live s →
      has_component (derived_type e) c →
      Entity_Set e c v (sys_world s) = Some w' →
      sys_step s (mkSystem w' (sys_live s) (sys_issued s))
  | step_HasComponent s e c b w' :
      e ∈ sys_live s →
      valid_component c →
      Entity_HasComponent e c (sys_world s) = (b, w') →
      sys_step s (mkSystem w' (sys_live s) (sys_issued s))
  | step_dtor s e w' :
      e ∈ sys_live s →
      Entity_dtor e (sys_world s) = Some w' →
      sys_step s (mkSystem w' (filter (λ e', m_id e' ≠ m_id e) (sys_live s))
                           (sys_issued s)).

(** The states a program that moves no entity object can be in. *)
Inductive reachable : System → Prop :=
  | reachable_init : reachable System_init
  | reachable_step s s' : reachable s → sys_step s s' → reachable s'.

(** One operation of any program: the operations above and the move
    constructor, which adds an object with the [m_id] of a live one. The
    destructor ends one object, the one at position [i] of the live
    objects, and runs [Unregister] for its id whether or not another live
    object has the same id. *)
Inductive program_step : System → System → Prop :=
  | pstep_AllocateID s id w' :
      World_AllocateID (sys_world s) = (id, w') →
      program_step s (mkSystem w' (sys_live s) (id :: sys_issued s))
  | pstep_ctor s S e w' :
      shape_ok S →
      Entity_ctor S (sys_world s) = Some (e, w') →
      program_step s (mkSystem w' (e :: sys_live s) (m_id e :: sys_issued s))
  | pstep_move s e :
      e ∈ sys_live s →
      program_step s (mkSystem (sys_world s) (Entity_move e :: sys_live s) (sys_issued s))
  | pstep_Get s e c v w' :
      e ∈ sys_live s →
      has_component (derived_type e) c →
      Entity_Get e c (sys_world s) = Some (v, w') →
      program_step s (mkSystem w' (sys_live s) (sys_issued s))
  | pstep_Set s e c v w' :
      e ∈ sys_live s →
      has_component (derived_type e) c →
      Entity_Set e c v (sys_world s) = Some w' →
      program_step s (mkSystem w' (sys_live s) (sys_issued s))
  | pstep_HasComponent s e c b w' :
      e ∈ sys_live s →
      valid_component c →
      Entity_HasComponent e c (sys_world s) = (b, w') →
      program_step s (mkSystem w' (sys_live s) (sys_issued s))
  | pstep_dtor s i e w' :
      sys_live s !! i = Some e →
      Entity_dtor e (sys_world s) = Some w' →
      program_step s (mkSystem w' (delete i (sys_live s)) (sys_issued s)).

(** The states any program can be in. *)
Inductive program_reachable : System → Prop :=
  | program_reachable_init : program_reachable System_init
  | program_reachable_step s s' :
      program_reachable s → program_step s s' → program_reachable s'.

(** No id has been handed out twice yet: fewer than 2^64 calls of
    [AllocateID]. *)
Definition before_wrap (s : System) : Prop :=
  Z.of_nat (length (sys_issued s)) < 2 ^ 64.

(** ** Specification-level descriptions *)

(** The initial value of the cell of component [c] in a row of shape [S]:
    [Default<S, c>::value] when the program declares it, the
    value-initialised component otherwise. *)
Definition cell_default (S : Shape) (c : component_id_t) : V :=
  default (value_init c) (shape_defaults S !! c).

(** The table [a] with the cell of [id] set to [f c] in every column [c]
    of [cs]. *)
Definition rows_insert (f : component_id_t → V) (cs : list component_id_t)
    (id : entity_t) (a : Archetype V) : Archetype V :=
  map_imap (λ c col, Some (if bool_decide (c ∈ cs) then <[id := f c]> col else col)) a.

(** The table [a] with the cell of [id] erased from every column of [cs]. *)
Definition rows_erase (cs : list component_id_t) (id : entity_t) (a : Archetype V)
    : Archetype V :=
  map_imap (λ c col, Some (if bool_decide (c ∈ cs) then delete id col else col)) a.

(** The cell of entity [id] in column [c] of the table under [m], if the
    world has one. *)
Definition cell (w : World) (m : component_bitfield_t) (c : component_id_t)
    (id : entity_t) : option V :=
  a ← s_component_archetype_map w !! m; col ← a !! c; col !! id.

(** The entities with a cell in column [c] of the table under [m]. *)
Definition column_keys (w : World) (m : component_bitfield_t) (c : component_id_t)
    : option (gset Z) :=
  a ← s_component_archetype_map w !! m; col ← a !! c; Some (dom col).

(** The entity [id] has a row in the table [a]: some column holds a cell
    keyed by it. *)
Definition has_row (a : Archetype V) (id : entity_t) : Prop :=
  ∃ c col, a !! c = Some col ∧ id ∈ dom col.

(** The tuple a view over [Q] yields for the row of [id] in [a]. *)
Definition row_refs (Q : list component_id_t) (a : Archetype V) (id : entity_t)
    : option (list V) :=
  mapM (λ c, col ← a !! c; col !! id) Q.

(** The entities of the table [a], in the order in which the first
    column of [Q] is walked. *)
Definition table_keys (Q : list component_id_t) (a : Archetype V) : list entity_t :=
  match Q with
  | [] => []
  | c0 :: _ =>
      match a !! c0 with
      | Some col0 => (map_to_list col0).*1
      | None => []
      end
  end.

(** The tuples of the table [a] for the components [Q], one for every
    entity of the table. *)
Definition table_rows (Q : list component_id_t) (a : Archetype V)
    : list (entity_t * list V) :=
  omap (λ id, refs ← row_refs Q a id; Some (id, refs)) (table_keys Q a).

(** The tuples of the tables under [masks], table after table. *)
Definition tables_rows (Q : list component_id_t) (w : World) (masks : list Z)
    : list (entity_t * list V) :=
  masks ≫= λ m, table_rows Q (default ∅ (s_component_archetype_map w !! m)).

(** The column iterators of the columns [cols] after [n] steps from
    [begin()]. *)
Definition rows_at (cols : list (gmap Z V)) (n : nat) : ColumnSetIterator V :=
  (λ col, drop n (map_to_list col)) <$> cols.

(** The columns [cols] are the columns of [Q] in the table [a], and all
    of them are walked in the key order [K]. *)
Definition lockstep_columns (Q : list component_id_t) (a : Archetype V)
    (cols : list (gmap Z V)) (K : list entity_t) : Prop :=
  Forall2 (λ c col, a !! c = Some col) Q cols
  ∧ Forall (λ col, (map_to_list col).*1 = K) cols.

(** Every mask of [masks] has a table whose columns for [Q] are walked
    in lockstep. *)
Definition lockstep_tables (Q : list component_id_t) (w : World) (masks : list Z) : Prop :=
  Forall (λ m, ∃ a cols K, s_component_archetype_map w !! m = Some a
                           ∧ lockstep_columns Q a cols K) masks.

(** From any context, [begin_archetype] over the masks [masks] returns
    with the world unchanged, and the loop from there yields the tuples of
    their tables and stops at [last]. *)
Definition runs_tables (Q : list component_id_t) (w : World) (last : GeneratorContext)
    (masks : list Z) : Prop :=
  ∀ ctx, ∃ ctx', begin_archetype Q masks ctx w = Some (ctx', w)
    ∧ ∀ fuel, (length (tables_rows Q w masks) < fuel)%nat →
        iterate_view fuel Q ctx' last w = Some (tables_rows Q w masks, w).

(** The world after [Register] has put the row of a fresh [id] of shape
    [S] in place. *)
Definition registered (S : Shape) (id : entity_t) (w : World) : World :=
  let m := ecs_component_mask (shape_components S) in
  let a0 := default (Archetype_new (shape_components S)) (s_component_archetype_map w !! m) in
  mkWorld (s_next_entity_id w) ({[ m ]} ∪ s_component_trie w)
          (<[m := rows_insert (cell_default S) (shape_components S) id a0]>
             (s_component_archetype_map w))
          (<[id := m]> (s_entity_archetype_map w)).

(** The world after [Unregister] has dropped the row of [id] from the
    table under [m]. *)
Definition unregistered (S : Shape) (id : entity_t) (m : component_bitfield_t)
    (w : World) : World :=
  mkWorld (s_next_entity_id w) (s_component_trie w)
          (alter (rows_erase (shape_components S) id) m (s_component_archetype_map w))
          (s_entity_archetype_map w).

(** The world with the cell of [id] in column [c] of the table under [m]
    set to [v]. *)
Definition cell_updated (m : component_bitfield_t) (c : component_id_t) (id : entity_t)
    (v : V) (w : World) : World :=
  mkWorld (s_next_entity_id w) (s_component_trie w)
          (alter (alter (insert id v) c) m (s_component_archetype_map w))
          (s_entity_archetype_map w).

(** ** Invariants *)

(** What holds of the store, the index and the registry. *)
Record world_inv (w : World) : Prop := mkWorldInv {
  (** the index holds exactly the keys of the store *)
  wi_trie : s_component_trie w = dom (s_component_archetype_map w);
  (** the mask of a registered id has a table *)
  wi_registered : ∀ id m, s_entity_archetype_map w !! id = Some m →
    is_Some (s_component_archetype_map w !! m);
  (** the table under a mask has the columns of the mask's components *)
  wi_columns : ∀ m a, s_component_archetype_map w !! m = Some a →
    ∃ cs, Forall valid_component cs ∧ m = ecs_component_mask cs
          ∧ ∀ c, is_Some (a !! c) ↔ c ∈ cs;
  (** sibling columns hold the same entities *)
  wi_lockstep : ∀ m a c1 c2 col1 col2, s_component_archetype_map w !! m = Some a →
    a !! c1 = Some col1 → a !! c2 = Some col2 → dom col1 = dom col2;
  (** a row belongs to an entity registered under the table's mask *)
  wi_owner : ∀ m a c col id, s_component_archetype_map w !! m = Some a →
    a !! c = Some col → id ∈ dom col → s_entity_archetype_map w !! id = Some m
}.

(** What holds of every reachable state, wrapped counter or not. *)
Record index_inv (s : System) : Prop := mkIndexInv {
  ii_trie : s_component_trie (sys_world s) = dom (s_component_archetype_map (sys_world s));
  ii_registered : ∀ id m, s_entity_archetype_map (sys_world s) !! id = Some m →
    is_Some (s_component_archetype_map (sys_world s) !! m);
  ii_live : ∀ e, e ∈ sys_live s → is_Some (s_entity_archetype_map (sys_world s) !! m_id e)
}.

(** An entity object [e] is registered in [w] with its row in place. *)
Record entity_inv (w : World) (e : Entity) : Prop := mkEntityInv {
  ei_shape : shape_ok (derived_type e);
  ei_registered : s_entity_archetype_map w !! m_id e
                  = Some (ecs_component_mask (shape_components (derived_type e)));
  ei_row : ∀ a c col,
    s_component_archetype_map w !! ecs_component_mask (shape_components (derived_type e)) = Some a →
    a !! c = Some col → m_id e ∈ dom col
}.

(** What holds of a reachable state before the counter wraps. *)
Record sys_inv (s : System) : Prop := mkSysInv {
  si_world : world_inv (sys_world s);
  si_next : s_next_entity_id (sys_world s) = Z.of_nat (length (sys_issued s));
  si_fresh : ∀ id, is_Some (s_entity_archetype_map (sys_world s) !! id) →
    0 <= id < s_next_entity_id (sys_world s);
  si_issued : ∀ id, id ∈ sys_issued s → 0 <= id < s_next_entity_id (sys_world s);
  si_nodup : NoDup (m_id <$> sys_live s);
  si_live : ∀ e, e ∈ sys_live s → entity_inv (sys_world s) e;
  si_rows : ∀ m a id, s_component_archetype_map (sys_world s) !! m = Some a →
    has_row a id → ∃ e, e ∈ sys_live s ∧ m_id e = id
}.

End Model.

Arguments Shape V : clear implicits.
Arguments World V : clear implicits.
Arguments Entity V : clear implicits.
Arguments System V : clear implicits.
Arguments GeneratorContext V : clear implicits.


(** ** A small program *)

(** Components holding one integer, value-initialised to zero. *)
#[global] Instance Z_ValueInit : ValueInit Z := λ _, 0.

(** Two shapes in the manner of the spec's scenarios: [A = {Position}]
    and [B = {Position, Velocity}] with a declared default for
    [Velocity]; [Position] has id 0 and [Velocity] id 1. *)
Definition shape_A : Shape Z := mkShape [0] ∅.
Definition shape_B : Shape Z := mkShape [0; 1] {[ 1 := 7 ]}.

Definition entity_a : Entity Z := mkEntity 0 shape_A.
Definition entity_b : Entity Z := mkEntity 1 shape_B.

(** The world after an entity of shape [A] was constructed, and after
    one of shape [B] was constructed next. *)
Definition world_a : World Z :=
  mkWorld 1 {[ 1 ]} {[ 1 := {[ 0 := {[ 0 := 0 ]} ]} ]} {[ 0 := 1 ]}.

Definition world_ab : World Z :=
  mkWorld 2 ({[ 3 ]} ∪ {[ 1 ]})
          (<[ 3 := <[ 1 := {[ 1 := 7 ]} ]> {[ 0 := {[ 1 := 0 ]} ]} ]>
             {[ 1 := {[ 0 := {[ 0 := 0 ]} ]} ]})
          (<[ 1 := 3 ]> {[ 0 := 1 ]}).

Definition system_a : System Z := mkSystem world_a [entity_a] [0].
Definition system_ab : System Z := mkSystem world_ab [entity_b; entity_a] [1; 0].

(** A program that moves an entity object, as [v.push_back(B{})] does for
    a [std::vector<B> v]: an object of shape [B] is constructed, a second
    object is move-constructed from it, and the first is destroyed. *)
Definition entity_tmp : Entity Z := mkEntity 0 shape_B.

Definition world_tmp : World Z :=
  mkWorld 1 {[ 3 ]} {[ 3 := <[ 1 := {[ 0 := 7 ]} ]> {[ 0 := {[ 0 := 0 ]} ]} ]} {[ 0 := 3 ]}.

Definition world_moved : World Z :=
  mkWorld 1 {[ 3 ]} {[ 3 := <[ 1 := ∅ ]> {[ 0 := ∅ ]} ]} {[ 0 := 3 ]}.

Definition system_tmp : System Z := mkSystem world_tmp [entity_tmp] [0].
Definition system_both : System Z :=
  mkSystem world_tmp [Entity_move entity_tmp; entity_tmp] [0].
Definition system_moved : System Z :=
  mkSystem world_moved [Entity_move entity_tmp] [0].

(** The same program after [Set] of the first component to 5 through the
    object that is left. *)
Definition world_moved_set : World Z :=
  mkWorld 1 {[ 3 ]} {[ 3 := <[ 1 := ∅ ]> {[ 0 := {[ 0 := 5 ]} ]} ]} {[ 0 := 3 ]}.

Definition system_moved_set : System Z :=
  mkSystem world_moved_set [Entity_move entity_tmp] [0].

(** * Properties *)

Lemma shl_one_small (c : Z) : 0 <= c < 127 -> shl_i128 1 c = 2 ^ c.
Proof.
  intros Hc. unfold shl_i128, wrap_i128.
  rewrite Z.shiftl_1_l.
  assert (0 < 2 ^ c < 2 ^ 127).
  { split; [apply Z.pow_pos_nonneg; lia | apply Z.pow_lt_mono_r; lia]. }
  rewrite Z.mod_small; lia.
Qed.

Lemma shl_one_top : shl_i128 1 127 = - 2 ^ 127.
Proof. reflexivity. Qed.

Lemma testbit_min_i128 (i : Z) :
  0 <= i -> Z.testbit (- 2 ^ 127) i = bool_decide (127 <= i).
Proof.
  intros Hi.
  replace (- 2 ^ 127) with (Z.shiftl (-1) 127) by reflexivity.
  rewrite Z.shiftl_spec by lia.
  case_bool_decide.
  - apply Z.bits_m1. lia.
  - apply Z.testbit_neg_r. lia.
Qed.

Lemma shl_one_testbit (c i : Z) :
  valid_component c -> 0 <= i < 128 ->
  Z.testbit (shl_i128 1 c) i = bool_decide (i = c).
Proof.
  unfold valid_component, kMaxComponents. intros Hc Hi.
  destruct (Z.eq_dec c 127) as [->|Hne].
  - rewrite shl_one_top, testbit_min_i128 by lia.
    apply bool_decide_ext. lia.
  - rewrite shl_one_small by lia.
    rewrite Z.pow2_bits_eqb by lia.
    case_bool_decide; subst; [apply Z.eqb_refl | apply Z.eqb_neq; congruence].
Qed.

Lemma shl_one_in_i128 (c : Z) : valid_component c -> in_i128 (shl_i128 1 c).
Proof.
  unfold in_i128, shl_i128, wrap_i128. intros _.
  pose proof (Z.mod_pos_bound (Z.shiftl 1 c + 2 ^ 127) (2 ^ 128)).
  lia.
Qed.

(** ** Signed 128-bit values and their bits *)

Lemma in_i128_shiftr (z : Z) :
  in_i128 z ↔ Z.shiftr z 127 = 0 ∨ Z.shiftr z 127 = -1.
Proof.
  unfold in_i128. rewrite Z.shiftr_div_pow2 by lia.
  pose proof (Z.div_mod z (2 ^ 127) ltac:(lia)) as Hdm.
  pose proof (Z.mod_pos_bound z (2 ^ 127) ltac:(lia)) as Hr.
  set (q := z / 2 ^ 127) in *. set (r := z mod 2 ^ 127) in *.
  lia.
Qed.

Lemma in_i128_lor (x y : Z) : in_i128 x -> in_i128 y -> in_i128 (Z.lor x y).
Proof.
  rewrite !in_i128_shiftr, Z.shiftr_lor.
  intros [-> | ->] [-> | ->]; auto.
Qed.

Lemma in_i128_high_bits (x i : Z) :
  in_i128 x -> 127 <= i -> Z.testbit x i = Z.testbit x 127.
Proof.
  intros Hx Hi. apply in_i128_shiftr in Hx.
  replace i with ((i - 127) + 127) by lia.
  replace 127 with (0 + 127) at 3 by lia.
  rewrite <- !Z.shiftr_spec by lia.
  destruct Hx as [-> | ->].
  - by rewrite !Z.bits_0.
  - by rewrite !Z.bits_m1 by lia.
Qed.

Lemma component_bitfield_in_i128 (ids : list Z) :
  Forall valid_component ids -> in_i128 (component_bitfield ids).
Proof.
  induction 1 as [|c ids Hc _ IH]; simpl.
  - unfold in_i128. lia.
  - apply in_i128_lor; [by apply shl_one_in_i128 | done].
Qed.

Lemma bool_decide_elem_of_cons (i c : Z) (ids : list Z) :
  bool_decide (i ∈ c :: ids) = bool_decide (i = c) || bool_decide (i ∈ ids).
Proof.
  destruct (decide (i = c)) as [->|Hne].
  - rewrite (bool_decide_eq_true_2 (c = c)) by done.
    apply bool_decide_eq_true_2. by left.
  - rewrite (bool_decide_eq_false_2 (i = c)) by done.
    apply bool_decide_ext. rewrite elem_of_cons. naive_solver.
Qed.

Lemma bool_decide_elem_of_nil (i : Z) : bool_decide (i ∈ @nil Z) = false.
Proof. apply bool_decide_eq_false_2. by intros ?%elem_of_nil. Qed.

Lemma component_bitfield_testbit (ids : list Z) (i : Z) :
  Forall valid_component ids -> 0 <= i < 128 ->
  Z.testbit (component_bitfield ids) i = bool_decide (i ∈ ids).
Proof.
  intros Hids Hi. induction Hids as [|c ids Hc _ IH]; cbn [component_bitfield].
  - by rewrite Z.bits_0, bool_decide_elem_of_nil.
  - by rewrite Z.lor_spec, IH, shl_one_testbit, bool_decide_elem_of_cons.
Qed.

(** The unsigned reading of the mask: the OR of the powers of two. *)
Lemma component_bitfield_unsigned (ids : list Z) :
  Forall valid_component ids ->
  component_bitfield ids mod 2 ^ 128 = foldr Z.lor 0 ((λ c, 2 ^ c) <$> ids).
Proof.
  intros Hids. apply Z.bits_inj'. intros i Hi.
  assert (Hfold : Z.testbit (foldr Z.lor 0 ((λ c, 2 ^ c) <$> ids)) i = bool_decide (i ∈ ids)).
  { clear -Hids Hi. induction Hids as [|c ids Hc _ IH].
    - by rewrite Z.bits_0, bool_decide_elem_of_nil.
    - unfold valid_component, kMaxComponents in Hc.
      rewrite fmap_cons. cbn [foldr].
      rewrite Z.lor_spec, IH, Z.pow2_bits_eqb, bool_decide_elem_of_cons by lia.
      f_equal. destruct (decide (i = c)) as [->|Hne].
      + rewrite Z.eqb_refl. symmetry. by apply bool_decide_eq_true_2.
      + rewrite bool_decide_eq_false_2 by done. apply Z.eqb_neq. congruence. }
  rewrite Hfold.
  destruct (Z_lt_dec i 128) as [Hlt|Hge].
  - rewrite Z.mod_pow2_bits_low by lia. apply component_bitfield_testbit; [done | lia].
  - rewrite Z.mod_pow2_bits_high by lia. symmetry. apply bool_decide_eq_false_2.
    intros Hin. rewrite Forall_forall in Hids. apply Hids in Hin.
    unfold valid_component, kMaxComponents in Hin. lia.
Qed.

(** The test [(components & mask) == mask] of [HasComponent] reads one
    bit of a 128-bit value. *)
Lemma mask_and_test (x c : Z) :
  in_i128 x -> valid_component c ->
  bool_decide (Z.land x (shl_i128 1 c) = shl_i128 1 c) = Z.testbit x c.
Proof.
  intros Hx Hc.
  assert (Hcc : 0 <= c < 128) by exact Hc.
  destruct (Z.testbit x c) eqn:Hbit.
  - apply bool_decide_eq_true_2. apply Z.bits_inj'. intros i Hi.
    rewrite Z.land_spec.
    destruct (Z.testbit (shl_i128 1 c) i) eqn:Hm; [|by rewrite andb_false_r].
    rewrite andb_true_r.
    destruct (Z_lt_dec i 128) as [Hlt|Hge].
    + rewrite shl_one_testbit in Hm by (done || lia).
      apply bool_decide_eq_true_1 in Hm. by subst.
    + destruct (Z.eq_dec c 127) as [->|Hne].
      * rewrite in_i128_high_bits by (done || lia). done.
      * rewrite shl_one_small, Z.pow2_bits_eqb in Hm by lia.
        apply Z.eqb_eq in Hm. lia.
  - apply bool_decide_eq_false_2. intros Heq.
    assert (Z.testbit (Z.land x (shl_i128 1 c)) c = true) as Hc'.
    { rewrite Heq, shl_one_testbit by done. by apply bool_decide_eq_true_2. }
    rewrite Z.land_spec, Hbit in Hc'. done.
Qed.

(** C4: for a shape whose component ids all lie in [0, 128), the mask
    [ecs_component_mask] is a 128-bit value, its 128-bit pattern is the
    bitwise OR of the values [1 << id], and for every position [i] of
    [0, 128), position 127 included, bit [i] is set exactly when [i] is
    the id of a component of the shape. *)
Theorem ecs_component_mask_bits (ids : list Z) :
  Forall valid_component ids ->
  in_i128 (ecs_component_mask ids)
  ∧ ecs_component_mask ids = foldr Z.lor 0 (shl_i128 1 <$> ids)
  ∧ ecs_component_mask ids mod 2 ^ 128 = foldr Z.lor 0 ((λ c, 2 ^ c) <$> ids)
  ∧ ∀ i, 0 <= i < 128 -> (Z.testbit (ecs_component_mask ids) i = true ↔ i ∈ ids).
Proof.
  intros Hids. unfold ecs_component_mask. repeat split.
  - apply component_bitfield_in_i128 in Hids. apply Hids.
  - apply component_bitfield_in_i128 in Hids. apply Hids.
  - clear Hids. induction ids as [|c ids IH]; simpl; [done | by rewrite IH].
  - by apply component_bitfield_unsigned.
  - rewrite component_bitfield_testbit by done. apply bool_decide_eq_true_1.
  - intros Hin. rewrite component_bitfield_testbit by done. by apply bool_decide_eq_true_2.
Qed.

(** ** The hash map *)

Section FlatHashMap.
Context {K A : Type} `{Countable K}.
Implicit Types (m : gmap K A) (k : K) (v dflt : A).

Lemma fhm_subscript_present dflt k m v :
  m !! k = Some v -> fhm_subscript dflt k m = (v, m).
Proof. unfold fhm_subscript. by intros ->. Qed.

Lemma fhm_insert_fresh k v m : m !! k = None -> fhm_insert k v m = <[k := v]> m.
Proof. unfold fhm_insert. intros Hk. by rewrite ?Hk. Qed.

Lemma fhm_insert_lookup_ne k k' v m : k ≠ k' -> fhm_insert k v m !! k' = m !! k'.
Proof.
  intros Hne. unfold fhm_insert. destruct (m !! k) eqn:Hk; by rewrite ?lookup_insert_ne.
Qed.

Lemma fhm_insert_is_Some k v m : is_Some (fhm_insert k v m !! k).
Proof.
  unfold fhm_insert. destruct (m !! k) eqn:Hk; rewrite ?lookup_insert_eq, ?Hk; eauto.
Qed.

Lemma fhm_insert_dom k v m : dom (fhm_insert k v m) = {[ k ]} ∪ dom m.
Proof.
  unfold fhm_insert. destruct (m !! k) eqn:Hk; rewrite ?dom_insert_L; [|done].
  apply elem_of_dom_2 in Hk. set_solver.
Qed.

(** Two maps over the same keys are walked in the same key order. *)
Lemma map_to_list_keys_dom {B : Type} (m1 : gmap K A) (m2 : gmap K B) :
  dom m1 = dom m2 -> (map_to_list m1).*1 = (map_to_list m2).*1.
Proof.
  intros Hdom.
  assert (Hsub : ∀ k, is_Some (m1 !! k) ↔ is_Some (m2 !! k)).
  { intros k. by rewrite <- !elem_of_dom, Hdom. }
  rewrite <- (fst_map_zip m1 m2) at 1 by (intros k; apply Hsub).
  rewrite <- (snd_map_zip m1 m2) at 2 by (intros k; apply Hsub).
  rewrite !map_to_list_fmap, <- !list_fmap_compose.
  apply list_fmap_ext. by intros ? [? [? ?]].
Qed.

End FlatHashMap.

(** ** Archetype tables *)

Section Archetype.
Context {V : Type} `{!ValueInit V}.
Implicit Types (a : Archetype V) (col : gmap Z V) (c id : Z) (v : V) (S : Shape V).

Lemma Archetype_Set_column c id v a col :
  a !! c = Some col -> Archetype_Set c id v a = Some (<[c := <[id := v]> col]> a).
Proof.
  intros Hc. unfold Archetype_Set, fhm_assign. by rewrite Hc.
Qed.

Lemma Archetype_Get_cell c id a col v :
  a !! c = Some col -> col !! id = Some v -> Archetype_Get c id a = Some (v, a).
Proof.
  intros Hc Hid. unfold Archetype_Get, fhm_subscript. rewrite Hc. simpl.
  rewrite Hid. simpl. by rewrite insert_id.
Qed.

Lemma Archetype_Clear_column c id a col :
  a !! c = Some col -> Archetype_Clear c id a = Some (<[c := delete id col]> a).
Proof. intros Hc. unfold Archetype_Clear. by rewrite Hc. Qed.

Lemma lookup_Archetype_new (cs : list Z) c :
  (Archetype_new cs : Archetype V) !! c = if bool_decide (c ∈ cs) then Some ∅ else None.
Proof.
  unfold Archetype_new. induction cs as [|c' cs IH].
  - by rewrite bool_decide_elem_of_nil.
  - rewrite fmap_cons. cbn [list_to_map foldr]. rewrite bool_decide_elem_of_cons.
    destruct (decide (c = c')) as [->|Hne].
    + rewrite lookup_insert_eq. by rewrite bool_decide_eq_true_2.
    + rewrite lookup_insert_ne by done. rewrite IH.
      by rewrite (bool_decide_eq_false_2 (c = c')).
Qed.

Lemma lookup_rows_insert (f : Z → V) (cs : list Z) id a c :
  rows_insert f cs id a !! c
  = (λ col, if bool_decide (c ∈ cs) then <[id := f c]> col else col) <$> a !! c.
Proof. unfold rows_insert. rewrite map_lookup_imap. by destruct (a !! c). Qed.

Lemma lookup_rows_erase (cs : list Z) id a c :
  rows_erase cs id a !! c
  = (λ col, if bool_decide (c ∈ cs) then delete id col else col) <$> a !! c.
Proof. unfold rows_erase. rewrite map_lookup_imap. by destruct (a !! c). Qed.

Lemma set_cell_default S c id a :
  set_cell S c id a = TypeErasedArchetype_Set c id (cell_default S c) a.
Proof. unfold set_cell, cell_default. by destruct (shape_defaults S !! c). Qed.

(** [add_row] writes the default of every component of the shape. *)
Lemma add_row_cells_rows_insert S (cs : list Z) id a :
  (∀ c, c ∈ cs -> is_Some (a !! c)) ->
  add_row_cells S cs id a = Some (rows_insert (cell_default S) cs id a).
Proof.
  revert a. induction cs as [|c cs IH]; intros a Hcs; cbn [add_row_cells].
  - f_equal. apply map_eq. intros c. rewrite lookup_rows_insert.
    rewrite bool_decide_elem_of_nil. by destruct (a !! c).
  - destruct (Hcs c ltac:(by left)) as [col Hcol].
    rewrite set_cell_default. unfold TypeErasedArchetype_Set.
    rewrite (Archetype_Set_column _ _ _ _ _ Hcol). simpl.
    rewrite IH.
    + f_equal. apply map_eq. intros c'. rewrite !lookup_rows_insert.
      rewrite bool_decide_elem_of_cons.
      destruct (decide (c' = c)) as [->|Hne].
      * rewrite lookup_insert_eq, Hcol. simpl.
        rewrite (bool_decide_eq_true_2 (c = c)) by done. simpl.
        f_equal. case_bool_decide; [by rewrite insert_insert_eq | done].
      * rewrite lookup_insert_ne by done.
        by rewrite (bool_decide_eq_false_2 (c' = c)).
    + intros c' Hc'. destruct (decide (c' = c)) as [->|Hne].
      * rewrite lookup_insert_eq. eauto.
      * rewrite lookup_insert_ne by done. apply Hcs. by right.
Qed.

(** [drop_row] erases the cell of every component of the shape. *)
Lemma drop_row_rows_erase (cs : list Z) id a :
  (∀ c, c ∈ cs -> is_Some (a !! c)) ->
  drop_row cs id a = Some (rows_erase cs id a).
Proof.
  revert a. induction cs as [|c cs IH]; intros a Hcs; cbn [drop_row].
  - f_equal. apply map_eq. intros c. rewrite lookup_rows_erase.
    rewrite bool_decide_elem_of_nil. by destruct (a !! c).
  - destruct (Hcs c ltac:(by left)) as [col Hcol].
    unfold TypeErasedArchetype_Clear.
    rewrite (Archetype_Clear_column _ _ _ _ Hcol). simpl.
    rewrite IH.
    + f_equal. apply map_eq. intros c'. rewrite !lookup_rows_erase.
      rewrite bool_decide_elem_of_cons.
      destruct (decide (c' = c)) as [->|Hne].
      * rewrite lookup_insert_eq, Hcol. simpl.
        rewrite (bool_decide_eq_true_2 (c = c)) by done. simpl.
        f_equal. case_bool_decide; [by rewrite delete_delete_eq | done].
      * rewrite lookup_insert_ne by done.
        by rewrite (bool_decide_eq_false_2 (c' = c)).
    + intros c' Hc'. destruct (decide (c' = c)) as [->|Hne].
      * rewrite lookup_insert_eq. eauto.
      * rewrite lookup_insert_ne by done. apply Hcs. by right.
Qed.

End Archetype.

(** ** Operations on registered entities *)

Section Operations.
Context {V : Type} `{!ValueInit V}.
Implicit Types (a : Archetype V) (col : gmap Z V) (c id m : Z) (v : V)
  (S : Shape V) (w : World V) (e : Entity V).

Lemma Entity_Get_registered e c w m a col v :
  s_entity_archetype_map w !! m_id e = Some m ->
  s_component_archetype_map w !! m = Some a ->
  a !! c = Some col -> col !! m_id e = Some v ->
  Entity_Get e c w = Some (v, w).
Proof.
  intros Hreg Hm Hc Hv. unfold Entity_Get, TypeErasedArchetype_Get.
  rewrite (fhm_subscript_present _ _ _ _ Hreg), (fhm_subscript_present _ _ _ _ Hm).
  rewrite (Archetype_Get_cell _ _ _ _ _ Hc Hv). simpl.
  rewrite insert_id by done. by destruct w.
Qed.

Lemma Entity_Set_registered e c v w m a col :
  s_entity_archetype_map w !! m_id e = Some m ->
  s_component_archetype_map w !! m = Some a ->
  a !! c = Some col ->
  Entity_Set e c v w
  = Some (mkWorld (s_next_entity_id w) (s_component_trie w)
            (<[m := <[c := <[m_id e := v]> col]> a]> (s_component_archetype_map w))
            (s_entity_archetype_map w)).
Proof.
  intros Hreg Hm Hc. unfold Entity_Set, TypeErasedArchetype_Set.
  rewrite (fhm_subscript_present _ _ _ _ Hreg), (fhm_subscript_present _ _ _ _ Hm).
  by rewrite (Archetype_Set_column _ _ _ _ _ Hc).
Qed.

Lemma Entity_HasComponent_registered e c w m :
  s_entity_archetype_map w !! m_id e = Some m ->
  Entity_HasComponent e c w
  = (bool_decide (Z.land m (shl_i128 1 c) = shl_i128 1 c), w).
Proof.
  intros Hreg. unfold Entity_HasComponent.
  rewrite (fhm_subscript_present _ _ _ _ Hreg). by destruct w.
Qed.

Lemma World_Unregister_registered id S w m a :
  s_entity_archetype_map w !! id = Some m ->
  s_component_archetype_map w !! m = Some a ->
  (∀ c, c ∈ shape_components S -> is_Some (a !! c)) ->
  World_Unregister id S w
  = Some (mkWorld (s_next_entity_id w) (s_component_trie w)
            (<[m := rows_erase (shape_components S) id a]> (s_component_archetype_map w))
            (s_entity_archetype_map w)).
Proof.
  intros Hreg Hm Hcs. unfold World_Unregister.
  rewrite (fhm_subscript_present _ _ _ _ Hreg), (fhm_subscript_present _ _ _ _ Hm).
  by rewrite drop_row_rows_erase.
Qed.

Lemma World_Register_table id S m w :
  let a0 := default (Archetype_new (shape_components S)) (s_component_archetype_map w !! m) in
  (∀ c, c ∈ shape_components S -> is_Some (a0 !! c)) ->
  World_Register id S m w
  = Some (mkWorld (s_next_entity_id w)
            (match s_component_archetype_map w !! m with
             | Some _ => s_component_trie w
             | None => {[ m ]} ∪ s_component_trie w
             end)
            (<[m := rows_insert (cell_default S) (shape_components S) id a0]>
               (s_component_archetype_map w))
            (fhm_insert id m (s_entity_archetype_map w))).
Proof.
  intros a0 Hcs. unfold World_Register, add_row.
  destruct (s_component_archetype_map w !! m) as [a|] eqn:Hm; simpl in a0.
  - unfold set_entity_map. simpl.
    rewrite (fhm_subscript_present _ _ _ _ Hm).
    rewrite add_row_cells_rows_insert by done. done.
  - unfold set_entity_map. simpl.
    rewrite (fhm_insert_fresh _ _ _ Hm).
    rewrite (fhm_subscript_present _ _ _ (Archetype_new (shape_components S)))
      by apply lookup_insert_eq.
    rewrite add_row_cells_rows_insert by done. simpl.
    by rewrite insert_insert_eq.
Qed.

(** Two valid shapes with one mask have the same components. *)
Lemma ecs_component_mask_inj (cs cs' : list Z) c :
  Forall valid_component cs -> Forall valid_component cs' ->
  ecs_component_mask cs = ecs_component_mask cs' -> c ∈ cs -> c ∈ cs'.
Proof.
  intros Hcs Hcs' Heq Hc.
  assert (0 <= c < 128) as Hr.
  { rewrite Forall_forall in Hcs. by apply Hcs. }
  unfold ecs_component_mask in Heq.
  pose proof (component_bitfield_testbit cs c Hcs Hr) as H1.
  pose proof (component_bitfield_testbit cs' c Hcs' Hr) as H2.
  rewrite Heq, H2 in H1.
  rewrite (bool_decide_eq_true_2 (c ∈ cs)) in H1 by done.
  by apply bool_decide_eq_true_1 in H1.
Qed.

End Operations.

(** ** The world invariant *)

Section WorldInv.
Context {V : Type} `{!ValueInit V}.
Implicit Types (a : Archetype V) (col : gmap Z V) (c id m : Z) (v : V)
  (S : Shape V) (w : World V) (e : Entity V).

Lemma world_inv_init : world_inv (World_init (V := V)).
Proof.
  split; simpl.
  - by rewrite dom_empty_L.
  - intros id m Hm. by rewrite lookup_empty in Hm.
  - intros m a Hm. by rewrite lookup_empty in Hm.
  - intros m a c1 c2 col1 col2 Hm. by rewrite lookup_empty in Hm.
  - intros m a c col id Hm. by rewrite lookup_empty in Hm.
Qed.

(** The columns of the table of a shape are the components of the shape. *)
Lemma table_columns_shape w S a c :
  world_inv w -> shape_ok S ->
  s_component_archetype_map w !! ecs_component_mask (shape_components S) = Some a ->
  is_Some (a !! c) ↔ c ∈ shape_components S.
Proof.
  intros Hw [HS _] Ha.
  destruct (wi_columns w Hw _ _ Ha) as (cs & Hcs & Hm & Hcols).
  rewrite Hcols. split; intros Hc.
  - by apply (ecs_component_mask_inj cs (shape_components S)).
  - by apply (ecs_component_mask_inj (shape_components S) cs).
Qed.

Lemma new_table_columns S c :
  is_Some ((Archetype_new (shape_components S) : Archetype V) !! c) ↔ c ∈ shape_components S.
Proof.
  rewrite lookup_Archetype_new. case_bool_decide; split; intros Hc; done.
Qed.

(** The table a new row of shape [S] goes to. *)
Lemma target_table_columns w S c :
  world_inv w -> shape_ok S ->
  is_Some (default (Archetype_new (shape_components S))
             (s_component_archetype_map w !! ecs_component_mask (shape_components S)) !! c)
  ↔ c ∈ shape_components S.
Proof.
  intros Hw HS.
  destruct (s_component_archetype_map w !! _) as [a|] eqn:Ha; simpl.
  - by apply (table_columns_shape w S a c).
  - apply new_table_columns.
Qed.

Lemma World_Register_registered id S w :
  world_inv w -> shape_ok S ->
  s_entity_archetype_map w !! id = None ->
  World_Register id S (ecs_component_mask (shape_components S)) w = Some (registered S id w).
Proof.
  intros Hw HS Hfresh. rewrite World_Register_table.
  - unfold registered. rewrite (fhm_insert_fresh _ _ _ Hfresh). do 2 f_equal.
    destruct (s_component_archetype_map w !! _) as [a|] eqn:Ha; [|done].
    apply elem_of_dom_2 in Ha. rewrite (wi_trie w Hw). set_solver.
  - intros c Hc. by apply target_table_columns.
Qed.

Lemma Entity_ctor_registered S w :
  world_inv w -> shape_ok S ->
  s_entity_archetype_map w !! s_next_entity_id w = None ->
  Entity_ctor S w
  = Some (mkEntity (s_next_entity_id w) S,
          registered S (s_next_entity_id w) (World_AllocateID w).2).
Proof.
  intros Hw HS Hfresh. unfold Entity_ctor. simpl.
  rewrite World_Register_registered; [done | | done | done].
  by destruct Hw.
Qed.

Lemma World_Unregister_unregistered id S w :
  world_inv w -> shape_ok S ->
  s_entity_archetype_map w !! id = Some (ecs_component_mask (shape_components S)) ->
  World_Unregister id S w
  = Some (unregistered S id (ecs_component_mask (shape_components S)) w).
Proof.
  intros Hw HS Hreg.
  destruct (wi_registered w Hw _ _ Hreg) as [a Ha].
  rewrite (World_Unregister_registered id S w _ a Hreg Ha).
  - unfold unregistered. do 2 f_equal. apply map_eq. intros m'.
    rewrite lookup_alter, lookup_insert. case_decide; [by rewrite Ha | done].
  - intros c Hc. by apply (table_columns_shape w S a c).
Qed.

Lemma Entity_Set_cell_updated e c v w m a col :
  s_entity_archetype_map w !! m_id e = Some m ->
  s_component_archetype_map w !! m = Some a ->
  a !! c = Some col ->
  Entity_Set e c v w = Some (cell_updated m c (m_id e) v w).
Proof.
  intros Hreg Ha Hc. rewrite (Entity_Set_registered e c v w m a col) by done.
  unfold cell_updated. do 2 f_equal. apply map_eq. intros m'.
  rewrite lookup_alter, lookup_insert. case_decide; [|done].
  rewrite Ha. simpl. f_equal. apply map_eq. intros c'.
  rewrite lookup_alter, lookup_insert. case_decide; [by rewrite Hc | done].
Qed.

End WorldInv.

Section WorldInvPreserved.
Context {V : Type} `{!ValueInit V}.
Implicit Types (a : Archetype V) (col : gmap Z V) (c id m : Z) (v : V)
  (S : Shape V) (w : World V) (e : Entity V).

Lemma world_inv_AllocateID w : world_inv w -> world_inv (World_AllocateID w).2.
Proof. intros [? ? ? ? ?]. by split. Qed.

(** Changing one table in place, every column's key set by the same
    shrinking map [g], keeps the world invariant. *)
Lemma world_inv_alter_table (f : Archetype V → Archetype V) (g : gset Z → gset Z) m w :
  world_inv w ->
  (∀ a c, s_component_archetype_map w !! m = Some a -> is_Some (f a !! c) ↔ is_Some (a !! c)) ->
  (∀ a c col col', s_component_archetype_map w !! m = Some a ->
     a !! c = Some col -> f a !! c = Some col' -> dom col' = g (dom col)) ->
  (∀ D, g D ⊆ D) ->
  world_inv (mkWorld (s_next_entity_id w) (s_component_trie w)
               (alter f m (s_component_archetype_map w)) (s_entity_archetype_map w)).
Proof.
  intros Hw Hcols Hdom Hg. split; simpl.
  - rewrite dom_alter_L. apply Hw.
  - intros id m' Hreg. rewrite lookup_alter. case_decide as Hm.
    + subst m'. apply fmap_is_Some. by apply (wi_registered w Hw id).
    + by apply (wi_registered w Hw id).
  - intros m' a'. rewrite lookup_alter. case_decide as Hm.
    + subst m'. destruct (s_component_archetype_map w !! m) as [a|] eqn:Ha; [|done].
      simpl. intros [= <-].
      destruct (wi_columns w Hw _ _ Ha) as (cs & Hcs & Hmask & Hiff).
      exists cs. split_and!; [done..|]. intros c. by rewrite (Hcols a c eq_refl).
    + apply (wi_columns w Hw).
  - intros m' a' c1 c2 col1 col2. rewrite lookup_alter. case_decide as Hm.
    + subst m'. destruct (s_component_archetype_map w !! m) as [a|] eqn:Ha; [|done].
      simpl. intros [= <-] H1 H2.
      destruct (proj1 (Hcols a c1 eq_refl) ltac:(eauto)) as [o1 Ho1].
      destruct (proj1 (Hcols a c2 eq_refl) ltac:(eauto)) as [o2 Ho2].
      rewrite (Hdom a c1 o1 col1 eq_refl Ho1 H1), (Hdom a c2 o2 col2 eq_refl Ho2 H2).
      f_equal. by apply (wi_lockstep w Hw m a c1 c2).
    + apply (wi_lockstep w Hw).
  - intros m' a' c col id. rewrite lookup_alter. case_decide as Hm.
    + subst m'. destruct (s_component_archetype_map w !! m) as [a|] eqn:Ha; [|done].
      simpl. intros [= <-] H1 Hid.
      destruct (proj1 (Hcols a c eq_refl) ltac:(eauto)) as [o1 Ho1].
      rewrite (Hdom a c o1 col eq_refl Ho1 H1) in Hid.
      apply (wi_owner w Hw m a c o1); [done..|]. by apply Hg.
    + apply (wi_owner w Hw).
Qed.

Lemma world_inv_unregistered S id w :
  world_inv w -> shape_ok S ->
  world_inv (unregistered S id (ecs_component_mask (shape_components S)) w).
Proof.
  intros Hw HS. unfold unregistered.
  apply (world_inv_alter_table _ (λ D, D ∖ {[ id ]})); [done|..].
  - intros a c _. rewrite lookup_rows_erase. apply fmap_is_Some.
  - intros a c col col' Ha Hc. rewrite lookup_rows_erase, Hc. simpl.
    rewrite bool_decide_eq_true_2.
    + intros [= <-]. by rewrite dom_delete_L.
    + apply (table_columns_shape w S a c); eauto.
  - set_solver.
Qed.

Lemma world_inv_cell_updated m c id v w :
  world_inv w ->
  (∀ a col, s_component_archetype_map w !! m = Some a -> a !! c = Some col -> id ∈ dom col) ->
  world_inv (cell_updated m c id v w).
Proof.
  intros Hw Hrow. unfold cell_updated.
  apply (world_inv_alter_table _ (λ D, D)); [done|..].
  - intros a c' _. rewrite lookup_alter. case_decide; [|done].
    subst. apply fmap_is_Some.
  - intros a c' col col' Ha Hc'. rewrite lookup_alter. case_decide as Hcc.
    + subst c'. rewrite Hc'. simpl. intros [= <-].
      rewrite dom_insert_L. specialize (Hrow a col Ha Hc'). set_solver.
    + rewrite Hc'. by intros [= <-].
  - done.
Qed.

Lemma lookup_registered_table S id w c :
  world_inv w -> shape_ok S ->
  let a0 := default (Archetype_new (shape_components S))
              (s_component_archetype_map w !! ecs_component_mask (shape_components S)) in
  rows_insert (cell_default S) (shape_components S) id a0 !! c
  = <[id := cell_default S c]> <$> a0 !! c.
Proof.
  intros Hw HS a0. rewrite lookup_rows_insert.
  destruct (a0 !! c) as [col|] eqn:Hc; [|done]. simpl.
  rewrite bool_decide_eq_true_2; [done|].
  apply (target_table_columns w S c Hw HS). fold a0. by rewrite Hc.
Qed.

Lemma world_inv_registered S id w :
  world_inv w -> shape_ok S ->
  s_entity_archetype_map w !! id = None ->
  world_inv (registered S id w).
Proof.
  intros Hw HS Hfresh. unfold registered.
  set (m := ecs_component_mask (shape_components S)).
  set (a0 := default (Archetype_new (shape_components S)) (s_component_archetype_map w !! m)).
  set (a' := rows_insert (cell_default S) (shape_components S) id a0).
  assert (Ha' : ∀ c, a' !! c = <[id := cell_default S c]> <$> a0 !! c).
  { intros c. by apply lookup_registered_table. }
  assert (Hlock : ∀ c1 c2 col1 col2,
    a0 !! c1 = Some col1 -> a0 !! c2 = Some col2 -> dom col1 = dom col2).
  { subst a0. destruct (s_component_archetype_map w !! m) as [a|] eqn:Ha; simpl.
    - intros c1 c2 col1 col2. by apply (wi_lockstep w Hw m a).
    - intros c1 c2 col1 col2. rewrite !lookup_Archetype_new.
      do 2 case_bool_decide; naive_solver. }
  assert (Hown : ∀ c col id', a0 !! c = Some col -> id' ∈ dom col ->
    s_entity_archetype_map w !! id' = Some m).
  { subst a0. destruct (s_component_archetype_map w !! m) as [a|] eqn:Ha; simpl.
    - intros c col id'. by apply (wi_owner w Hw m a).
    - intros c col id'. rewrite lookup_Archetype_new.
      case_bool_decide; [|done]. intros [= <-]. set_solver. }
  split; simpl.
  - rewrite dom_insert_L. by rewrite (wi_trie w Hw).
  - intros id' m'. rewrite lookup_insert. case_decide.
    + intros [= <-]. rewrite lookup_insert_eq. eauto.
    + intros Hreg. rewrite lookup_insert. case_decide; [eauto|].
      by apply (wi_registered w Hw id').
  - intros m' a''. rewrite lookup_insert. case_decide as Hm.
    + intros [= <-]. subst m'. exists (shape_components S).
      split_and!; [apply HS | done |]. intros c. rewrite Ha', fmap_is_Some.
      by apply target_table_columns.
    + apply (wi_columns w Hw).
  - intros m' a'' c1 c2 col1 col2. rewrite lookup_insert. case_decide as Hm.
    + intros [= <-]. rewrite !Ha'.
      destruct (a0 !! c1) as [o1|] eqn:H1; [|done].
      destruct (a0 !! c2) as [o2|] eqn:H2; [|done].
      simpl. intros [= <-] [= <-]. rewrite !dom_insert_L.
      f_equal. by apply (Hlock c1 c2).
    + apply (wi_lockstep w Hw).
  - intros m' a'' c col id'. rewrite lookup_insert. case_decide as Hm.
    + intros [= <-]. subst m'. rewrite Ha'.
      destruct (a0 !! c) as [o|] eqn:H1; [|done].
      simpl. intros [= <-]. rewrite dom_insert_L, elem_of_union, elem_of_singleton.
      intros [->|Hid']; [by rewrite lookup_insert_eq|].
      pose proof (Hown c o id' H1 Hid') as Hreg.
      rewrite lookup_insert_ne; [done|]. intros <-. congruence.
    + intros Ha'' Hc Hid'.
      pose proof (wi_owner w Hw m' a'' c col id' Ha'' Hc Hid') as Hreg.
      rewrite lookup_insert_ne; [done|]. intros <-. congruence.
Qed.

End WorldInvPreserved.

(** ** Reachable states *)

Section SysInv.
Context {V : Type} `{!ValueInit V}.
Implicit Types (a : Archetype V) (col : gmap Z V) (c id m : Z) (v : V)
  (S : Shape V) (w : World V) (e : Entity V) (s : System V).

Lemma NoDup_fmap_filter {A B : Type} (f : A → B) (P : A → Prop)
    `{∀ x, Decision (P x)} (l : list A) :
  NoDup (f <$> l) -> NoDup (f <$> filter P l).
Proof.
  induction l as [|x l IH]; [done|].
  rewrite fmap_cons, NoDup_cons. intros [Hx Hl].
  rewrite filter_cons. case_decide; [|by apply IH].
  rewrite fmap_cons, NoDup_cons. split; [|by apply IH].
  intros (y & Hy & Hin)%list_elem_of_fmap. apply Hx.
  apply list_elem_of_filter in Hin as [_ Hin].
  rewrite Hy. by apply list_elem_of_fmap_2.
Qed.

Lemma sys_inv_init : sys_inv (System_init (V := V)).
Proof.
  split; simpl.
  - apply world_inv_init.
  - done.
  - intros id [? Hid]. by rewrite lookup_empty in Hid.
  - by intros id ?%elem_of_nil.
  - constructor.
  - by intros e ?%elem_of_nil.
  - intros m a id Hm. by rewrite lookup_empty in Hm.
Qed.

(** A live entity has its table, and a cell in each of its columns. *)
Lemma live_entity_table w e :
  world_inv w -> entity_inv w e ->
  ∃ a, s_component_archetype_map w
         !! ecs_component_mask (shape_components (derived_type e)) = Some a.
Proof. intros Hw He. apply (wi_registered w Hw (m_id e)). apply He. Qed.

Lemma live_entity_cell w e a c :
  world_inv w -> entity_inv w e ->
  s_component_archetype_map w
    !! ecs_component_mask (shape_components (derived_type e)) = Some a ->
  has_component (derived_type e) c ->
  ∃ col v, a !! c = Some col ∧ col !! m_id e = Some v.
Proof.
  intros Hw He Ha Hc.
  destruct (proj2 (table_columns_shape w _ a c Hw (ei_shape w e He) Ha) Hc) as [col Hcol].
  pose proof (ei_row w e He a c col Ha Hcol) as [v Hv]%elem_of_dom.
  eauto.
Qed.

Lemma Entity_Get_live w e c :
  world_inv w -> entity_inv w e -> has_component (derived_type e) c ->
  ∃ v, Entity_Get e c w = Some (v, w).
Proof.
  intros Hw He Hc.
  destruct (live_entity_table w e Hw He) as [a Ha].
  destruct (live_entity_cell w e a c Hw He Ha Hc) as (col & v & Hcol & Hv).
  exists v. eapply Entity_Get_registered; eauto. apply He.
Qed.

Lemma Entity_Set_live w e c v :
  world_inv w -> entity_inv w e -> has_component (derived_type e) c ->
  Entity_Set e c v w
  = Some (cell_updated (ecs_component_mask (shape_components (derived_type e))) c (m_id e) v w).
Proof.
  intros Hw He Hc.
  destruct (live_entity_table w e Hw He) as [a Ha].
  destruct (live_entity_cell w e a c Hw He Ha Hc) as (col & v' & Hcol & Hv).
  eapply Entity_Set_cell_updated; eauto. apply He.
Qed.

Lemma Entity_dtor_live w e :
  world_inv w -> entity_inv w e ->
  Entity_dtor e w
  = Some (unregistered (derived_type e) (m_id e)
            (ecs_component_mask (shape_components (derived_type e))) w).
Proof.
  intros Hw He. unfold Entity_dtor.
  apply World_Unregister_unregistered; [done | apply He | apply He].
Qed.

Lemma entity_inv_AllocateID w e : entity_inv w e -> entity_inv (World_AllocateID w).2 e.
Proof. intros [? ? ?]. by split. Qed.

Lemma entity_inv_registered_new S id w :
  world_inv w -> shape_ok S ->
  entity_inv (registered S id w) (mkEntity id S).
Proof.
  intros Hw HS. split; simpl; [done | by rewrite lookup_insert_eq |].
  intros a c col. rewrite lookup_insert_eq. intros [= <-].
  rewrite lookup_registered_table by done.
  destruct (_ !! c) as [col0|]; [|done]. simpl. intros [= <-].
  rewrite dom_insert_L. set_solver.
Qed.

Lemma entity_inv_registered_old S id w e :
  world_inv w -> shape_ok S -> m_id e ≠ id ->
  entity_inv w e -> entity_inv (registered S id w) e.
Proof.
  intros Hw HS Hne He. split; simpl.
  - apply He.
  - rewrite lookup_insert_ne by done. apply He.
  - intros a c col. rewrite lookup_insert. case_decide as Hm.
    + intros [= <-]. rewrite lookup_registered_table by done.
      destruct (live_entity_table w e Hw He) as [a Ha].
      rewrite Hm, Ha. simpl.
      destruct (a !! c) as [col0|] eqn:Hc; [|done]. simpl. intros [= <-].
      rewrite dom_insert_L. apply elem_of_union_r. by apply (ei_row w e He a c).
    + apply He.
Qed.

Lemma entity_inv_cell_updated m c id v w e :
  entity_inv w e -> entity_inv (cell_updated m c id v w) e.
Proof.
  intros He. split; simpl; [apply He | apply He|].
  intros a' c' col'. rewrite lookup_alter. case_decide as Hm; [|apply He].
  destruct (s_component_archetype_map w !! m) as [a|] eqn:Ha; [|done].
  simpl. intros [= <-]. rewrite lookup_alter. case_decide as Hc.
  - destruct (a !! c) as [col|] eqn:Hcol; [|done]. simpl. intros [= <-].
    rewrite dom_insert_L. apply elem_of_union_r.
    apply (ei_row w e He a c); [by rewrite <- Hm | done].
  - apply (ei_row w e He a). by rewrite <- Hm.
Qed.

Lemma entity_inv_unregistered S id m w e :
  m_id e ≠ id -> entity_inv w e -> entity_inv (unregistered S id m w) e.
Proof.
  intros Hne He. split; simpl; [apply He | apply He|].
  intros a' c' col'. rewrite lookup_alter. case_decide as Hm; [|apply He].
  destruct (s_component_archetype_map w !! m) as [a|] eqn:Ha; [|done].
  simpl. intros [= <-]. rewrite lookup_rows_erase.
  destruct (a !! c') as [col|] eqn:Hcol; [|done]. simpl. intros [= <-].
  assert (m_id e ∈ dom col) as Hin.
  { apply (ei_row w e He a c'); [by rewrite <- Hm | done]. }
  case_bool_decide; [|done]. rewrite dom_delete_L. set_solver.
Qed.

End SysInv.

Section Reachable.
Context {V : Type} `{!ValueInit V}.
Implicit Types (a : Archetype V) (col : gmap Z V) (c id m : Z) (v : V)
  (S : Shape V) (w : World V) (e : Entity V) (s : System V).

Lemma sys_step_issued s s' :
  sys_step s s' -> (length (sys_issued s) <= length (sys_issued s'))%nat.
Proof. destruct 1; simpl; lia. Qed.

Lemma wrap_u64_small z : 0 <= z < 2 ^ 64 -> wrap_u64 z = z.
Proof. intros Hz. unfold wrap_u64. by rewrite Z.mod_small. Qed.

(** The id the next constructor takes is not registered. *)
Lemma sys_inv_fresh s :
  sys_inv s -> s_entity_archetype_map (sys_world s) !! s_next_entity_id (sys_world s) = None.
Proof.
  intros Hs. destruct (_ !! _) as [m|] eqn:Hm; [|done].
  pose proof (si_fresh s Hs _ (mk_is_Some _ _ Hm)). lia.
Qed.

Lemma sys_inv_AllocateID s :
  sys_inv s -> Z.of_nat (length (sys_issued s)) + 1 < 2 ^ 64 ->
  sys_inv (mkSystem (World_AllocateID (sys_world s)).2 (sys_live s)
             (s_next_entity_id (sys_world s) :: sys_issued s)).
Proof.
  intros Hs Hlen. pose proof (si_next s Hs) as Hnext.
  assert (Hn : wrap_u64 (s_next_entity_id (sys_world s) + 1)
               = s_next_entity_id (sys_world s) + 1).
  { apply wrap_u64_small. lia. }
  split; simpl.
  - apply world_inv_AllocateID, Hs.
  - rewrite Hn. lia.
  - intros id Hid. rewrite Hn. pose proof (si_fresh s Hs id Hid). lia.
  - intros id. rewrite Hn, elem_of_cons. intros [->|Hid]; [lia|].
    pose proof (si_issued s Hs id Hid). lia.
  - apply Hs.
  - intros e He. apply entity_inv_AllocateID. by apply Hs.
  - apply Hs.
Qed.

Lemma sys_inv_ctor s S :
  sys_inv s -> shape_ok S -> Z.of_nat (length (sys_issued s)) + 1 < 2 ^ 64 ->
  let id := s_next_entity_id (sys_world s) in
  sys_inv (mkSystem (registered S id (World_AllocateID (sys_world s)).2)
             (mkEntity id S :: sys_live s) (id :: sys_issued s)).
Proof.
  intros Hs HS Hlen id.
  pose proof (sys_inv_AllocateID s Hs Hlen) as Hs1.
  pose proof (sys_inv_fresh s Hs) as Hfresh. fold id in Hfresh.
  set (w1 := (World_AllocateID (sys_world s)).2) in *.
  assert (Hw1 : world_inv w1) by apply Hs1.
  assert (Hfresh1 : s_entity_archetype_map w1 !! id = None) by done.
  assert (Hold : ∀ e, e ∈ sys_live s -> m_id e ≠ id).
  { intros e He Heq. pose proof (ei_registered _ _ (si_live _ Hs1 e He)) as Hreg.
    simpl in Hreg. rewrite Heq in Hreg. unfold w1 in Hfresh1. simpl in Hfresh1. congruence. }
  split; simpl.
  - by apply world_inv_registered.
  - apply (si_next _ Hs1).
  - intros id'. rewrite lookup_insert. case_decide as Hid.
    + intros _. subst id'. apply (si_issued _ Hs1). by left.
    + apply (si_fresh _ Hs1).
  - apply (si_issued _ Hs1).
  - rewrite NoDup_cons. split; [|apply Hs].
    intros (e & Heq & He)%list_elem_of_fmap. by apply (Hold e).
  - intros e [->|He]%elem_of_cons.
    + apply (entity_inv_registered_new S id w1 Hw1 HS).
    + apply (entity_inv_registered_old S id w1 e Hw1 HS (Hold e He)).
      apply (si_live _ Hs1 e He).
  - intros m a id'. rewrite lookup_insert. case_decide as Hm.
    + intros [= <-] (c & col & Hc & Hid').
      rewrite (lookup_registered_table S id w1 c Hw1 HS) in Hc.
      destruct (default _ _ !! c) as [col0|] eqn:Hc0; [|done].
      simpl in Hc. injection Hc as <-.
      rewrite dom_insert_L, elem_of_union, elem_of_singleton in Hid'.
      destruct Hid' as [->|Hid'].
      * exists (mkEntity id S). split; [by left | done].
      * destruct (s_component_archetype_map w1 !! _) as [a|] eqn:Ha; simpl in Hc0.
        -- destruct (si_rows _ Hs1 _ a id' Ha) as (e & He & Heq).
           { by exists c, col0. }
           exists e. split; [by right | done].
        -- rewrite lookup_Archetype_new in Hc0. case_bool_decide; [|done].
           injection Hc0 as <-. set_solver.
    + intros Ha Hrow. destruct (si_rows _ Hs1 m a id' Ha Hrow) as (e & He & Heq).
      exists e. split; [by right | done].
Qed.

Lemma sys_inv_Set s e c v :
  sys_inv s -> e ∈ sys_live s -> has_component (derived_type e) c ->
  sys_inv (mkSystem
             (cell_updated (ecs_component_mask (shape_components (derived_type e)))
                c (m_id e) v (sys_world s))
             (sys_live s) (sys_issued s)).
Proof.
  intros Hs He Hc. pose proof (si_live s Hs e He) as Hei.
  split; simpl.
  - apply world_inv_cell_updated; [apply Hs|]. intros a col. apply Hei.
  - apply Hs.
  - apply Hs.
  - apply Hs.
  - apply Hs.
  - intros e' He'. apply entity_inv_cell_updated. by apply Hs.
  - intros m a' id. rewrite lookup_alter. case_decide as Hm; [|apply Hs].
    destruct (s_component_archetype_map (sys_world s) !! _) as [a|] eqn:Ha; [|done].
    simpl. intros [= <-] (c' & col' & Hc' & Hid).
    rewrite lookup_alter in Hc'. case_decide as Hcc.
    + destruct (a !! c) as [col|] eqn:Hcol; [|done]. simpl in Hc'. injection Hc' as <-.
      rewrite dom_insert_L, elem_of_union, elem_of_singleton in Hid.
      destruct Hid as [->|Hid]; [by exists e|].
      apply (si_rows s Hs _ a id Ha). by exists c, col.
    + apply (si_rows s Hs _ a id Ha). by exists c', col'.
Qed.

Lemma sys_inv_dtor s e :
  sys_inv s -> e ∈ sys_live s ->
  sys_inv (mkSystem
             (unregistered (derived_type e) (m_id e)
                (ecs_component_mask (shape_components (derived_type e))) (sys_world s))
             (filter (λ e', m_id e' ≠ m_id e) (sys_live s)) (sys_issued s)).
Proof.
  intros Hs He. pose proof (si_live s Hs e He) as Hei.
  pose proof (si_world s Hs) as Hw.
  split; simpl.
  - apply world_inv_unregistered; [done | apply Hei].
  - apply Hs.
  - apply Hs.
  - apply Hs.
  - apply NoDup_fmap_filter, Hs.
  - intros e' [Hne He']%list_elem_of_filter.
    apply entity_inv_unregistered; [done | by apply Hs].
  - intros m a' id. rewrite lookup_alter. case_decide as Hm.
    + destruct (s_component_archetype_map (sys_world s) !! _) as [a|] eqn:Ha; [|done].
      simpl. intros [= <-] (c & col' & Hc & Hid).
      rewrite lookup_rows_erase in Hc.
      destruct (a !! c) as [col|] eqn:Hcol; [|done]. simpl in Hc. injection Hc as <-.
      rewrite bool_decide_eq_true_2 in Hid.
      2:{ apply (table_columns_shape (sys_world s) _ a c Hw (ei_shape _ _ Hei) Ha). eauto. }
      rewrite dom_delete_L in Hid. apply elem_of_difference in Hid as [Hid Hne].
      destruct (si_rows s Hs _ a id Ha) as (e' & He' & Heq); [by exists c, col|].
      exists e'. split; [|done]. apply list_elem_of_filter. split; [|done].
      rewrite Heq. set_solver.
    + intros Ha (c & col & Hc & Hid).
      destruct (si_rows s Hs m a' id Ha) as (e' & He' & Heq); [by exists c, col|].
      exists e'. split; [|done]. apply list_elem_of_filter. split; [|done].
      rewrite Heq. intros ->.
      pose proof (wi_owner _ Hw m a' c col _ Ha Hc Hid) as Hreg.
      rewrite (ei_registered _ _ Hei) in Hreg. congruence.
Qed.

(** Every step before the wrap of the counter keeps the invariant. *)
Lemma sys_inv_step s s' :
  sys_step s s' -> before_wrap s' -> sys_inv s -> sys_inv s'.
Proof.
  unfold before_wrap.
  destruct 1 as [s id w' Hal | s S e w' HS Hctor | s e c v w' He Hc Hget
                | s e c v w' He Hc Hset | s e c b w' He Hc Hhas | s e w' He Hd];
    simpl; intros Hlen Hs.
  - unfold World_AllocateID in Hal. injection Hal as <- <-.
    apply (sys_inv_AllocateID s Hs). lia.
  - rewrite (Entity_ctor_registered S _ (si_world s Hs) HS (sys_inv_fresh s Hs)) in Hctor.
    injection Hctor as <- <-. apply (sys_inv_ctor s S Hs HS). lia.
  - destruct (Entity_Get_live _ e c (si_world s Hs) (si_live s Hs e He) Hc) as [v' Hv'].
    rewrite Hv' in Hget. injection Hget as <- <-. by destruct s.
  - rewrite (Entity_Set_live _ e c v (si_world s Hs) (si_live s Hs e He) Hc) in Hset.
    injection Hset as <-. by apply sys_inv_Set.
  - rewrite (Entity_HasComponent_registered e c _ _
              (ei_registered _ _ (si_live s Hs e He))) in Hhas.
    injection Hhas as <- <-. by destruct s.
  - rewrite (Entity_dtor_live _ e (si_world s Hs) (si_live s Hs e He)) in Hd.
    injection Hd as <-. by apply sys_inv_dtor.
Qed.

Lemma reachable_sys_inv s : reachable s -> before_wrap s -> sys_inv s.
Proof.
  induction 1 as [|s s' Hr IH Hstep]; intros Hb.
  - apply sys_inv_init.
  - apply (sys_inv_step s s' Hstep Hb). apply IH.
    unfold before_wrap in *. pose proof (sys_step_issued s s' Hstep). lia.
Qed.

End Reachable.

(** ** The index and the store, in every reachable state *)

Section IndexInv.
Context {V : Type} `{!ValueInit V}.
Implicit Types (a : Archetype V) (col : gmap Z V) (c id m : Z) (v : V)
  (S : Shape V) (w : World V) (e : Entity V) (s : System V).

Lemma fhm_insert_lookup_Some {K A : Type} `{Countable K} (k k' : K) (x y : A) (mp : gmap K A) :
  fhm_insert k x mp !! k' = Some y -> mp !! k' = Some y ∨ (k' = k ∧ y = x).
Proof.
  unfold fhm_insert. destruct (mp !! k) eqn:Hk0; try (by left).
  all: rewrite lookup_insert; case_decide as Hk; [|by left].
  all: intros [= <-]; by right.
Qed.

Lemma fhm_insert_preserves {K A : Type} `{Countable K} (k k' : K) (x : A) (mp : gmap K A) :
  is_Some (mp !! k') -> is_Some (fhm_insert k x mp !! k').
Proof.
  unfold fhm_insert. destruct (mp !! k) eqn:Hk; try done.
  all: rewrite lookup_insert; case_decide; [eauto | done].
Qed.

(** What [Register] does to the index, the keys of the store and the
    registry, whenever it returns. *)
Lemma World_Register_index id S m w w' :
  World_Register id S m w = Some w' ->
  s_component_trie w'
  = match s_component_archetype_map w !! m with
    | Some _ => s_component_trie w
    | None => {[ m ]} ∪ s_component_trie w
    end
  ∧ dom (s_component_archetype_map w') = {[ m ]} ∪ dom (s_component_archetype_map w)
  ∧ s_entity_archetype_map w' = fhm_insert id m (s_entity_archetype_map w).
Proof.
  unfold World_Register.
  destruct (s_component_archetype_map w !! m) as [a|] eqn:Ha; simpl.
  - rewrite (fhm_subscript_present _ _ _ _ Ha).
    destruct (add_row S id a) as [a'|]; [|done]. simpl. intros [= <-]. simpl.
    by rewrite dom_insert_L.
  - rewrite (fhm_insert_fresh _ _ _ Ha).
    rewrite (fhm_subscript_present _ _ _ (Archetype_new (shape_components S)))
      by apply lookup_insert_eq.
    destruct (add_row S id _) as [a'|]; [|done]. simpl. intros [= <-]. simpl.
    rewrite !dom_insert_L. split_and!; [done | set_solver | done].
Qed.

(** An operation on a registered entity changes one table in place. *)
Lemma Entity_Get_index e c w v w' m :
  s_entity_archetype_map w !! m_id e = Some m ->
  is_Some (s_component_archetype_map w !! m) ->
  Entity_Get e c w = Some (v, w') ->
  s_component_trie w' = s_component_trie w
  ∧ dom (s_component_archetype_map w') = dom (s_component_archetype_map w)
  ∧ s_entity_archetype_map w' = s_entity_archetype_map w.
Proof.
  intros Hreg [a Ha]. unfold Entity_Get.
  rewrite (fhm_subscript_present _ _ _ _ Hreg), (fhm_subscript_present _ _ _ _ Ha).
  destruct (TypeErasedArchetype_Get c (m_id e) a) as [[v' a']|]; [|done].
  simpl. intros [= <- <-]. simpl. rewrite dom_insert_L.
  apply elem_of_dom_2 in Ha. split_and!; [done | set_solver | done].
Qed.

Lemma Entity_Set_index e c v w w' m :
  s_entity_archetype_map w !! m_id e = Some m ->
  is_Some (s_component_archetype_map w !! m) ->
  Entity_Set e c v w = Some w' ->
  s_component_trie w' = s_component_trie w
  ∧ dom (s_component_archetype_map w') = dom (s_component_archetype_map w)
  ∧ s_entity_archetype_map w' = s_entity_archetype_map w.
Proof.
  intros Hreg [a Ha]. unfold Entity_Set.
  rewrite (fhm_subscript_present _ _ _ _ Hreg), (fhm_subscript_present _ _ _ _ Ha).
  destruct (TypeErasedArchetype_Set c (m_id e) v a) as [a'|]; [|done].
  simpl. intros [= <-]. simpl. rewrite dom_insert_L.
  apply elem_of_dom_2 in Ha. split_and!; [done | set_solver | done].
Qed.

Lemma Entity_dtor_index e w w' m :
  s_entity_archetype_map w !! m_id e = Some m ->
  is_Some (s_component_archetype_map w !! m) ->
  Entity_dtor e w = Some w' ->
  s_component_trie w' = s_component_trie w
  ∧ dom (s_component_archetype_map w') = dom (s_component_archetype_map w)
  ∧ s_entity_archetype_map w' = s_entity_archetype_map w.
Proof.
  intros Hreg [a Ha]. unfold Entity_dtor, World_Unregister.
  rewrite (fhm_subscript_present _ _ _ _ Hreg), (fhm_subscript_present _ _ _ _ Ha).
  destruct (drop_row _ (m_id e) a) as [a'|]; [|done].
  simpl. intros [= <-]. simpl. rewrite dom_insert_L.
  apply elem_of_dom_2 in Ha. split_and!; [done | set_solver | done].
Qed.

Lemma index_inv_same s w' (live' : list (Entity V)) issued' :
  index_inv s ->
  s_component_trie w' = s_component_trie (sys_world s)
  ∧ dom (s_component_archetype_map w') = dom (s_component_archetype_map (sys_world s))
  ∧ s_entity_archetype_map w' = s_entity_archetype_map (sys_world s) ->
  (∀ e, e ∈ live' -> e ∈ sys_live s) ->
  index_inv (mkSystem w' live' issued').
Proof.
  intros Hs (Ht & Hd & Hr) Hl. split; simpl.
  - rewrite Ht, Hd. apply Hs.
  - intros id m. rewrite Hr. intros Hreg.
    apply elem_of_dom. rewrite Hd. apply elem_of_dom. by apply (ii_registered s Hs id).
  - intros e He. rewrite Hr. by apply Hs, Hl.
Qed.

Lemma index_inv_init : index_inv (System_init (V := V)).
Proof.
  split; simpl.
  - by rewrite dom_empty_L.
  - intros id m Hm. by rewrite lookup_empty in Hm.
  - by intros e ?%elem_of_nil.
Qed.

Lemma index_inv_step s s' : sys_step s s' -> index_inv s -> index_inv s'.
Proof.
  destruct 1 as [s id w' Hal | s S e w' HS Hctor | s e c v w' He Hc Hget
                | s e c v w' He Hc Hset | s e c b w' He Hc Hhas | s e w' He Hd];
    intros Hs.
  - unfold World_AllocateID in Hal. injection Hal as <- <-.
    apply (index_inv_same s); [done | by simpl | done].
  - unfold Entity_ctor in Hctor. simpl in Hctor.
    destruct (World_Register _ S _ _) as [w2|] eqn:Hreg; [|done].
    simpl in Hctor. injection Hctor as <- <-.
    apply World_Register_index in Hreg as (Ht & Hd & Hr). simpl in Ht, Hd, Hr.
    split; simpl.
    + rewrite Ht, Hd. destruct (s_component_archetype_map (sys_world s) !! _) eqn:Ha.
      * apply elem_of_dom_2 in Ha. rewrite (ii_trie s Hs). set_solver.
      * by rewrite (ii_trie s Hs).
    + intros id m. rewrite Hr. intros [Hold | [-> ->]]%fhm_insert_lookup_Some.
      * apply elem_of_dom. rewrite Hd. apply elem_of_union_r, elem_of_dom.
        by apply (ii_registered s Hs id).
      * apply elem_of_dom. rewrite Hd. set_solver.
    + intros e. rewrite Hr. intros [->|He]%elem_of_cons; simpl.
      * apply fhm_insert_is_Some.
      * apply fhm_insert_preserves. by apply Hs.
  - destruct (ii_live s Hs e He) as [m Hm].
    apply (index_inv_same s); [done | | done].
    apply (Entity_Get_index e c _ v w' m Hm); [|done]. by apply (ii_registered s Hs (m_id e)).
  - destruct (ii_live s Hs e He) as [m Hm].
    apply (index_inv_same s); [done | | done].
    apply (Entity_Set_index e c v _ w' m Hm); [|done]. by apply (ii_registered s Hs (m_id e)).
  - destruct (ii_live s Hs e He) as [m Hm].
    rewrite (Entity_HasComponent_registered e c _ m Hm) in Hhas. injection Hhas as <- <-.
    by destruct s.
  - destruct (ii_live s Hs e He) as [m Hm].
    apply (index_inv_same s); [done | | ].
    + apply (Entity_dtor_index e _ w' m Hm); [|done]. by apply (ii_registered s Hs (m_id e)).
    + by intros e' [_ ?]%list_elem_of_filter.
Qed.

Lemma reachable_index_inv s : reachable s -> index_inv s.
Proof.
  induction 1 as [|s s' _ IH Hstep]; [apply index_inv_init|].
  by apply (index_inv_step s s').
Qed.

(** C3: in every reachable state, after any sequence of entity
    constructions, [Get], [Set] and [HasComponent] calls and
    destructions, the bitmasks held by the archetype index are exactly
    the keys of the archetype store. *)
Theorem index_matches_store_keys s :
  reachable s ->
  s_component_trie (sys_world s) = dom (s_component_archetype_map (sys_world s)).
Proof. intros Hr. apply (ii_trie s). by apply reachable_index_inv. Qed.

End IndexInv.

(** ** Cells *)

Section Claims.
Context {V : Type} `{!ValueInit V}.
Implicit Types (a : Archetype V) (col : gmap Z V) (c id m : Z) (v : V)
  (S : Shape V) (w : World V) (e : Entity V) (s : System V).

Lemma cell_cell_updated_eq m c id v w a col :
  s_component_archetype_map w !! m = Some a -> a !! c = Some col ->
  cell (cell_updated m c id v w) m c id = Some v.
Proof.
  intros Ha Hc. unfold cell, cell_updated. simpl.
  rewrite lookup_alter_eq, Ha. simpl. rewrite lookup_alter_eq, Hc. simpl.
  apply lookup_insert_eq.
Qed.

Lemma cell_cell_updated_ne m c id v w m' c' id' :
  (m', c', id') ≠ (m, c, id) ->
  cell (cell_updated m c id v w) m' c' id' = cell w m' c' id'.
Proof.
  intros Hne. unfold cell, cell_updated. simpl.
  rewrite lookup_alter. case_decide as Hm; [|done]. subst m'.
  destruct (s_component_archetype_map w !! m) as [a|]; [|done]. simpl.
  rewrite lookup_alter. case_decide as Hc; [|done]. subst c'.
  destruct (a !! c) as [col|]; [|done]. simpl.
  rewrite lookup_insert_ne; [done|]. congruence.
Qed.



Lemma cell_unregistered_ne S id m w m' c' id' :
  id' ≠ id -> cell (unregistered S id m w) m' c' id' = cell w m' c' id'.
Proof.
  intros Hne. unfold cell, unregistered. simpl.
  rewrite lookup_alter. case_decide as Hm; [|done]. subst m'.
  destruct (s_component_archetype_map w !! m) as [a|]; [|done]. simpl.
  rewrite lookup_rows_erase. destruct (a !! c') as [col|]; [|done]. simpl.
  case_bool_decide; [|done]. by rewrite lookup_delete_ne.
Qed.




End Claims.

(** ** Programs that move entity objects *)

Section Programs.
Context {V : Type} `{!ValueInit V}.
Implicit Types (a : Archetype V) (col : gmap Z V) (c id m : Z) (v : V)
  (S : Shape V) (w : World V) (e : Entity V) (s : System V).

Lemma World_Register_next id S m w w' :
  World_Register id S m w = Some w' -> s_next_entity_id w' = s_next_entity_id w.
Proof.
  unfold World_Register.
  destruct (fhm_subscript _ _ _) as [arch store].
  destruct (add_row S id arch) as [arch'|]; [|done]. simpl. intros [= <-]. simpl.
  by destruct (s_component_archetype_map w !! m).
Qed.

Lemma Entity_ctor_next S w e w' :
  Entity_ctor S w = Some (e, w') ->
  m_id e = s_next_entity_id w
  ∧ s_next_entity_id w' = wrap_u64 (s_next_entity_id w + 1).
Proof.
  unfold Entity_ctor. simpl.
  destruct (World_Register _ S _ _) as [w2|] eqn:Hreg; [|done].
  simpl. intros [= <- <-]. apply World_Register_next in Hreg. done.
Qed.

Lemma Entity_Get_next e c w v w' :
  Entity_Get e c w = Some (v, w') -> s_next_entity_id w' = s_next_entity_id w.
Proof.
  unfold Entity_Get. destruct (fhm_subscript _ _ _) as [components registry].
  destruct (fhm_subscript _ _ _) as [arch store].
  destruct (TypeErasedArchetype_Get _ _ _) as [[v' arch']|]; [|done].
  simpl. by intros [= <- <-].
Qed.

Lemma Entity_Set_next e c v w w' :
  Entity_Set e c v w = Some w' -> s_next_entity_id w' = s_next_entity_id w.
Proof.
  unfold Entity_Set. destruct (fhm_subscript _ _ _) as [components registry].
  destruct (fhm_subscript _ _ _) as [arch store].
  destruct (TypeErasedArchetype_Set _ _ _ _) as [arch'|]; [|done].
  simpl. by intros [= <-].
Qed.

Lemma Entity_dtor_next e w w' :
  Entity_dtor e w = Some w' -> s_next_entity_id w' = s_next_entity_id w.
Proof.
  unfold Entity_dtor, World_Unregister.
  destruct (fhm_subscript _ _ _) as [components registry].
  destruct (fhm_subscript _ _ _) as [arch store].
  destruct (drop_row _ _ _) as [arch'|]; [|done].
  simpl. by intros [= <-].
Qed.

Lemma Entity_HasComponent_next e c w :
  s_next_entity_id (Entity_HasComponent e c w).2 = s_next_entity_id w.
Proof.
  unfold Entity_HasComponent. by destruct (fhm_subscript _ _ _) as [components registry].
Qed.

Lemma wrap_u64_succ (n : nat) :
  wrap_u64 (wrap_u64 (Z.of_nat n) + 1) = wrap_u64 (Z.of_nat (Datatypes.S n)).
Proof.
  unfold wrap_u64. rewrite Z.add_mod_idemp_l by lia. f_equal. lia.
Qed.

Lemma program_step_issued s s' :
  program_step s s' -> (length (sys_issued s) <= length (sys_issued s'))%nat.
Proof. destruct 1; simpl; lia. Qed.

(** Whatever the program does, moves included, the counter holds the
    number of the ids handed out, modulo 2^64, and the [k]-th id handed
    out is [k] modulo 2^64. *)
Lemma program_reachable_counter s :
  program_reachable s ->
  s_next_entity_id (sys_world s) = wrap_u64 (Z.of_nat (length (sys_issued s)))
  ∧ ∀ p, p ∈ sys_issued s ->
      ∃ k : nat, (k < length (sys_issued s))%nat ∧ p = wrap_u64 (Z.of_nat k).
Proof.
  induction 1 as [|s s' Hr [IHn IHp] Hstep].
  - split; [done|]. intros p Hp. by apply elem_of_nil in Hp.
  - assert (Hnew : ∀ w', s_next_entity_id w' = wrap_u64 (s_next_entity_id (sys_world s) + 1) ->
      s_next_entity_id w'
      = wrap_u64 (Z.of_nat (length (s_next_entity_id (sys_world s) :: sys_issued s)))
      ∧ ∀ p, p ∈ s_next_entity_id (sys_world s) :: sys_issued s ->
          ∃ k : nat, (k < length (s_next_entity_id (sys_world s) :: sys_issued s))%nat
                     ∧ p = wrap_u64 (Z.of_nat k)).
    { intros w' ->. split.
      - rewrite IHn. apply wrap_u64_succ.
      - intros p [->|Hp]%elem_of_cons.
        + exists (length (sys_issued s)). split; [simpl; lia | done].
        + destruct (IHp p Hp) as (k & Hk & ->). exists k. split; [simpl; lia | done]. }
    destruct Hstep as [s id w' Hal | s S e w' HS Hctor | s e He | s e c v w' He Hc Hget
                  | s e c v w' He Hc Hset | s e c b w' He Hc Hhas | s i e w' He Hd];
      cbn [sys_world sys_issued].
    + unfold World_AllocateID in Hal. injection Hal as <- <-. by apply Hnew.
    + apply Entity_ctor_next in Hctor as [-> Hn]. by apply Hnew.
    + done.
    + by rewrite (Entity_Get_next _ _ _ _ _ Hget).
    + by rewrite (Entity_Set_next _ _ _ _ _ Hset).
    + pose proof (Entity_HasComponent_next e c (sys_world s)) as Hn.
      rewrite Hhas in Hn. simpl in Hn. by rewrite Hn.
    + by rewrite (Entity_dtor_next _ _ _ Hd).
Qed.

(** In a program that moves no entity object the destructor of an object
    ends the one object with its id. *)
Lemma filter_other_ids_delete (l : list (Entity V)) (i : nat) e :
  NoDup (m_id <$> l) -> l !! i = Some e ->
  filter (λ e', m_id e' ≠ m_id e) l = delete i l.
Proof.
  revert i. induction l as [|x l IH]; intros i Hnd Hi; [done|].
  rewrite fmap_cons in Hnd. apply NoDup_cons in Hnd as [Hx Hnd].
  destruct i as [|i]; simpl in Hi.
  - injection Hi as ->. rewrite filter_cons_False by (intros Hne; by apply Hne).
    simpl. clear IH Hnd. induction l as [|y l IHl]; [done|].
    rewrite fmap_cons in Hx. apply not_elem_of_cons in Hx as [Hy Hx].
    rewrite filter_cons_True by (intros Heq; by apply Hy).
    f_equal. by apply IHl.
  - rewrite filter_cons_True.
    + simpl. f_equal. by apply IH.
    + intros Heq. apply Hx. rewrite Heq. apply list_elem_of_fmap.
      exists e. split; [done|]. by eapply list_elem_of_lookup_2.
Qed.

(** The programs that move no entity object are among the programs. *)
Lemma sys_step_program_step s s' :
  sys_inv s -> sys_step s s' -> program_step s s'.
Proof.
  intros Hs Hstep.
  destruct Hstep as [s id w' Hal | s S e w' HS Hctor | s e c v w' He Hc Hget
                | s e c v w' He Hc Hset | s e c b w' He Hc Hhas | s e w' He Hd].
  - by apply pstep_AllocateID.
  - by apply (pstep_ctor s S).
  - by apply (pstep_Get s e c v).
  - by apply (pstep_Set s e c v).
  - by apply (pstep_HasComponent s e c b).
  - apply list_elem_of_lookup in He as [i Hi].
    rewrite (filter_other_ids_delete _ i e (si_nodup s Hs) Hi).
    by apply (pstep_dtor s i e).
Qed.

Lemma reachable_program_reachable s :
  reachable s -> before_wrap s -> program_reachable s.
Proof.
  induction 1 as [|s s' Hr IH Hstep]; intros Hb; [constructor|].
  assert (Hb' : before_wrap s).
  { unfold before_wrap in *. pose proof (sys_step_issued s s' Hstep). lia. }
  apply (program_reachable_step s); [by apply IH|].
  apply sys_step_program_step; [by apply reachable_sys_inv | done].
Qed.

(** The index, the store and the registry of any program. *)
Lemma index_inv_program_step s s' : program_step s s' -> index_inv s -> index_inv s'.
Proof.
  destruct 1 as [s id w' Hal | s S e w' HS Hctor | s e He | s e c v w' He Hc Hget
                | s e c v w' He Hc Hset | s e c b w' He Hc Hhas | s i e w' He Hd];
    intros Hs.
  - apply (index_inv_step s); [by apply step_AllocateID | done].
  - apply (index_inv_step s); [by apply (step_ctor s S) | done].
  - split; simpl; [apply Hs | apply Hs |].
    intros e' [->|He']%elem_of_cons; [|by apply Hs]. simpl. by apply Hs.
  - apply (index_inv_step s); [by apply (step_Get s e c v) | done].
  - apply (index_inv_step s); [by apply (step_Set s e c v) | done].
  - apply (index_inv_step s); [by apply (step_HasComponent s e c b) | done].
  - apply list_elem_of_lookup_2 in He as He'.
    destruct (ii_live s Hs e He') as [m Hm].
    apply (index_inv_same s); [done | | ].
    + apply (Entity_dtor_index e _ w' m Hm); [|done]. by apply (ii_registered s Hs (m_id e)).
    + intros e'. apply list_elem_of_delete_inv.
Qed.

Lemma program_reachable_index_inv s : program_reachable s -> index_inv s.
Proof.
  induction 1 as [|s s' _ IH Hstep]; [apply index_inv_init|].
  by apply (index_inv_program_step s s').
Qed.

(** What a step of any program does to the registry: the constructor
    enters the id it allocated, and nothing else changes it. *)
Lemma program_step_registry s s' :
  index_inv s -> program_step s s' ->
  s_entity_archetype_map (sys_world s') = s_entity_archetype_map (sys_world s)
  ∨ ∃ m, s_entity_archetype_map (sys_world s')
         = fhm_insert (s_next_entity_id (sys_world s)) m (s_entity_archetype_map (sys_world s))
       ∧ sys_issued s' = s_next_entity_id (sys_world s) :: sys_issued s.
Proof.
  intros Hs Hstep.
  destruct Hstep as [s id w' Hal | s S e w' HS Hctor | s e He | s e c v w' He Hc Hget
                | s e c v w' He Hc Hset | s e c b w' He Hc Hhas | s i e w' He Hd];
    cbn [sys_world sys_issued].
  - unfold World_AllocateID in Hal. injection Hal as <- <-. by left.
  - right. unfold Entity_ctor in Hctor. simpl in Hctor.
    destruct (World_Register _ S _ _) as [w2|] eqn:Hreg; [|done].
    simpl in Hctor. injection Hctor as <- <-.
    apply World_Register_index in Hreg as (_ & _ & Hreg). simpl in Hreg.
    eexists. split; [exact Hreg | done].
  - by left.
  - left. destruct (ii_live s Hs e He) as [m Hm].
    apply (Entity_Get_index e c _ v w' m Hm); [|done]. by apply (ii_registered s Hs (m_id e)).
  - left. destruct (ii_live s Hs e He) as [m Hm].
    apply (Entity_Set_index e c v _ w' m Hm); [|done]. by apply (ii_registered s Hs (m_id e)).
  - left. destruct (ii_live s Hs e He) as [m Hm].
    rewrite (Entity_HasComponent_registered e c _ m Hm) in Hhas. by injection Hhas as <- <-.
  - left. apply list_elem_of_lookup_2 in He as He'.
    destruct (ii_live s Hs e He') as [m Hm].
    apply (Entity_dtor_index e _ w' m Hm); [|done]. by apply (ii_registered s Hs (m_id e)).
Qed.

(** Every registered id was handed out by the counter. *)
Lemma program_reachable_registered_issued s id :
  program_reachable s ->
  is_Some (s_entity_archetype_map (sys_world s) !! id) -> id ∈ sys_issued s.
Proof.
  intros Hr. revert id. induction Hr as [|s s' Hr IH Hstep]; intros id.
  - simpl. rewrite lookup_empty. by intros [? ?].
  - pose proof (program_step_issued s s' Hstep) as Hlen.
    destruct (program_step_registry s s' (program_reachable_index_inv s Hr) Hstep)
      as [-> | (m & -> & Hiss)].
    + intros Hid%IH. clear -Hstep Hid.
      destruct Hstep; cbn [sys_issued]; try done; by right.
    + rewrite Hiss. destruct (decide (s_next_entity_id (sys_world s) = id)) as [<-|Hk].
      * intros _. by left.
      * rewrite fhm_insert_lookup_ne by done. intros Hid%IH. by right.
Qed.

(** Before the counter wraps, the ids handed out are below the counter. *)
Lemma program_reachable_issued_below s p :
  program_reachable s -> before_wrap s -> p ∈ sys_issued s ->
  0 <= p < s_next_entity_id (sys_world s).
Proof.
  intros Hr Hb Hp. destruct (program_reachable_counter s Hr) as [Hn Hk].
  destruct (Hk p Hp) as (k & Hlt & ->). rewrite Hn.
  unfold before_wrap in Hb. unfold wrap_u64. rewrite !Z.mod_small by lia. lia.
Qed.

(** C6, as the code has it: while fewer than 2^64 ids have been handed
    out, in any program, one that moves entity objects included, a call
    of [AllocateID] returns a value strictly greater than every value
    returned before, hence one never returned before; and in a program
    that makes its entity objects with the constructor and moves none,
    no two live entity objects share an id. *)
Theorem AllocateID_fresh_before_wrap s :
  before_wrap s ->
  (program_reachable s ->
     (∀ p, p ∈ sys_issued s -> p < fst (World_AllocateID (sys_world s)))
     ∧ fst (World_AllocateID (sys_world s)) ∉ sys_issued s)
  ∧ (reachable s -> NoDup (m_id <$> sys_live s)).
Proof.
  intros Hb. split.
  - intros Hr. simpl. split.
    + intros p Hp. pose proof (program_reachable_issued_below s p Hr Hb Hp). lia.
    + intros Hp. pose proof (program_reachable_issued_below s _ Hr Hb Hp). lia.
  - intros Hr. apply (si_nodup s). by apply reachable_sys_inv.
Qed.

End Programs.


(** ** Walking the columns of one table in lockstep *)

Section Lockstep.
Context {V : Type} `{!ValueInit V}.
Implicit Types (a : Archetype V) (col : gmap Z V) (c id m : Z) (v : V)
  (cols : list (gmap Z V)) (K : list Z) (Q : list Z) (n : nat).

Lemma mapM_columns {B : Type} (g : gmap Z V → option B) Q a cols :
  Forall2 (λ c col, a !! c = Some col) Q cols ->
  mapM (λ c, col ← a !! c; g col) Q = mapM g cols.
Proof.
  induction 1 as [|c col Q cols Hc _ IH]; [done|].
  cbn [mapM]. rewrite Hc. simpl. by rewrite IH.
Qed.

Lemma mapM_total {A B : Type} (g : A → B) (l : list A) :
  mapM (λ x, Some (g x)) l = Some (g <$> l).
Proof. induction l as [|x l IH]; [done|]. cbn [mapM]. simpl. by rewrite IH. Qed.

Lemma mapM_ext_Forall {A B : Type} (g h : A → option B) (l : list A) :
  Forall (λ x, g x = h x) l -> mapM g l = mapM h l.
Proof.
  induction 1 as [|x l Hx _ IH]; [done|]. cbn [mapM]. by rewrite Hx, IH.
Qed.

Lemma ColumnSetIterator_well_formed_nonempty Q :
  Q ≠ [] -> ColumnSetIterator_well_formed Q = true.
Proof. by destruct Q. Qed.

Lemma TypeErasedArchetype_begin_columns Q a cols K :
  Q ≠ [] -> lockstep_columns Q a cols K ->
  TypeErasedArchetype_begin Q a = Some (rows_at cols 0).
Proof.
  intros HQ [Hcols _]. unfold TypeErasedArchetype_begin, Archetype_begin, fhm_begin.
  rewrite (ColumnSetIterator_well_formed_nonempty Q HQ).
  rewrite (mapM_columns (λ col, Some (map_to_list col)) Q a cols Hcols).
  by rewrite mapM_total.
Qed.

Lemma TypeErasedArchetype_end_columns Q a cols K :
  Q ≠ [] -> lockstep_columns Q a cols K ->
  TypeErasedArchetype_end Q a = Some ((λ _, []) <$> cols).
Proof.
  intros HQ [Hcols _]. unfold TypeErasedArchetype_end, Archetype_end, fhm_end.
  rewrite (ColumnSetIterator_well_formed_nonempty Q HQ).
  rewrite (mapM_columns (λ col, Some []) Q a cols Hcols).
  by rewrite mapM_total.
Qed.

Lemma column_length col K : (map_to_list col).*1 = K -> length (map_to_list col) = length K.
Proof. intros <-. by rewrite length_fmap. Qed.

(** The row iterator equals the sentinel when every column is at its
    end: at once for all (over no column the fold is [true]). *)
Lemma ColumnSetIterator_eq_sentinel cols K n :
  Forall (λ col, (map_to_list col).*1 = K) cols ->
  ColumnSetIterator_eq (rows_at cols n) ((λ _, []) <$> cols)
  = bool_decide (cols = [] ∨ (length K <= n)%nat).
Proof.
  unfold ColumnSetIterator_eq, rows_at.
  induction 1 as [|col cols Hcol Hcols IH].
  - done.
  - cbn [fmap list_fmap zip zip_with forallb]. rewrite IH.
    unfold fhm_iter_eq. cbn [fst snd]. rewrite length_drop, (column_length col K Hcol).
    simpl. destruct (decide (length K <= n)%nat) as [Hle|Hgt].
    + rewrite (bool_decide_eq_true_2 (_ = 0%nat)) by lia.
      rewrite !bool_decide_eq_true_2; [done | by right | by right].
    + rewrite (bool_decide_eq_false_2 (_ = 0%nat)) by lia. simpl. symmetry.
      apply bool_decide_eq_false_2. intros [?|?]; [done | lia].
Qed.

Lemma ColumnSetIterator_incr_columns cols K n :
  Forall (λ col, (map_to_list col).*1 = K) cols -> (n < length K)%nat ->
  ColumnSetIterator_incr (rows_at cols n) = Some (rows_at cols (S n)).
Proof.
  intros Hcols Hn. unfold ColumnSetIterator_incr, rows_at.
  induction Hcols as [|col cols Hcol _ IH]; [done|].
  cbn [fmap list_fmap mapM]. simpl in IH. rewrite IH.
  pose proof (column_length col K Hcol) as Hlen.
  destruct (drop n (map_to_list col)) as [|x rest] eqn:Hd.
  - apply (f_equal length) in Hd. rewrite length_drop in Hd. simpl in Hd. lia.
  - simpl. do 2 f_equal.
    rewrite <- (Nat.add_1_r n), <- drop_drop, Hd. done.
Qed.

(** The cell that a column iterator [n] steps in refers to. *)
Lemma column_entry col K n k :
  (map_to_list col).*1 = K -> K !! n = Some k ->
  ∃ v, head (drop n (map_to_list col)) = Some (k, v) ∧ col !! k = Some v.
Proof.
  intros HK Hk. rewrite <- HK, list_lookup_fmap in Hk.
  destruct (map_to_list col !! n) as [[k' v]|] eqn:Hn; [|done].
  simpl in Hk. injection Hk as ->. exists v. split.
  - by rewrite head_lookup, lookup_drop, Nat.add_0_r.
  - apply elem_of_map_to_list. by eapply list_elem_of_lookup_2.
Qed.

Lemma ColumnSetIterator_deref_columns Q a cols K n k :
  lockstep_columns Q a cols K -> Q ≠ [] -> K !! n = Some k ->
  ∃ refs, ColumnSetIterator_deref (rows_at cols n) = Some (k, refs)
          ∧ row_refs Q a k = Some refs.
Proof.
  intros [Hcols HK] HQ Hk.
  assert (Hrefs : mapM (λ it : list (Z * V), snd <$> head it) (rows_at cols n)
                  = mapM (λ col, col !! k) cols).
  { unfold rows_at. clear Hcols. induction HK as [|col cols Hcol _ IH]; [done|].
    cbn [fmap list_fmap mapM]. simpl in IH. rewrite IH.
    destruct (column_entry col K n k Hcol Hk) as (v & -> & ->). done. }
  unfold row_refs. rewrite (mapM_columns (λ col, col !! k) Q a cols Hcols).
  unfold ColumnSetIterator_deref. rewrite Hrefs.
  destruct Hcols as [|c col Q cols Hc Hcols]; [done|].
  apply Forall_cons in HK as [Hcol HK].
  destruct (column_entry col K n k Hcol Hk) as (v & Hhead & Hv).
  cbn [rows_at fmap list_fmap]. rewrite Hhead. cbn [mbind option_bind fst].
  cbn [mapM]. rewrite Hv. cbn [mbind option_bind].
  destruct (mapM (λ col0 : gmap Z V, col0 !! k) cols) as [refs|] eqn:Hm.
  - exists (v :: refs). done.
  - exfalso. clear -Hm HK Hk.
    induction HK as [|col' cols Hcol' _ IH]; [done|].
    cbn [mapM] in Hm. destruct (column_entry col' K n k Hcol' Hk) as (v' & _ & Hv').
    rewrite Hv' in Hm. simpl in Hm.
    destruct (mapM _ cols); [done|]. by apply IH.
Qed.

Lemma table_keys_columns Q a cols K :
  lockstep_columns Q a cols K -> Q ≠ [] -> table_keys Q a = K.
Proof.
  intros [Hcols HK] HQ. destruct Hcols as [|c col Q cols Hc Hcols]; [done|].
  apply Forall_cons in HK as [Hcol _]. unfold table_keys. by rewrite Hc.
Qed.

End Lockstep.

(** ** Running the view iterator *)

Section ViewRun.
Context {V : Type} `{!ValueInit V}.
Implicit Types (a : Archetype V) (col : gmap Z V) (c id m : Z) (v : V)
  (cols : list (gmap Z V)) (K : list Z) (Q : list Z) (n : nat)
  (w : World V) (ctx last : GeneratorContext V).

Lemma set_archetype_map_same w :
  set_archetype_map (λ _, s_component_archetype_map w) w = w.
Proof. by destruct w. Qed.

Lemma Iterator_eq_finished ctx last :
  m_stage ctx = eFinished -> m_stage last = eFinished -> Iterator_eq ctx last = true.
Proof. unfold Iterator_eq. by intros -> ->. Qed.

Lemma Iterator_eq_next_row ctx last :
  m_stage ctx = eNextRow -> m_stage last = eFinished -> Iterator_eq ctx last = false.
Proof. unfold Iterator_eq, GeneratorContext_eq. by intros -> ->. Qed.

Lemma table_row_at Q a cols K n k :
  lockstep_columns Q a cols K -> Q ≠ [] -> K !! n = Some k ->
  ∃ refs, ColumnSetIterator_deref (rows_at cols n) = Some (k, refs)
    ∧ omap (λ id, refs ← row_refs Q a id; Some (id, refs)) (drop n K)
      = (k, refs) :: omap (λ id, refs ← row_refs Q a id; Some (id, refs)) (drop (S n) K).
Proof.
  intros Hl HQ Hk.
  destruct (ColumnSetIterator_deref_columns Q a cols K n k Hl HQ Hk) as (refs & Hd & Hr).
  exists refs. split; [done|].
  rewrite (drop_S K k n Hk). cbn [omap list_omap]. by rewrite Hr.
Qed.

(** The rows of one table from position [n] on, then the tables after
    it. *)
Lemma iterate_view_table Q w last m rest a cols K :
  m_stage last = eFinished -> Q ≠ [] ->
  lockstep_columns Q a cols K ->
  runs_tables Q w last rest ->
  ∀ d n sentinel fuel, length K = (n + S d)%nat ->
    (length (omap (λ id, refs ← row_refs Q a id; Some (id, refs)) (drop n K))
     + length (tables_rows Q w rest) < fuel)%nat ->
    iterate_view fuel Q
      (mkContext eNextRow (m :: rest) sentinel (rows_at cols n) ((λ _, []) <$> cols))
      last w
    = Some (omap (λ id, refs ← row_refs Q a id; Some (id, refs)) (drop n K)
            ++ tables_rows Q w rest, w).
Proof.
  intros Hlast HQ Hl Hrest.
  assert (Hne : cols ≠ []).
  { destruct Hl as [Hcols _]. intros ->. apply Forall2_nil_inv_r in Hcols. done. }
  induction d as [|d IH]; intros n sentinel fuel Hlen Hfuel.
  - destruct (lookup_lt_is_Some_2 K n ltac:(lia)) as [k Hk].
    destruct (table_row_at Q a cols K n k Hl HQ Hk) as (refs & Hderef & Hrows).
    rewrite Hrows in Hfuel |- *. rewrite (drop_ge K (S n)) in Hfuel |- * by lia.
    cbn [omap list_omap length] in Hfuel. cbn [omap list_omap app].
    destruct fuel as [|fuel]; [lia|]. cbn [iterate_view].
    rewrite Iterator_eq_next_row by done.
    unfold Iterator_deref. cbn [m_curr_row]. rewrite Hderef. cbn [mbind option_bind].
    unfold next_row. cbn [m_stage m_curr_row m_sentinel_row m_curr_archetype_it
                          m_sentinel_archetype_it].
    rewrite (ColumnSetIterator_incr_columns cols K n) by (apply Hl || lia).
    cbn [mbind option_bind].
    rewrite (ColumnSetIterator_eq_sentinel cols K (S n)) by apply Hl.
    rewrite bool_decide_eq_true_2 by (right; lia). cbn [tail].
    destruct (Hrest (mkContext eNextArchetype (m :: rest) sentinel
                       (rows_at cols (S n)) ((λ _, []) <$> cols))) as (ctx' & -> & Hrun).
    cbn [mbind option_bind]. rewrite Hrun by lia. done.
  - destruct (lookup_lt_is_Some_2 K n ltac:(lia)) as [k Hk].
    destruct (table_row_at Q a cols K n k Hl HQ Hk) as (refs & Hderef & Hrows).
    rewrite Hrows in Hfuel |- *. cbn [length] in Hfuel.
    destruct fuel as [|fuel]; [lia|]. cbn [iterate_view].
    rewrite Iterator_eq_next_row by done.
    unfold Iterator_deref. cbn [m_curr_row]. rewrite Hderef. cbn [mbind option_bind].
    unfold next_row. cbn [m_stage m_curr_row m_sentinel_row m_curr_archetype_it
                          m_sentinel_archetype_it].
    rewrite (ColumnSetIterator_incr_columns cols K n) by (apply Hl || lia).
    cbn [mbind option_bind].
    rewrite (ColumnSetIterator_eq_sentinel cols K (S n)) by apply Hl.
    rewrite bool_decide_eq_false_2 by (intros [?|?]; [done | lia]).
    cbn [mbind option_bind].
    rewrite (IH (S n) sentinel fuel) by (simpl in *; lia). done.
Qed.

Lemma tables_rows_cons Q w m masks :
  tables_rows Q w (m :: masks)
  = table_rows Q (default ∅ (s_component_archetype_map w !! m)) ++ tables_rows Q w masks.
Proof. done. Qed.

(** [begin_archetype] and the loop walk the tables under [masks] one
    after the other. *)
Lemma runs_lockstep_tables Q w last masks :
  Q ≠ [] -> m_stage last = eFinished ->
  lockstep_tables Q w masks -> runs_tables Q w last masks.
Proof.
  intros HQ0 Hlast Hmasks.
  induction Hmasks as [|m masks (a & cols & K & Ha & Hl) _ IH]; intros ctx.
  - eexists. split; [done|]. intros fuel Hfuel.
    destruct fuel as [|fuel]; [simpl in Hfuel; lia|]. cbn [iterate_view].
    by rewrite Iterator_eq_finished.
  - cbn [begin_archetype]. rewrite (fhm_subscript_present _ _ _ _ Ha).
    rewrite set_archetype_map_same.
    rewrite (TypeErasedArchetype_begin_columns Q a cols K HQ0 Hl).
    rewrite (TypeErasedArchetype_end_columns Q a cols K HQ0 Hl).
    cbn [mbind option_bind].
    rewrite (ColumnSetIterator_eq_sentinel cols K 0) by apply Hl.
    rewrite tables_rows_cons, Ha. change (default ∅ (Some a)) with a.
    case_bool_decide as Hempty.
    + assert (table_rows Q a = []) as ->.
      { unfold table_rows. destruct (decide (Q = [])) as [->|HQ]; [done|].
        rewrite (table_keys_columns Q a cols K Hl HQ).
        destruct Hempty as [->|Hlen].
        - destruct Hl as [Hcols _]. by apply Forall2_nil_inv_r in Hcols.
        - destruct K; [done | simpl in Hlen; lia]. }
      apply IH.
    + assert (HQ : Q ≠ []).
      { intros ->. destruct Hl as [Hcols _]. apply Forall2_nil_inv_l in Hcols.
        apply Hempty. by left. }
      eexists. split; [done|]. intros fuel Hfuel.
      unfold table_rows in *. rewrite (table_keys_columns Q a cols K Hl HQ) in *.
      destruct (length K) as [|d] eqn:Hlen; [exfalso; apply Hempty; right; lia|].
      rewrite <- (drop_0 K) at 1.
      apply (iterate_view_table Q w last m masks a cols K Hlast HQ Hl IH d 0%nat).
      * by rewrite Hlen.
      * rewrite drop_0. by rewrite length_app in Hfuel.
Qed.

(** The rows a view yields are the rows of the matching tables. *)
Lemma Iterator_ctor_nonempty Q begin end_ w :
  Q ≠ [] ->
  Iterator_ctor Q begin end_ w
  = next_row Q (mkContext eBeginArchetype begin end_ ((λ _, []) <$> Q) ((λ _, []) <$> Q)) w.
Proof.
  intros HQ. unfold Iterator_ctor. by rewrite (ColumnSetIterator_well_formed_nonempty Q HQ).
Qed.

Lemma view_rows_tables Q w fuel :
  Q ≠ [] ->
  lockstep_tables Q w (components_view Q w) ->
  (length (tables_rows Q w (components_view Q w)) < fuel)%nat ->
  view_rows fuel Q w = Some (tables_rows Q w (components_view Q w), w).
Proof.
  intros HQ Hmasks Hfuel. unfold view_rows, components_view_begin, components_view_end.
  rewrite !(Iterator_ctor_nonempty Q _ _ _ HQ). unfold next_row.
  cbn [m_stage m_curr_archetype_it].
  set (ctx0 := mkContext eBeginArchetype (components_view Q w) [] _ _).
  set (last := mkContext (V := V) eFinished [] [] ((λ _, []) <$> Q) ((λ _, []) <$> Q)).
  destruct (runs_lockstep_tables Q w last (components_view Q w) HQ eq_refl Hmasks ctx0)
    as (ctx' & -> & Hrun).
  cbn [mbind option_bind]. rewrite (Iterator_ctor_nonempty Q _ _ _ HQ). unfold next_row.
  cbn [mbind option_bind begin_archetype m_stage m_curr_archetype_it
       m_sentinel_archetype_it m_curr_row m_sentinel_row].
  by apply Hrun.
Qed.

End ViewRun.

(** ** The rows of the matching tables *)

Section ViewRows.
Context {V : Type} `{!ValueInit V}.
Implicit Types (a : Archetype V) (col : gmap Z V) (c id m : Z) (v : V)
  (cols : list (gmap Z V)) (K : list Z) (Q cs : list Z) (n : nat)
  (w : World V) (e : Entity V) (s : System V).

(** [B & Q == Q] says that the components of [Q] are among those of [B]. *)
Lemma mask_superset cs Q :
  Forall valid_component cs -> Forall valid_component Q ->
  Z.land (ecs_component_mask cs) (ecs_component_mask Q) = ecs_component_mask Q
  ↔ ∀ c, c ∈ Q -> c ∈ cs.
Proof.
  intros Hcs HQ. unfold ecs_component_mask.
  pose proof (component_bitfield_in_i128 cs Hcs) as Hics.
  pose proof (component_bitfield_in_i128 Q HQ) as HiQ.
  split.
  - intros Hland c Hc.
    assert (0 <= c < 128) as Hr by (rewrite Forall_forall in HQ; by apply HQ).
    apply (f_equal (λ z, Z.testbit z c)) in Hland.
    rewrite Z.land_spec, !component_bitfield_testbit in Hland by done.
    rewrite (bool_decide_eq_true_2 (c ∈ Q)), andb_true_r in Hland by done.
    by apply bool_decide_eq_true_1 in Hland.
  - intros Hsub. apply Z.bits_inj'. intros i Hi. rewrite Z.land_spec.
    assert (Hlow : ∀ j, 0 <= j < 128 ->
      Z.testbit (component_bitfield cs) j && Z.testbit (component_bitfield Q) j
      = Z.testbit (component_bitfield Q) j).
    { intros j Hj. rewrite !component_bitfield_testbit by done.
      destruct (decide (j ∈ Q)) as [Hin|Hout].
      - rewrite !bool_decide_eq_true_2; [done | done | by apply Hsub].
      - rewrite (bool_decide_eq_false_2 (j ∈ Q)) by done. apply andb_false_r. }
    destruct (Z_lt_dec i 128) as [Hlt|Hge]; [apply Hlow; lia|].
    rewrite (in_i128_high_bits _ i Hics), (in_i128_high_bits _ i HiQ) by lia.
    apply Hlow. lia.
Qed.

(** A table whose mask is a superset of the mask of [Q] has a column for
    each component of [Q]. *)
Lemma matching_table_column w Q m a c :
  world_inv w -> Forall valid_component Q ->
  s_component_archetype_map w !! m = Some a ->
  Z.land m (ecs_component_mask Q) = ecs_component_mask Q ->
  c ∈ Q -> is_Some (a !! c).
Proof.
  intros Hw HQ Ha Hland Hc.
  destruct (wi_columns w Hw m a Ha) as (cs & Hcs & -> & Hcols).
  apply Hcols. by apply (proj1 (mask_superset cs Q Hcs HQ) Hland).
Qed.

Lemma matching_table_lockstep w Q m a :
  world_inv w -> Forall valid_component Q ->
  s_component_archetype_map w !! m = Some a ->
  Z.land m (ecs_component_mask Q) = ecs_component_mask Q ->
  ∃ cols, lockstep_columns Q a cols (table_keys Q a).
Proof.
  intros Hw HQ Ha Hland.
  assert (Hall : ∀ c, c ∈ Q -> is_Some (a !! c)).
  { intros c. by apply (matching_table_column w Q m a c). }
  assert (Hcols : ∃ cols, Forall2 (λ c col, a !! c = Some col) Q cols).
  { clear -Hall. induction Q as [|c Q IH]; [by exists []|].
    destruct (Hall c ltac:(by left)) as [col Hcol].
    destruct IH as [cols Hcols]; [intros c' ?; apply Hall; by right|].
    exists (col :: cols). by constructor. }
  destruct Hcols as [cols Hcols]. exists cols. split; [done|].
  assert (Hsome : Forall (λ col, ∃ c, a !! c = Some col) cols).
  { clear -Hcols. induction Hcols; constructor; eauto. }
  destruct Hcols as [|c0 col0 Q' cols' Hc0 _]; [done|].
  unfold table_keys. rewrite Hc0.
  apply (Forall_impl _ _ _ Hsome). intros col [c Hc].
  apply map_to_list_keys_dom. by apply (wi_lockstep w Hw m a c c0).
Qed.

Lemma components_view_elem w Q m :
  m ∈ components_view Q w
  ↔ m ∈ s_component_trie w ∧ Z.land m (ecs_component_mask Q) = ecs_component_mask Q.
Proof.
  unfold components_view, trie_view_match_mask.
  rewrite list_elem_of_filter, elem_of_elements. tauto.
Qed.

Lemma components_view_NoDup w Q : NoDup (components_view Q w).
Proof. apply NoDup_filter, NoDup_elements. Qed.

Lemma components_view_lockstep w Q :
  world_inv w -> Forall valid_component Q ->
  lockstep_tables Q w (components_view Q w).
Proof.
  intros Hw HQ. apply Forall_forall. intros m [Hm Hland]%components_view_elem.
  rewrite (wi_trie w Hw) in Hm. apply elem_of_dom in Hm as [a Ha].
  destruct (matching_table_lockstep w Q m a Hw HQ Ha Hland) as [cols Hl].
  by exists a, cols, (table_keys Q a).
Qed.

(** The entities of a table are the keys of any of its columns. *)
Lemma table_keys_has_row w Q m a id :
  world_inv w -> Forall valid_component Q -> Q ≠ [] ->
  s_component_archetype_map w !! m = Some a ->
  Z.land m (ecs_component_mask Q) = ecs_component_mask Q ->
  id ∈ table_keys Q a ↔ has_row a id.
Proof.
  intros Hw HQ Hne Ha Hland. destruct Q as [|c0 Q]; [done|].
  destruct (matching_table_column w _ m a c0 Hw HQ Ha Hland ltac:(by left)) as [col0 Hc0].
  unfold table_keys. rewrite Hc0.
  assert (Hkeys : id ∈ (map_to_list col0).*1 ↔ id ∈ dom col0).
  { rewrite list_elem_of_fmap, elem_of_dom. split.
    - intros ([k v] & -> & Hin). apply elem_of_map_to_list in Hin. simpl. eauto.
    - intros [v Hv]. exists (id, v). split; [done|]. by apply elem_of_map_to_list. }
  rewrite Hkeys. split.
  - intros Hid. by exists c0, col0.
  - intros (c & col & Hc & Hid).
    by rewrite (wi_lockstep w Hw m a c0 c col0 col Ha Hc0 Hc).
Qed.

Lemma row_refs_cells w Q m a id refs :
  s_component_archetype_map w !! m = Some a ->
  row_refs Q a id = Some refs ↔ Forall2 (λ c r, cell w m c id = Some r) Q refs.
Proof.
  intros Ha. unfold row_refs. rewrite mapM_Some.
  split; intros HF; apply (Forall2_impl _ _ _ _ HF); intros c r; unfold cell;
    by rewrite Ha.
Qed.

Lemma row_refs_total w Q m a id :
  world_inv w -> Forall valid_component Q ->
  s_component_archetype_map w !! m = Some a ->
  Z.land m (ecs_component_mask Q) = ecs_component_mask Q ->
  has_row a id -> is_Some (row_refs Q a id).
Proof.
  intros Hw HQ Ha Hland (c1 & col1 & Hc1 & Hid).
  assert (Hall : ∀ c, c ∈ Q -> is_Some (a !! c ≫= λ col, col !! id)).
  { intros c Hc.
    destruct (matching_table_column w Q m a c Hw HQ Ha Hland Hc) as [col Hcol].
    rewrite Hcol. simpl. apply elem_of_dom.
    by rewrite (wi_lockstep w Hw m a c c1 col col1 Ha Hcol Hc1). }
  unfold row_refs. clear -Hall. induction Q as [|c Q IH]; [by eexists|].
  cbn [mapM]. destruct (Hall c ltac:(by left)) as [r ->]. simpl.
  destruct IH as [refs ->]; [intros c' ?; apply Hall; by right|]. by eexists.
Qed.

Lemma table_rows_elem Q a id refs :
  (id, refs) ∈ table_rows Q a ↔ id ∈ table_keys Q a ∧ row_refs Q a id = Some refs.
Proof.
  unfold table_rows. rewrite list_elem_of_omap. split.
  - intros (k & Hk & Hf). destruct (row_refs Q a k) as [r|] eqn:Hr; [|done].
    simpl in Hf. injection Hf as -> ->. done.
  - intros [Hk Hr]. exists id. split; [done|]. by rewrite Hr.
Qed.

Lemma table_rows_keys Q a id :
  id ∈ (table_rows Q a).*1 -> id ∈ table_keys Q a.
Proof.
  intros ([id' refs] & -> & Hin)%list_elem_of_fmap.
  by apply table_rows_elem in Hin as [? _].
Qed.

Lemma NoDup_table_keys Q a : NoDup (table_keys Q a).
Proof.
  unfold table_keys. destruct Q as [|c0 Q]; [constructor|].
  destruct (a !! c0); [apply NoDup_fst_map_to_list | constructor].
Qed.

Lemma NoDup_table_rows Q a : NoDup (table_rows Q a).*1.
Proof.
  unfold table_rows. pose proof (NoDup_table_keys Q a) as HK.
  induction HK as [|k K Hk _ IH]; [constructor|].
  cbn [omap list_omap]. destruct (row_refs Q a k) as [r|]; [|done]. simpl.
  constructor; [|done].
  intros ([id' refs] & Heq & Hin)%list_elem_of_fmap. simpl in Heq. subst id'.
  apply list_elem_of_omap in Hin as (k' & Hk' & Hf).
  destruct (row_refs Q a k'); [|done]. simpl in Hf. injection Hf as -> ->. done.
Qed.

Lemma tables_rows_elem Q w masks id refs :
  (id, refs) ∈ tables_rows Q w masks
  ↔ ∃ m, m ∈ masks ∧ (id, refs) ∈ table_rows Q (default ∅ (s_component_archetype_map w !! m)).
Proof.
  unfold tables_rows. rewrite list_elem_of_bind. naive_solver.
Qed.

Lemma NoDup_tables_rows Q w masks :
  world_inv w -> Forall valid_component Q -> Q ≠ [] ->
  NoDup masks -> (∀ m, m ∈ masks -> m ∈ components_view Q w) ->
  NoDup (tables_rows Q w masks).*1.
Proof.
  intros Hw HQ Hne Hnd Hsub. induction Hnd as [|m masks Hm Hnd IH]; [constructor|].
  rewrite tables_rows_cons, fmap_app. apply NoDup_app. split_and!.
  - apply NoDup_table_rows.
  - intros id Hid1 Hid2.
    apply list_elem_of_fmap in Hid2 as ([id' refs] & -> & Hin).
    apply tables_rows_elem in Hin as (m' & Hm' & Hin). simpl in Hid1.
    apply table_rows_elem in Hin as [Hk' _].
    apply table_rows_keys in Hid1.
    destruct (proj1 (components_view_elem w Q m) (Hsub m ltac:(by left))) as [Ht Hland].
    destruct (proj1 (components_view_elem w Q m') (Hsub m' ltac:(by right))) as [Ht' Hland'].
    rewrite (wi_trie w Hw) in Ht, Ht'.
    apply elem_of_dom in Ht as [a Ha]. apply elem_of_dom in Ht' as [a' Ha'].
    rewrite Ha in Hid1. rewrite Ha' in Hk'. simpl in Hid1, Hk'.
    apply (table_keys_has_row w Q m a _ Hw HQ Hne Ha Hland) in Hid1
      as (c & col & Hc & Hid).
    apply (table_keys_has_row w Q m' a' _ Hw HQ Hne Ha' Hland') in Hk'
      as (c' & col' & Hc' & Hid').
    pose proof (wi_owner w Hw m a c col _ Ha Hc Hid) as Hr.
    pose proof (wi_owner w Hw m' a' c' col' _ Ha' Hc' Hid') as Hr'.
    assert (m = m') as -> by congruence. done.
  - apply IH. intros m' Hm'. apply Hsub. by right.
Qed.

End ViewRows.

(** ** Views *)

Section Views.
Context {V : Type} `{!ValueInit V}.
Implicit Types (a : Archetype V) (col : gmap Z V) (c id m : Z) (v : V)
  (cols : list (gmap Z V)) (K : list Z) (Q cs : list Z) (n : nat)
  (w : World V) (e : Entity V) (s : System V).

Lemma view_rows_elem w Q id refs :
  world_inv w -> Forall valid_component Q -> Q ≠ [] ->
  (id, refs) ∈ tables_rows Q w (components_view Q w)
  ↔ ∃ m a, s_component_archetype_map w !! m = Some a
      ∧ Z.land m (ecs_component_mask Q) = ecs_component_mask Q
      ∧ has_row a id
      ∧ Forall2 (λ c r, cell w m c id = Some r) Q refs.
Proof.
  intros Hw HQ Hne. rewrite tables_rows_elem. split.
  - intros (m & [Hm Hland]%components_view_elem & Hin).
    rewrite (wi_trie w Hw) in Hm. apply elem_of_dom in Hm as [a Ha].
    rewrite Ha in Hin. simpl in Hin. apply table_rows_elem in Hin as [Hk Hr].
    exists m, a. split_and!; [done | done | |].
    + by apply (table_keys_has_row w Q m a id).
    + by apply (row_refs_cells w Q m a id refs).
  - intros (m & a & Ha & Hland & Hrow & Hcells). exists m. split.
    + apply components_view_elem. split; [|done].
      rewrite (wi_trie w Hw). by apply elem_of_dom_2 in Ha.
    + rewrite Ha. simpl. apply table_rows_elem. split.
      * by apply (table_keys_has_row w Q m a id).
      * by apply (row_refs_cells w Q m a id refs).
Qed.

(** An entity of a table is yielded exactly when the table matches. *)
Lemma view_rows_entity w Q m a id :
  world_inv w -> Forall valid_component Q -> Q ≠ [] ->
  s_component_archetype_map w !! m = Some a -> has_row a id ->
  id ∈ (tables_rows Q w (components_view Q w)).*1
  ↔ Z.land m (ecs_component_mask Q) = ecs_component_mask Q.
Proof.
  intros Hw HQ Hne Ha Hrow. split.
  - intros ([id' refs] & Heq & Hin)%list_elem_of_fmap. simpl in Heq. subst id'.
    apply (view_rows_elem w Q _ refs Hw HQ Hne) in Hin
      as (m' & a' & Ha' & Hland & (c' & col' & Hc' & Hid') & _).
    destruct Hrow as (c & col & Hc & Hid).
    pose proof (wi_owner w Hw m a c col _ Ha Hc Hid) as Hr.
    pose proof (wi_owner w Hw m' a' c' col' _ Ha' Hc' Hid') as Hr'.
    assert (m = m') as -> by congruence. done.
  - intros Hland.
    destruct (row_refs_total w Q m a id Hw HQ Ha Hland Hrow) as [refs Hrefs].
    apply list_elem_of_fmap. exists (id, refs). split; [done|].
    apply (view_rows_elem w Q id refs Hw HQ Hne). exists m, a.
    split_and!; [done..|]. by apply (row_refs_cells w Q m a id refs).
Qed.

(** C1, as the code has it: in a program that makes its entity objects
    with the constructor and moves none, before the id counter wraps, for
    a non-empty query set [Q], with the archetype index enumerating the
    superset masks, iterating a [components_view] over [Q] returns,
    leaves the world as it is, and yields exactly the tuples
    [(entity_id, &C1, ..., &Ck)] of the entities stored in the tables
    whose bitmask [B] has [B & Q == Q], the references being the cells of
    the entity in the columns of [Q]; no entity id is yielded twice; an
    entity of a table is yielded exactly when the mask of its table is a
    superset of the mask of [Q]; and the entities yielded are the live
    entities whose shape has every component of [Q]. *)
Theorem components_view_yields_matching_rows s Q :
  reachable s -> before_wrap s -> Q ≠ [] -> Forall valid_component Q ->
  let w := sys_world s in
  let q := ecs_component_mask Q in
  ∃ rows,
    (∀ fuel, (length rows < fuel)%nat -> view_rows fuel Q w = Some (rows, w))
    ∧ NoDup rows.*1
    ∧ (∀ id refs, (id, refs) ∈ rows
         ↔ ∃ m a, s_component_archetype_map w !! m = Some a
             ∧ Z.land m q = q
             ∧ has_row a id
             ∧ Forall2 (λ c r, cell w m c id = Some r) Q refs)
    ∧ (∀ m a id, s_component_archetype_map w !! m = Some a -> has_row a id ->
         (id ∈ rows.*1 ↔ Z.land m q = q))
    ∧ (∀ id, id ∈ rows.*1
         ↔ ∃ e, e ∈ sys_live s ∧ m_id e = id
             ∧ ∀ c, c ∈ Q -> has_component (derived_type e) c).
Proof.
  intros Hr Hb Hne HQ w q.
  pose proof (reachable_sys_inv s Hr Hb) as Hs.
  pose proof (si_world s Hs) as Hw. fold w in Hw.
  exists (tables_rows Q w (components_view Q w)). split_and!.
  - intros fuel Hfuel. apply view_rows_tables; [done | | done].
    by apply components_view_lockstep.
  - apply NoDup_tables_rows; [done.. | apply components_view_NoDup | done].
  - intros id refs. by apply view_rows_elem.
  - intros m a id Ha Hrow. by apply (view_rows_entity w Q m a id).
  - intros id. split.
    + intros ([id' refs] & Heq' & Hin)%list_elem_of_fmap. simpl in Heq'. subst id'.
      apply (view_rows_elem w Q _ refs Hw HQ Hne) in Hin
        as (m & a & Ha & Hland & Hrow & _).
      destruct (si_rows s Hs m a id Ha Hrow) as (e & He & Heq).
      exists e. split_and!; [done..|].
      pose proof (si_live s Hs e He) as Hei.
      destruct Hrow as (c & col & Hc & Hid).
      pose proof (wi_owner w Hw m a c col _ Ha Hc Hid) as Hreg.
      pose proof (ei_registered _ _ Hei) as Hreg2. rewrite Heq in Hreg2.
      unfold w in Hreg. rewrite Hreg2 in Hreg. injection Hreg as <-.
      apply (mask_superset _ Q); [apply (ei_shape _ _ Hei) | done | done].
    + intros (e & He & <- & Hsub).
      pose proof (si_live s Hs e He) as Hei.
      destruct (live_entity_table w e Hw Hei) as [a Ha].
      apply (view_rows_entity w Q _ a (m_id e) Hw HQ Hne Ha).
      * destruct Q as [|c0 Q']; [done|].
        destruct (live_entity_cell w e a c0 Hw Hei Ha (Hsub c0 ltac:(by left)))
          as (col & v & Hcol & Hv).
        exists c0, col. split; [done|]. by apply elem_of_dom_2 in Hv.
      * apply (mask_superset _ Q); [apply (ei_shape _ _ Hei) | done | done].
Qed.

(** *** The empty query set *)




End Views.

(** ** The small program *)

Ltac solve_valid_components :=
  repeat constructor; unfold valid_component, kMaxComponents; lia.

Ltac solve_shape_ok :=
  split; [solve_valid_components | repeat constructor; set_solver].

(** [system_a] and [system_ab] are reached by constructing an entity of
    shape [A] and then one of shape [B]. *)
Ltac solve_reachable_a :=
  apply (reachable_step System_init system_a reachable_init);
  apply (step_ctor System_init shape_A entity_a world_a);
  [solve_shape_ok | vm_compute; reflexivity].

Ltac solve_reachable_ab :=
  apply (reachable_step system_a system_ab); [solve_reachable_a|];
  apply (step_ctor system_a shape_B entity_b world_ab);
  [solve_shape_ok | vm_compute; reflexivity].

Ltac solve_before_wrap := unfold before_wrap; simpl; lia.

Ltac solve_program_reachable_a :=
  apply (program_reachable_step System_init system_a program_reachable_init);
  apply (pstep_ctor System_init shape_A entity_a world_a);
  [solve_shape_ok | vm_compute; reflexivity].

Ltac solve_program_reachable_ab :=
  apply (program_reachable_step system_a system_ab); [solve_program_reachable_a|];
  apply (pstep_ctor system_a shape_B entity_b world_ab);
  [solve_shape_ok | vm_compute; reflexivity].

(** [system_tmp], [system_both] and [system_moved] are reached by
    constructing an object of shape [B], move-constructing a second
    object from it, and destroying the first. *)
Ltac solve_program_reachable_tmp :=
  apply (program_reachable_step System_init system_tmp program_reachable_init);
  apply (pstep_ctor System_init shape_B entity_tmp world_tmp);
  [solve_shape_ok | vm_compute; reflexivity].

Ltac solve_program_reachable_both :=
  apply (program_reachable_step system_tmp system_both); [solve_program_reachable_tmp|];
  apply (pstep_move system_tmp entity_tmp); left.

Ltac solve_program_reachable_moved :=
  apply (program_reachable_step system_both system_moved); [solve_program_reachable_both|];
  apply (pstep_dtor system_both 1%nat entity_tmp world_moved);
  [reflexivity | vm_compute; reflexivity].

Lemma reachable_system_a : reachable system_a.
Proof. solve_reachable_a. Qed.

Lemma reachable_system_ab : reachable system_ab.
Proof. solve_reachable_ab. Qed.

(** After any number of calls of [AllocateID] the counter holds that
    number modulo 2^64, and the first call returned 0. *)
Lemma reachable_after_allocations {V : Type} `{!ValueInit V} (n : nat) :
  ∃ s : System V, reachable s
    ∧ s_next_entity_id (sys_world s) = wrap_u64 (Z.of_nat n)
    ∧ ((0 < n)%nat -> 0 ∈ sys_issued s).
Proof.
  induction n as [|n (s & Hr & Hnext & Hzero)].
  - exists System_init. split_and!; [constructor | done | lia].
  - exists (mkSystem (World_AllocateID (sys_world s)).2 (sys_live s)
              (s_next_entity_id (sys_world s) :: sys_issued s)).
    split_and!.
    + apply (reachable_step s); [done|]. by apply step_AllocateID.
    + simpl. rewrite Hnext. unfold wrap_u64.
      rewrite Z.add_mod_idemp_l by lia. f_equal. lia.
    + intros _. simpl. destruct n as [|n].
      * rewrite Hnext. left.
      * right. apply Hzero. lia.
Qed.

Ltac solve_program_reachable_moved_set :=
  apply (program_reachable_step system_moved system_moved_set);
  [solve_program_reachable_moved|];
  apply (pstep_Set system_moved (Entity_move entity_tmp) 0 5 world_moved_set);
  [by left | by left | vm_compute; reflexivity].

Lemma program_reachable_system_both : program_reachable system_both.
Proof. solve_program_reachable_both. Qed.

Lemma program_reachable_system_moved : program_reachable system_moved.
Proof. solve_program_reachable_moved. Qed.

Lemma program_reachable_system_moved_set : program_reachable system_moved_set.
Proof. solve_program_reachable_moved_set. Qed.

(** C6 fails in two ways. Once 2^64 ids were handed out, the counter is
    back at 0, so the next call returns 0, a value returned before and
    not greater than any value returned before. And once an entity
    object was move-constructed from another, long before the counter
    wraps, two live objects have the same id. *)
Lemma AllocateID_wraps_and_move_shares_id :
  ¬ (∀ s : System Z, reachable s ->
       ∀ p, p ∈ sys_issued s -> p < fst (World_AllocateID (sys_world s)))
  ∧ ¬ (∀ s : System Z, program_reachable s -> before_wrap s ->
         NoDup (m_id <$> sys_live s)).
Proof.
  split.
  - intros Hclaim.
    assert (∃ n : nat, Z.of_nat n = 18446744073709551616) as [n Hn].
    { exists (Z.to_nat 18446744073709551616). apply Z2Nat.id. lia. }
    destruct (reachable_after_allocations (V := Z) n) as (s & Hr & Hnext & Hzero).
    specialize (Hclaim s Hr 0 (Hzero ltac:(lia))).
    unfold World_AllocateID in Hclaim. cbn [fst] in Hclaim.
    rewrite Hnext, Hn in Hclaim. unfold wrap_u64 in Hclaim.
    change (18446744073709551616 mod 2 ^ 64) with 0 in Hclaim. lia.
  - intros Hclaim.
    specialize (Hclaim system_both program_reachable_system_both ltac:(solve_before_wrap)).
    cbn in Hclaim. apply NoDup_cons in Hclaim as [Hnotin _]. apply Hnotin. left.
Qed.

(** After [system_a], any number of calls of [AllocateID] moves the
    counter and nothing else. *)
Lemma reachable_allocations_after_a (n : nat) :
  ∃ s : System Z, reachable s
    ∧ sys_world s = mkWorld (wrap_u64 (1 + Z.of_nat n)) (s_component_trie world_a)
                            (s_component_archetype_map world_a)
                            (s_entity_archetype_map world_a)
    ∧ sys_live s = [entity_a].
Proof.
  induction n as [|n (s & Hr & Hw & Hl)].
  - exists system_a. split_and!; [apply reachable_system_a | done | done].
  - exists (mkSystem (World_AllocateID (sys_world s)).2 (sys_live s)
              (s_next_entity_id (sys_world s) :: sys_issued s)).
    split_and!; [| |done].
    + apply (reachable_step s); [done|]. by apply step_AllocateID.
    + simpl. rewrite Hw. simpl. f_equal. unfold wrap_u64.
      rewrite Z.add_mod_idemp_l by lia. f_equal. lia.
Qed.

(** C1 fails in two ways. Once an entity object was moved: in
    [system_moved] the object that is left is alive and its type has the
    component 0, but the row of its id went with the destructor of the
    object it was made from, and the view over the component 0 yields
    nothing; and after a [Set] through that object only one column of
    its table holds a cell for the id, and iterating the view over both
    components has no result, however many iterations are allowed. And
    once the id counter has wrapped: an entity constructed then gets the
    id 0 of the entity of [system_a], which is still alive, and the view
    over the component 0 yields one tuple for the two live entities. *)
Lemma live_entity_not_yielded :
  ¬ (∀ (s : System Z) Q e, program_reachable s -> before_wrap s ->
       Q ≠ [] -> Forall valid_component Q ->
       e ∈ sys_live s -> (∀ c, c ∈ Q -> has_component (derived_type e) c) ->
       ∃ fuel rows w', view_rows fuel Q (sys_world s) = Some (rows, w')
                       ∧ m_id e ∈ rows.*1)
  ∧ ¬ (∀ (s : System Z) Q, program_reachable s -> before_wrap s ->
         Q ≠ [] -> Forall valid_component Q ->
         ∃ fuel rows w', view_rows fuel Q (sys_world s) = Some (rows, w'))
  ∧ ¬ (∀ (s : System Z) Q, reachable s -> Q ≠ [] -> Forall valid_component Q ->
         ∃ fuel rows w', view_rows fuel Q (sys_world s) = Some (rows, w')
           ∧ length rows
             = length (filter (λ e, Forall (λ c, c ∈ shape_components (derived_type e)) Q)
                              (sys_live s))).
Proof.
  split_and!.
  - intros Hclaim.
    destruct (Hclaim system_moved [0] (Entity_move entity_tmp)
                program_reachable_system_moved ltac:(solve_before_wrap)
                ltac:(discriminate) ltac:(solve_valid_components) ltac:(by left))
      as (fuel & rows & w' & Hrun & Hin).
    { intros c ->%list_elem_of_singleton. left. }
    destruct fuel as [|fuel]; vm_compute in Hrun; [discriminate Hrun|].
    injection Hrun as <- <-. by apply elem_of_nil in Hin.
  - intros Hclaim.
    destruct (Hclaim system_moved_set [0; 1]
                program_reachable_system_moved_set ltac:(solve_before_wrap)
                ltac:(discriminate) ltac:(solve_valid_components))
      as (fuel & rows & w' & Hrun).
    destruct fuel as [|fuel]; vm_compute in Hrun; discriminate Hrun.
  - intros Hclaim.
    assert (∃ n : nat, Z.of_nat n = 18446744073709551615) as [n Hn].
    { exists (Z.to_nat 18446744073709551615). apply Z2Nat.id. lia. }
    destruct (reachable_allocations_after_a n) as ([w live issued] & Hr & Hw & Hl).
    simpl in Hw, Hl. subst w live. rewrite Hn in Hr.
    change (wrap_u64 (1 + 18446744073709551615)) with 0 in Hr.
    set (w0 := mkWorld 0 _ _ _) in Hr.
    assert (Hr' : reachable (mkSystem world_a [mkEntity 0 shape_A; entity_a] (0 :: issued))).
    { apply (reachable_step _ _ Hr).
      apply (step_ctor (mkSystem w0 [entity_a] issued) shape_A (mkEntity 0 shape_A) world_a);
        [solve_shape_ok | vm_compute; reflexivity]. }
    destruct (Hclaim _ [0] Hr' ltac:(discriminate) ltac:(solve_valid_components))
      as (fuel & rows & w' & Hrun & Hlen).
    cbn [sys_world sys_live] in Hrun, Hlen.
    assert (Hcount : length (filter (λ e : Entity Z,
                        Forall (λ c, c ∈ shape_components (derived_type e)) [0])
                        [mkEntity 0 shape_A; entity_a]) = 2%nat).
    { rewrite !filter_cons_True; [done | |]; repeat constructor. }
    rewrite Hcount in Hlen.
    destruct fuel as [|[|fuel]]; vm_compute in Hrun; [discriminate Hrun.. |].
    injection Hrun as <- <-. simpl in Hlen. lia.
Qed.



(** ** The theorems at the small program *)

Lemma ecs_component_mask_bits_witness :
  Forall valid_component [0; 3; 127]
  ∧ (Z.testbit (ecs_component_mask [0; 3; 127]) 127 = true ↔ 127 ∈ [0; 3; 127]).
Proof.
  assert (H : Forall valid_component [0; 3; 127]) by solve_valid_components.
  split; [exact H|].
  apply (ecs_component_mask_bits [0; 3; 127] H). lia.
Defined.

Lemma index_matches_store_keys_witness :
  reachable system_ab
  ∧ s_component_trie (sys_world system_ab)
    = dom (s_component_archetype_map (sys_world system_ab)).
Proof.
  assert (H : reachable system_ab) by solve_reachable_ab.
  split; [exact H|]. exact (index_matches_store_keys system_ab H).
Defined.





Lemma AllocateID_fresh_before_wrap_witness :
  before_wrap system_ab ∧ program_reachable system_ab ∧ reachable system_ab
  ∧ (∀ p, p ∈ sys_issued system_ab -> p < fst (World_AllocateID world_ab))
  ∧ NoDup (m_id <$> sys_live system_ab).
Proof.
  assert (H0 : before_wrap system_ab) by solve_before_wrap.
  assert (H1 : program_reachable system_ab) by solve_program_reachable_ab.
  assert (H2 : reachable system_ab) by solve_reachable_ab.
  split_and!; [exact H0 | exact H1 | exact H2 | |].
  - exact (proj1 (proj1 (AllocateID_fresh_before_wrap system_ab H0) H1)).
  - exact (proj2 (AllocateID_fresh_before_wrap system_ab H0) H2).
Defined.

Lemma components_view_yields_matching_rows_witness :
  reachable system_ab ∧ before_wrap system_ab
  ∧ [0; 1] ≠ [] ∧ Forall valid_component [0; 1]
  ∧ ∃ rows, view_rows 3 [0; 1] world_ab = Some (rows, world_ab)
            ∧ NoDup rows.*1
            ∧ (∀ id, id ∈ rows.*1
                 ↔ ∃ e, e ∈ sys_live system_ab ∧ m_id e = id
                     ∧ ∀ c, c ∈ [0; 1] -> has_component (derived_type e) c).
Proof.
  assert (H1 : reachable system_ab) by solve_reachable_ab.
  assert (H2 : before_wrap system_ab) by solve_before_wrap.
  assert (H3 : [0; 1] ≠ @nil Z) by discriminate.
  assert (H4 : Forall valid_component [0; 1]) by solve_valid_components.
  split_and!; [exact H1 | exact H2 | exact H3 | exact H4 |].
  destruct (components_view_yields_matching_rows system_ab [0; 1] H1 H2 H3 H4)
    as (rows & Hrun & Hnd & _ & _ & Hlive).
  exists rows. split_and!; [| exact Hnd | exact Hlive].
  destruct (decide (length rows < 3)%nat) as [Hlt|Hge]; [exact (Hrun 3%nat Hlt)|].
  exfalso. specialize (Hrun (S (length rows)) ltac:(lia)).
  destruct rows as [|r1 [|r2 [|r3 rows]]]; simpl in Hge; try lia.
  vm_compute in Hrun. discriminate Hrun.
Defined.


(** * Further properties *)

(** ** Component ids *)

(** The ids seen after [k] component types: 0, ..., k-1. *)
Lemma elem_of_first_ids (k : nat) (i : Z) :
  i ∈ (list_to_set (Z.of_nat <$> seq 0 k) : gset Z) ↔ 0 <= i < Z.of_nat k.
Proof.
  rewrite elem_of_list_to_set, list_elem_of_fmap. split.
  - intros (j & -> & Hj). apply elem_of_seq in Hj. lia.
  - intros Hi. exists (Z.to_nat i). split; [lia|]. apply elem_of_seq. lia.
Qed.

Lemma ecs_component_id_first_free (depth : nat) (j k : Z) (D : gset Z) :
  (∀ i, i ∈ D ↔ 0 <= i < k) ->
  0 <= j <= k -> k < 2 ^ 64 -> k - j < Z.of_nat depth ->
  ecs_component_id depth j D = Some (k, {[ k ]} ∪ D).
Proof.
  intros HD. revert j. induction depth as [|depth IH]; intros j Hj Hk Hd; [lia|].
  cbn [ecs_component_id]. unfold Counter_exists. case_bool_decide as Hin.
  - apply HD in Hin. unfold wrap_u64. rewrite Z.mod_small by lia.
    apply IH; lia.
  - assert (j = k) as -> by (rewrite HD in Hin; lia). done.
Qed.

Lemma component_traits_next (depth k : nat) :
  (k < depth)%nat -> (k <= 128)%nat ->
  component_traits depth (list_to_set (Z.of_nat <$> seq 0 k))
  = if decide (k < 128)%nat
    then Instantiated (Z.of_nat k, list_to_set (Z.of_nat <$> seq 0 (S k)))
    else StaticAssertFailed.
Proof.
  intros Hd Hk. unfold component_traits.
  rewrite (ecs_component_id_first_free depth 0 (Z.of_nat k));
    [| apply elem_of_first_ids | lia | lia | lia].
  unfold kMaxComponents. case_decide.
  - rewrite bool_decide_eq_true_2 by lia. do 2 f_equal.
    apply set_eq. intros i.
    rewrite elem_of_union, elem_of_singleton, !elem_of_first_ids. lia.
  - by rewrite bool_decide_eq_false_2 by lia.
Qed.

Lemma declare_components_from (depth n k : nat) :
  (128 < depth)%nat -> (k <= 128)%nat ->
  declare_components depth n (list_to_set (Z.of_nat <$> seq 0 k))
  = if decide (k + n <= 128)%nat
    then Instantiated (Z.of_nat <$> seq k n, list_to_set (Z.of_nat <$> seq 0 (k + n)))
    else StaticAssertFailed.
Proof.
  intros Hd. revert k. induction n as [|n IH]; intros k Hk.
  - cbn [declare_components]. rewrite Nat.add_0_r.
    by rewrite decide_True by lia.
  - cbn [declare_components]. rewrite component_traits_next by lia.
    case_decide as Hlt.
    + rewrite IH by lia. replace (S k + n)%nat with (k + S n)%nat by lia.
      by case_decide.
    + by rewrite decide_False by lia.
Qed.

(** X1: the component ids are handed out densely from 0. A program
    that names [n] component types gets the ids 0, 1, ..., n-1, in the
    order of their first use and all distinct, as long as [n] is at most
    128; with a 129th component type the static assertion of
    [component_traits] fails. *)
Theorem component_ids_dense (depth n : nat) :
  (128 < depth)%nat ->
  declare_components depth n ∅
  = if decide (n <= 128)%nat
    then Instantiated (Z.of_nat <$> seq 0 n, list_to_set (Z.of_nat <$> seq 0 n))
    else StaticAssertFailed.
Proof.
  intros Hd. exact (declare_components_from depth n 0 Hd ltac:(lia)).
Qed.

(** ** Bitmasks as the identity of a component set *)

Lemma component_bitfield_same_set (cs cs' : list Z) :
  Forall valid_component cs -> Forall valid_component cs' ->
  (∀ c, c ∈ cs ↔ c ∈ cs') -> component_bitfield cs = component_bitfield cs'.
Proof.
  intros Hcs Hcs' Hset. apply Z.bits_inj'. intros i Hi.
  assert (Hlow : ∀ j, 0 <= j < 128 ->
    Z.testbit (component_bitfield cs) j = Z.testbit (component_bitfield cs') j).
  { intros j Hj. rewrite !component_bitfield_testbit by done.
    apply bool_decide_ext, Hset. }
  destruct (Z_lt_dec i 128) as [Hlt|Hge]; [apply Hlow; lia|].
  rewrite (in_i128_high_bits _ i (component_bitfield_in_i128 cs Hcs)) by lia.
  rewrite (in_i128_high_bits _ i (component_bitfield_in_i128 cs' Hcs')) by lia.
  apply Hlow. lia.
Qed.

(** X2: the mask does not depend on the order or the repetition of the
    components: two tuples of valid component ids have the same
    [ecs_component_mask] exactly when they hold the same components. *)
Theorem ecs_component_mask_identifies_set (cs cs' : list Z) :
  Forall valid_component cs -> Forall valid_component cs' ->
  ecs_component_mask cs = ecs_component_mask cs' ↔ ∀ c, c ∈ cs ↔ c ∈ cs'.
Proof.
  intros Hcs Hcs'. split.
  - intros Heq c. split; intros Hc.
    + by apply (ecs_component_mask_inj cs cs').
    + by apply (ecs_component_mask_inj cs' cs).
  - intros Hset. by apply component_bitfield_same_set.
Qed.

(** X3: on the masks of two tuples of valid component ids, the test
    [(B & Q) == Q] holds exactly when every component of [Q] is a
    component of [B]. *)
Theorem ecs_component_mask_and_is_inclusion (cs Q : list Z) :
  Forall valid_component cs -> Forall valid_component Q ->
  Z.land (ecs_component_mask cs) (ecs_component_mask Q) = ecs_component_mask Q
  ↔ ∀ c, c ∈ Q -> c ∈ cs.
Proof. apply mask_superset. Qed.

Lemma ecs_component_mask_identifies_set_witness :
  Forall valid_component [0; 1] ∧ Forall valid_component [1; 0; 1]
  ∧ ecs_component_mask [0; 1] = ecs_component_mask [1; 0; 1].
Proof.
  assert (H1 : Forall valid_component [0; 1]) by solve_valid_components.
  assert (H2 : Forall valid_component [1; 0; 1]) by solve_valid_components.
  split_and!; [exact H1 | exact H2 |].
  apply (ecs_component_mask_identifies_set [0; 1] [1; 0; 1] H1 H2).
  intros c. rewrite !elem_of_cons. set_solver.
Defined.

Lemma ecs_component_mask_and_is_inclusion_witness :
  Forall valid_component [0; 127] ∧ Forall valid_component [127]
  ∧ Z.land (ecs_component_mask [0; 127]) (ecs_component_mask [127])
    = ecs_component_mask [127].
Proof.
  assert (H1 : Forall valid_component [0; 127]) by solve_valid_components.
  assert (H2 : Forall valid_component [127]) by solve_valid_components.
  split_and!; [exact H1 | exact H2 |].
  apply (ecs_component_mask_and_is_inclusion [0; 127] [127] H1 H2).
  intros c. rewrite !elem_of_cons. set_solver.
Defined.

Lemma component_ids_dense_witness :
  (128 < 200)%nat
  ∧ declare_components 200 3 ∅ = Instantiated ([0; 1; 2], {[ 0; 1; 2 ]}).
Proof.
  assert (H : (128 < 200)%nat) by lia.
  split; [exact H|].
  rewrite (component_ids_dense 200 3 H). vm_compute. reflexivity.
Defined.

(** ** Reading and writing through entities *)

Section EntityAccess.
Context {V : Type} `{!ValueInit V}.
Implicit Types (a : Archetype V) (col : gmap Z V) (c id m : Z) (v : V)
  (S : Shape V) (w : World V) (e : Entity V) (s : System V).

Lemma cell_Some w m c id v :
  cell w m c id = Some v
  ↔ ∃ a col, s_component_archetype_map w !! m = Some a ∧ a !! c = Some col
             ∧ col !! id = Some v.
Proof.
  unfold cell. split.
  - destruct (s_component_archetype_map w !! m) as [a|]; [|done]. simpl.
    destruct (a !! c) as [col|] eqn:Hc; [|done]. simpl. intros Hv.
    by exists a, col.
  - intros (a & col & -> & Hc & Hv). simpl. rewrite Hc. done.
Qed.

(** [Get] through a registered entity returns its cell and leaves the
    world as it is. *)
Lemma Entity_Get_cell w e c v :
  entity_inv w e ->
  cell w (ecs_component_mask (shape_components (derived_type e))) c (m_id e) = Some v ->
  Entity_Get e c w = Some (v, w).
Proof.
  intros He (a & col & Ha & Hc & Hv)%cell_Some.
  eapply Entity_Get_registered; eauto. apply He.
Qed.

Lemma live_entity_has_cell w e c :
  world_inv w -> entity_inv w e -> has_component (derived_type e) c ->
  is_Some (cell w (ecs_component_mask (shape_components (derived_type e))) c (m_id e)).
Proof.
  intros Hw He Hc.
  destruct (live_entity_table w e Hw He) as [a Ha].
  destruct (live_entity_cell w e a c Hw He Ha Hc) as (col & v & Hcol & Hv).
  exists v. apply cell_Some. eauto.
Qed.

(** Live entities are told apart by their ids. *)
Lemma live_entity_by_id s e e' :
  sys_inv s -> e ∈ sys_live s -> e' ∈ sys_live s -> m_id e = m_id e' -> e = e'.
Proof.
  intros Hs He He' Hid. pose proof (si_nodup s Hs) as Hnd.
  apply list_elem_of_lookup in He as [i Hi]. apply list_elem_of_lookup in He' as [j Hj].
  assert (i = j) as ->.
  { apply (NoDup_lookup _ i j (m_id e) Hnd); rewrite list_lookup_fmap.
    - by rewrite Hi.
    - rewrite Hj. simpl. by rewrite Hid. }
  congruence.
Qed.

(** X4: in a program that makes its entity objects with the
    constructor and moves none, before the id counter wraps: for live
    entities [e] and [e'], after [e.Set<c>(v)] the call [e'.Get<c'>()]
    returns [v] when it reads the cell just written (the same entity and
    the same component), and what it returned before the [Set]
    otherwise; in both worlds [Get] returns and leaves the world as it
    is. *)
Theorem Entity_Get_after_Set s e c v e' c' :
  reachable s -> before_wrap s ->
  e ∈ sys_live s -> has_component (derived_type e) c ->
  e' ∈ sys_live s -> has_component (derived_type e') c' ->
  ∃ w' old, Entity_Set e c v (sys_world s) = Some w'
    ∧ Entity_Get e' c' (sys_world s) = Some (old, sys_world s)
    ∧ Entity_Get e' c' w'
      = Some (if bool_decide (m_id e' = m_id e ∧ c' = c) then v else old, w').
Proof.
  intros Hr Hb He Hc He' Hc'.
  pose proof (reachable_sys_inv s Hr Hb) as Hs.
  pose proof (si_world s Hs) as Hw.
  pose proof (si_live s Hs e He) as Hei. pose proof (si_live s Hs e' He') as Hei'.
  set (m := ecs_component_mask (shape_components (derived_type e))).
  set (m' := ecs_component_mask (shape_components (derived_type e'))).
  destruct (live_entity_has_cell _ e' c' Hw Hei' Hc') as [old Hold].
  exists (cell_updated m c (m_id e) v (sys_world s)), old. split_and!.
  - by apply Entity_Set_live.
  - by apply Entity_Get_cell.
  - apply Entity_Get_cell; [by apply entity_inv_cell_updated|].
    case_bool_decide as Hsame.
    + destruct Hsame as [Hid ->].
      assert (e' = e) as -> by (by apply (live_entity_by_id s e' e)).
      destruct (live_entity_table _ e Hw Hei) as [a Ha].
      destruct (live_entity_cell _ e a c Hw Hei Ha Hc) as (col & v0 & Hcol & _).
      by apply (cell_cell_updated_eq m c (m_id e) v _ a col).
    + rewrite cell_cell_updated_ne; [done|].
      intros [= Hm Hcc Hid]. by apply Hsame.
Qed.

End EntityAccess.

Lemma Entity_Get_after_Set_witness :
  reachable system_ab ∧ before_wrap system_ab
  ∧ entity_b ∈ sys_live system_ab ∧ has_component (derived_type entity_b) 0
  ∧ entity_a ∈ sys_live system_ab ∧ has_component (derived_type entity_a) 0
  ∧ ∃ w', Entity_Set entity_b 0 5 world_ab = Some w'
          ∧ Entity_Get entity_a 0 w' = Some (0, w').
Proof.
  assert (H1 : reachable system_ab) by solve_reachable_ab.
  assert (H2 : before_wrap system_ab) by solve_before_wrap.
  assert (H3 : entity_b ∈ sys_live system_ab) by (by left).
  assert (H4 : has_component (derived_type entity_b) 0) by (by left).
  assert (H5 : entity_a ∈ sys_live system_ab) by (right; left).
  assert (H6 : has_component (derived_type entity_a) 0) by (by left).
  split_and!; [exact H1 | exact H2 | exact H3 | exact H4 | exact H5 | exact H6 |].
  destruct (Entity_Get_after_Set system_ab entity_b 0 5 entity_a 0 H1 H2 H3 H4 H5 H6)
    as (w' & old & Hset & Hold & Hget).
  exists w'. split; [exact Hset|].
  rewrite Hget. vm_compute in Hold. injection Hold as <-.
  rewrite bool_decide_eq_false_2; [reflexivity|].
  intros [Heq _]. discriminate Heq.
Defined.

(** ** The shape of the tables *)

Section Tables.
Context {V : Type} `{!ValueInit V}.
Implicit Types (a : Archetype V) (col : gmap Z V) (c id m : Z) (v : V)
  (S : Shape V) (w : World V) (e : Entity V) (s : System V).

(** X5: in a program that makes its entity objects with the
    constructor and moves none, before the id counter wraps, the columns
    of a table hold the same entity ids: what [add_row] inserts into,
    and [drop_row] erases from, every column at once stays a row. *)
Theorem sibling_columns_same_keys s m c1 c2 K1 K2 :
  reachable s -> before_wrap s ->
  column_keys (sys_world s) m c1 = Some K1 ->
  column_keys (sys_world s) m c2 = Some K2 ->
  K1 = K2.
Proof.
  intros Hr Hb H1 H2. pose proof (si_world s (reachable_sys_inv s Hr Hb)) as Hw.
  unfold column_keys in H1, H2.
  destruct (s_component_archetype_map (sys_world s) !! m) as [a|] eqn:Ha; [|done].
  simpl in H1, H2.
  destruct (a !! c1) as [col1|] eqn:Hc1; [|done].
  destruct (a !! c2) as [col2|] eqn:Hc2; [|done].
  simpl in H1, H2. injection H1 as <-. injection H2 as <-.
  by apply (wi_lockstep _ Hw m a c1 c2).
Qed.

(** X6: in every reachable state (before the id counter wraps) the
    table stored under a bitmask has a column for component id [c]
    exactly when [c] is below 128 and bit [c] of the bitmask is set. *)
Theorem table_columns_are_mask_bits s m a c :
  reachable s -> before_wrap s ->
  s_component_archetype_map (sys_world s) !! m = Some a ->
  is_Some (a !! c) ↔ valid_component c ∧ Z.testbit m c = true.
Proof.
  intros Hr Hb Ha. pose proof (si_world s (reachable_sys_inv s Hr Hb)) as Hw.
  destruct (wi_columns _ Hw m a Ha) as (cs & Hcs & -> & Hcols).
  rewrite Hcols. unfold ecs_component_mask. split.
  - intros Hc. assert (valid_component c) as Hv.
    { rewrite Forall_forall in Hcs. by apply Hcs. }
    split; [done|]. rewrite component_bitfield_testbit by done.
    by apply bool_decide_eq_true_2.
  - intros [Hv Hbit]. rewrite component_bitfield_testbit in Hbit by done.
    by apply bool_decide_eq_true_1 in Hbit.
Qed.

(** X7: in a program that makes its entity objects with the
    constructor and moves none, before the id counter wraps, a live
    entity is registered under the mask of its shape, the table under
    that mask has a cell for it in the column of every component of the
    shape, and no other table has a cell for it. *)
Theorem live_entity_has_one_row s e :
  reachable s -> before_wrap s -> e ∈ sys_live s ->
  let w := sys_world s in
  let m := ecs_component_mask (shape_components (derived_type e)) in
  s_entity_archetype_map w !! m_id e = Some m
  ∧ (∀ c, has_component (derived_type e) c -> is_Some (cell w m c (m_id e)))
  ∧ (∀ m' c, is_Some (cell w m' c (m_id e)) -> m' = m ∧ has_component (derived_type e) c).
Proof.
  intros Hr Hb He w m. pose proof (reachable_sys_inv s Hr Hb) as Hs.
  pose proof (si_world s Hs) as Hw. pose proof (si_live s Hs e He) as Hei.
  split_and!.
  - apply Hei.
  - intros c Hc. by apply live_entity_has_cell.
  - intros m' c [v (a & col & Ha & Hc & Hv)%cell_Some].
    pose proof (wi_owner _ Hw m' a c col (m_id e) Ha Hc (elem_of_dom_2 _ _ _ Hv)) as Hreg.
    rewrite (ei_registered _ _ Hei) in Hreg. injection Hreg as <-.
    split; [done|].
    apply (table_columns_shape _ _ a c Hw (ei_shape _ _ Hei) Ha). eauto.
Qed.

Lemma cell_unregistered_eq S id w m c :
  world_inv w -> shape_ok S ->
  s_entity_archetype_map w !! id = Some (ecs_component_mask (shape_components S)) ->
  cell (unregistered S id (ecs_component_mask (shape_components S)) w) m c id = None.
Proof.
  intros Hw HS Hreg. unfold cell, unregistered. simpl.
  rewrite lookup_alter. case_decide as Hm.
  - subst m.
    destruct (s_component_archetype_map w !! _) as [a|] eqn:Ha; [|done]. simpl.
    rewrite lookup_rows_erase. destruct (a !! c) as [col|] eqn:Hc; [|done]. simpl.
    rewrite bool_decide_eq_true_2; [apply lookup_delete_eq|].
    apply (table_columns_shape w S a c Hw HS Ha). eauto.
  - destruct (s_component_archetype_map w !! m) as [a|] eqn:Ha; [|done]. simpl.
    destruct (a !! c) as [col|] eqn:Hc; [|done]. simpl.
    destruct (col !! id) as [v|] eqn:Hv; [|done]. exfalso.
    pose proof (wi_owner w Hw m a c col id Ha Hc (elem_of_dom_2 _ _ _ Hv)). congruence.
Qed.

(** X8: after a live entity is destroyed, no column of any table has a
    cell keyed by its id. *)
Theorem Entity_dtor_leaves_no_cell s e :
  reachable s -> before_wrap s -> e ∈ sys_live s ->
  ∃ w', Entity_dtor e (sys_world s) = Some w'
    ∧ ∀ m c, cell w' m c (m_id e) = None.
Proof.
  intros Hr Hb He. pose proof (reachable_sys_inv s Hr Hb) as Hs.
  pose proof (si_world s Hs) as Hw. pose proof (si_live s Hs e He) as Hei.
  eexists. split; [by apply Entity_dtor_live|].
  intros m c. apply cell_unregistered_eq; [done | apply Hei | apply Hei].
Qed.

Lemma rows_erase_idemp (cs : list Z) id a :
  rows_erase cs id (rows_erase cs id a) = rows_erase cs id a.
Proof.
  apply map_eq. intros c. rewrite !lookup_rows_erase.
  destruct (a !! c) as [col|]; [|done]. simpl.
  case_bool_decide; [|done]. by rewrite delete_delete_eq.
Qed.

(** X9: running the destructor a second time for the same entity (as
    happens for the two objects a move leaves behind) changes nothing:
    the id is still registered, and erasing its absent cells is a no-op. *)
Theorem Entity_dtor_twice s e :
  reachable s -> before_wrap s -> e ∈ sys_live s ->
  ∃ w', Entity_dtor e (sys_world s) = Some w' ∧ Entity_dtor e w' = Some w'.
Proof.
  intros Hr Hb He. pose proof (reachable_sys_inv s Hr Hb) as Hs.
  pose proof (si_world s Hs) as Hw. pose proof (si_live s Hs e He) as Hei.
  set (m := ecs_component_mask (shape_components (derived_type e))).
  exists (unregistered (derived_type e) (m_id e) m (sys_world s)).
  split; [by apply Entity_dtor_live|].
  unfold Entity_dtor. rewrite World_Unregister_unregistered.
  - f_equal. unfold unregistered. simpl. f_equal. apply map_eq. intros m'.
    destruct (decide (m = m')) as [<-|Hne].
    + rewrite !lookup_alter_eq.
      destruct (s_component_archetype_map (sys_world s) !! m); [|done]. simpl.
      by rewrite rows_erase_idemp.
    + by rewrite !lookup_alter_ne.
  - apply world_inv_unregistered; [done | apply Hei].
  - apply Hei.
  - apply Hei.
Qed.

(** X10: in any program, one that moves entity objects included, no
    operation takes anything away from the index, the store's keys or
    the registry's keys: along every step the trie, the key set of the
    store and the key set of the registry only grow; and while fewer
    than 2^64 ids have been handed out every registry entry stays as it
    is. *)
Theorem program_step_only_grows s s' :
  program_reachable s -> program_step s s' ->
  s_component_trie (sys_world s) ⊆ s_component_trie (sys_world s')
  ∧ dom (s_component_archetype_map (sys_world s))
    ⊆ dom (s_component_archetype_map (sys_world s'))
  ∧ dom (s_entity_archetype_map (sys_world s))
    ⊆ dom (s_entity_archetype_map (sys_world s'))
  ∧ (before_wrap s' ->
     s_entity_archetype_map (sys_world s) ⊆ s_entity_archetype_map (sys_world s')).
Proof.
  intros Hr Hstep. pose proof (program_reachable_index_inv s Hr) as Hs.
  assert (Hregistry :
    dom (s_entity_archetype_map (sys_world s)) ⊆ dom (s_entity_archetype_map (sys_world s'))
    ∧ (before_wrap s' ->
       s_entity_archetype_map (sys_world s) ⊆ s_entity_archetype_map (sys_world s'))).
  { destruct (program_step_registry s s' Hs Hstep) as [-> | (m & -> & Hiss)]; [done|].
    split; [rewrite fhm_insert_dom; set_solver|].
    intros Hb.
    assert (Hfresh : s_entity_archetype_map (sys_world s) !! s_next_entity_id (sys_world s)
                     = None).
    { destruct (s_entity_archetype_map (sys_world s) !! s_next_entity_id (sys_world s))
        as [m'|] eqn:Hn; [exfalso | done].
      assert (Hb0 : before_wrap s).
      { unfold before_wrap in *. rewrite Hiss in Hb. simpl in Hb. lia. }
      pose proof (program_reachable_registered_issued s _ Hr (mk_is_Some _ _ Hn)) as Hin.
      pose proof (program_reachable_issued_below s _ Hr Hb0 Hin). lia. }
    rewrite (fhm_insert_fresh _ _ _ Hfresh). by apply insert_subseteq. }
  assert (Hsame : ∀ w' : World V,
    s_component_trie w' = s_component_trie (sys_world s)
    ∧ dom (s_component_archetype_map w') = dom (s_component_archetype_map (sys_world s))
    ∧ s_entity_archetype_map w' = s_entity_archetype_map (sys_world s) ->
    s_component_trie (sys_world s) ⊆ s_component_trie w'
    ∧ dom (s_component_archetype_map (sys_world s)) ⊆ dom (s_component_archetype_map w')).
  { intros w' (-> & -> & _). done. }
  rewrite (assoc and). split; [|exact Hregistry]. clear Hregistry.
  destruct Hstep as [s id w' Hal | s S e w' HS Hctor | s e He | s e c v w' He Hc Hget
                | s e c v w' He Hc Hset | s e c b w' He Hc Hhas | s i e w' He Hd];
    cbn [sys_world].
  - unfold World_AllocateID in Hal. injection Hal as <- <-. by apply Hsame.
  - unfold Entity_ctor in Hctor. simpl in Hctor.
    destruct (World_Register _ S _ _) as [w2|] eqn:Hreg; [|done].
    simpl in Hctor. injection Hctor as <- <-.
    apply World_Register_index in Hreg as (Ht & Hd & _). simpl in Ht, Hd.
    rewrite Ht, Hd. split.
    + destruct (_ !! _); set_solver.
    + set_solver.
  - done.
  - destruct (ii_live s Hs e He) as [m Hm]. apply Hsame.
    apply (Entity_Get_index e c _ v w' m Hm); [|done]. by apply (ii_registered s Hs (m_id e)).
  - destruct (ii_live s Hs e He) as [m Hm]. apply Hsame.
    apply (Entity_Set_index e c v _ w' m Hm); [|done]. by apply (ii_registered s Hs (m_id e)).
  - destruct (ii_live s Hs e He) as [m Hm].
    rewrite (Entity_HasComponent_registered e c _ m Hm) in Hhas. injection Hhas as <- <-.
    by apply Hsame.
  - apply list_elem_of_lookup_2 in He as He'.
    destruct (ii_live s Hs e He') as [m Hm]. apply Hsame.
    apply (Entity_dtor_index e _ w' m Hm); [|done]. by apply (ii_registered s Hs (m_id e)).
Qed.

(** X21: in any program, one that moves entity objects included, and
    whether or not the id counter has wrapped, the bitmasks held by the
    archetype index are exactly the keys of the store, the mask of every
    registered id has a table, and the id of every live entity object is
    registered. *)
Theorem program_index_matches_store_keys s :
  program_reachable s ->
  s_component_trie (sys_world s) = dom (s_component_archetype_map (sys_world s))
  ∧ (∀ id m, s_entity_archetype_map (sys_world s) !! id = Some m ->
       is_Some (s_component_archetype_map (sys_world s) !! m))
  ∧ (∀ e, e ∈ sys_live s -> is_Some (s_entity_archetype_map (sys_world s) !! m_id e)).
Proof.
  intros Hr. pose proof (program_reachable_index_inv s Hr) as Hs.
  split_and!; apply Hs.
Qed.

End Tables.

(** ** Construction, destruction and the cells *)

Section Lifecycle.
Context {V : Type} `{!ValueInit V}.
Implicit Types (a : Archetype V) (col : gmap Z V) (c id m : Z) (v : V)
  (S : Shape V) (w : World V) (e : Entity V) (s : System V).

Lemma cell_registered_ne S id w m c id' :
  id' ≠ id -> cell (registered S id w) m c id' = cell w m c id'.
Proof.
  intros Hne. unfold cell, registered. simpl.
  rewrite lookup_insert. case_decide as Hm; [|done]. subst m. cbn [mbind option_bind].
  rewrite lookup_rows_insert.
  destruct (s_component_archetype_map w !! _) as [a|] eqn:Ha.
  - change (default (Archetype_new (shape_components S)) (Some a)) with a.
    cbn [mbind option_bind].
    destruct (a !! c) as [col|]; [|done]. cbn [fmap option_fmap option_map mbind option_bind].
    destruct (bool_decide (c ∈ shape_components S)); [|done]. by rewrite lookup_insert_ne.
  - change (default (Archetype_new (shape_components S)) None)
      with (Archetype_new (V := V) (shape_components S)).
    cbn [mbind option_bind]. rewrite lookup_Archetype_new.
    destruct (bool_decide (c ∈ shape_components S)); [|done].
    cbn [fmap option_fmap option_map mbind option_bind]. by rewrite lookup_insert_ne.
Qed.

Lemma cell_fresh w m c id :
  world_inv w -> s_entity_archetype_map w !! id = None -> cell w m c id = None.
Proof.
  intros Hw Hfresh. destruct (cell w m c id) as [v|] eqn:Hcell; [|done].
  apply cell_Some in Hcell as (a & col & Ha & Hc & Hv).
  pose proof (wi_owner w Hw m a c col id Ha Hc (elem_of_dom_2 _ _ _ Hv)). congruence.
Qed.

Lemma cell_registered_eq S id w m c :
  world_inv w -> shape_ok S -> s_entity_archetype_map w !! id = None ->
  cell (registered S id w) m c id
  = if bool_decide (m = ecs_component_mask (shape_components S) ∧ c ∈ shape_components S)
    then Some (cell_default S c) else None.
Proof.
  intros Hw HS Hfresh. unfold cell. cbn [registered s_component_archetype_map].
  rewrite lookup_insert. case_decide as Hm.
  - subst m. cbn [mbind option_bind].
    rewrite (lookup_registered_table S id w c Hw HS).
    pose proof (target_table_columns w S c Hw HS) as Hcols.
    destruct (default _ _ !! c) as [col|] eqn:Hc; simpl.
    + rewrite lookup_insert_eq. rewrite bool_decide_eq_true_2; [done|].
      split; [done|]. apply Hcols. eauto.
    + rewrite bool_decide_eq_false_2; [done|]. intros [_ Hin].
      apply Hcols in Hin. by destruct Hin.
  - rewrite bool_decide_eq_false_2 by (intros [? _]; congruence).
    by apply (cell_fresh w m c id).
Qed.

(** X11: constructing an entity of a valid shape [S] (before the id
    counter wraps) takes the counter's value as id, registers it under
    the mask of [S], gives it a cell holding the default in the column of
    every component of [S] in the table of that mask and in no other
    column, adds the mask to the index and to the store's keys, and
    leaves every cell of every other entity as it was. *)
Theorem Entity_ctor_frame s S :
  reachable s -> before_wrap s -> shape_ok S ->
  let w := sys_world s in
  let mask := ecs_component_mask (shape_components S) in
  ∃ e w', Entity_ctor S w = Some (e, w')
    ∧ m_id e = s_next_entity_id w ∧ derived_type e = S
    ∧ (∀ m c id', id' ≠ m_id e -> cell w' m c id' = cell w m c id')
    ∧ (∀ m c, cell w' m c (m_id e)
              = if bool_decide (m = mask ∧ c ∈ shape_components S)
                then Some (cell_default S c) else None)
    ∧ s_entity_archetype_map w' = <[m_id e := mask]> (s_entity_archetype_map w)
    ∧ dom (s_component_archetype_map w') = {[ mask ]} ∪ dom (s_component_archetype_map w)
    ∧ s_component_trie w' = {[ mask ]} ∪ s_component_trie w.
Proof.
  intros Hr Hb HS w mask. pose proof (reachable_sys_inv s Hr Hb) as Hs.
  pose proof (si_world s Hs) as Hw. pose proof (sys_inv_fresh s Hs) as Hfresh.
  set (w1 := (World_AllocateID w).2).
  assert (Hw1 : world_inv w1) by by apply world_inv_AllocateID.
  exists (mkEntity (s_next_entity_id w) S), (registered S (s_next_entity_id w) w1).
  split_and!; [by apply Entity_ctor_registered | done | done | | | done | | done].
  - intros m c id' Hne. by rewrite cell_registered_ne.
  - intros m c. by apply cell_registered_eq.
  - simpl. by rewrite dom_insert_L.
Qed.

(** X12: constructing an entity and destroying it again (before the id
    counter wraps) leaves every table that was in the store exactly as
    it was, and every cell of the world as before the construction. *)
Theorem Entity_ctor_dtor_round_trip s S :
  reachable s -> before_wrap s -> shape_ok S ->
  let w := sys_world s in
  ∃ e w' w'', Entity_ctor S w = Some (e, w') ∧ Entity_dtor e w' = Some w''
    ∧ (∀ m a, s_component_archetype_map w !! m = Some a ->
              s_component_archetype_map w'' !! m = Some a)
    ∧ (∀ m c id, cell w'' m c id = cell w m c id).
Proof.
  intros Hr Hb HS w. pose proof (reachable_sys_inv s Hr Hb) as Hs.
  pose proof (si_world s Hs) as Hw. pose proof (sys_inv_fresh s Hs) as Hfresh.
  set (id := s_next_entity_id w). set (w1 := (World_AllocateID w).2).
  set (mask := ecs_component_mask (shape_components S)).
  assert (Hw1 : world_inv w1) by by apply world_inv_AllocateID.
  assert (Hw' : world_inv (registered S id w1)) by by apply world_inv_registered.
  assert (Hcells : ∀ m c id',
    cell (unregistered S id mask (registered S id w1)) m c id' = cell w m c id').
  { intros m c id'. unfold mask. destruct (decide (id' = id)) as [->|Hne].
    - rewrite cell_unregistered_eq; [| done | done | apply lookup_insert_eq].
      symmetry. by apply cell_fresh.
    - rewrite cell_unregistered_ne, cell_registered_ne by done. done. }
  exists (mkEntity id S), (registered S id w1), (unregistered S id mask (registered S id w1)).
  split_and!.
  - by apply Entity_ctor_registered.
  - unfold Entity_dtor. cbn [m_id derived_type].
    apply (World_Unregister_unregistered id S (registered S id w1) Hw' HS).
    apply lookup_insert_eq.
  - intros m a Ha.
    cbn [unregistered registered s_component_archetype_map].
    change (s_component_archetype_map w1) with (s_component_archetype_map w).
    fold mask. destruct (decide (mask = m)) as [<-|Hm];
      [|by rewrite lookup_alter_ne, lookup_insert_ne].
    rewrite lookup_alter_eq, lookup_insert_eq. cbn [fmap option_fmap option_map]. f_equal.
    rewrite Ha.
    change (default (Archetype_new (shape_components S)) (Some a)) with a.
    apply map_eq. intros c. rewrite lookup_rows_erase, lookup_rows_insert.
    destruct (a !! c) as [col|] eqn:Hc; [|done]. simpl. f_equal.
    case_bool_decide; [|done].
    rewrite delete_insert_eq. apply delete_id.
    destruct (col !! id) as [v|] eqn:Hv; [|done]. exfalso.
    pose proof (wi_owner w Hw mask a c col id Ha Hc (elem_of_dom_2 _ _ _ Hv)) as Hown.
    change (s_entity_archetype_map w !! id = None) in Hfresh.
    rewrite Hfresh in Hown. discriminate Hown.
  - apply Hcells.
Qed.

End Lifecycle.

(** ** The id counter *)

Section Counter.
Context {V : Type} `{!ValueInit V}.
Implicit Types (a : Archetype V) (col : gmap Z V) (c id m : Z) (v : V)
  (S : Shape V) (w : World V) (e : Entity V) (s : System V).

(** X15: the id counter counts the allocations modulo 2^64, in every
    reachable state and whatever else the program did: after [n] ids
    were handed out, by [AllocateID] itself or by constructors, the next
    one is [n mod 2^64], and no other operation moves the counter. *)
Theorem AllocateID_counts_modulo s :
  reachable s ->
  fst (World_AllocateID (sys_world s)) = Z.of_nat (length (sys_issued s)) mod 2 ^ 64.
Proof.
  intros Hr. simpl. change (s_next_entity_id (sys_world s)
                            = wrap_u64 (Z.of_nat (length (sys_issued s)))).
  induction Hr as [|s s' Hr IH Hstep]; [done|].
  destruct Hstep as [s id w' Hal | s S e w' HS Hctor | s e c v w' He Hc Hget
                | s e c v w' He Hc Hset | s e c b w' He Hc Hhas | s e w' He Hd];
    cbn [sys_world sys_issued length].
  - unfold World_AllocateID in Hal. injection Hal as <- <-. simpl.
    rewrite IH. apply wrap_u64_succ.
  - apply Entity_ctor_next in Hctor as [_ ->]. rewrite IH. apply wrap_u64_succ.
  - by rewrite (Entity_Get_next _ _ _ _ _ Hget).
  - by rewrite (Entity_Set_next _ _ _ _ _ Hset).
  - pose proof (Entity_HasComponent_next e c (sys_world s)) as Hn.
    rewrite Hhas in Hn. simpl in Hn. by rewrite Hn.
  - by rewrite (Entity_dtor_next _ _ _ Hd).
Qed.

End Counter.

(** ** Views and the entities *)

Section ViewEntities.
Context {V : Type} `{!ValueInit V}.
Implicit Types (a : Archetype V) (col : gmap Z V) (c id m : Z) (v : V)
  (Q : list Z) (S : Shape V) (w : World V) (e : Entity V) (s : System V).

(** What a view over [Q] yields in the world of [s]. *)
Lemma view_rows_run s Q fuel :
  sys_inv s -> Forall valid_component Q -> Q ≠ [] ->
  (length (tables_rows Q (sys_world s) (components_view Q (sys_world s))) < fuel)%nat ->
  view_rows fuel Q (sys_world s)
  = Some (tables_rows Q (sys_world s) (components_view Q (sys_world s)), sys_world s).
Proof.
  intros Hs HQ Hne Hfuel. apply view_rows_tables; [done | | done].
  apply components_view_lockstep; [apply Hs | done].
Qed.

(** The entities a view yields are the live entities whose shape has the
    components of [Q]. *)
Lemma view_ids_live s Q id :
  sys_inv s -> Forall valid_component Q -> Q ≠ [] ->
  id ∈ (tables_rows Q (sys_world s) (components_view Q (sys_world s))).*1
  ↔ ∃ e, e ∈ sys_live s ∧ m_id e = id
      ∧ ∀ c, c ∈ Q -> has_component (derived_type e) c.
Proof.
  intros Hs HQ Hne. pose proof (si_world s Hs) as Hw. split.
  - intros ([id' refs] & Heq' & Hin)%list_elem_of_fmap. simpl in Heq'. subst id'.
    apply (view_rows_elem _ Q _ refs Hw HQ Hne) in Hin
      as (m & a & Ha & Hland & Hrow & _).
    destruct (si_rows s Hs m a id Ha Hrow) as (e & He & Heq).
    exists e. split_and!; [done..|].
    pose proof (si_live s Hs e He) as Hei.
    destruct Hrow as (c & col & Hc & Hid).
    pose proof (wi_owner _ Hw m a c col _ Ha Hc Hid) as Hreg.
    pose proof (ei_registered _ _ Hei) as Hreg2. rewrite Heq in Hreg2.
    rewrite Hreg2 in Hreg. injection Hreg as <-.
    apply (mask_superset _ Q); [apply (ei_shape _ _ Hei) | done | done].
  - intros (e & He & <- & Hsub).
    pose proof (si_live s Hs e He) as Hei.
    destruct (live_entity_table _ e Hw Hei) as [a Ha].
    apply (view_rows_entity _ Q _ a (m_id e) Hw HQ Hne Ha).
    + destruct Q as [|c0 Q']; [done|].
      destruct (live_entity_cell _ e a c0 Hw Hei Ha (Hsub c0 ltac:(by left)))
        as (col & v & Hcol & Hv).
      exists c0, col. split; [done|]. by apply elem_of_dom_2 in Hv.
    + apply (mask_superset _ Q); [apply (ei_shape _ _ Hei) | done | done].
Qed.

(** X16: in a program that makes its entity objects with the
    constructor and moves none, before the id counter wraps, a view over
    a non-empty [Q] yields as many tuples as there are live entities
    whose shape has every component of [Q]. *)
Theorem view_row_count s Q :
  reachable s -> before_wrap s -> Q ≠ [] -> Forall valid_component Q ->
  ∃ rows, (∀ fuel, (length rows < fuel)%nat ->
             view_rows fuel Q (sys_world s) = Some (rows, sys_world s))
    ∧ length rows
      = length (filter (λ e, Forall (λ c, c ∈ shape_components (derived_type e)) Q)
                       (sys_live s)).
Proof.
  intros Hr Hb Hne HQ. pose proof (reachable_sys_inv s Hr Hb) as Hs.
  exists (tables_rows Q (sys_world s) (components_view Q (sys_world s))). split.
  - intros fuel Hfuel. by apply view_rows_run.
  - rewrite <- (length_fmap fst).
    rewrite <- (length_fmap m_id (filter _ _)).
    apply Permutation_length, NoDup_Permutation.
    + apply NoDup_tables_rows; [apply Hs | done.. | apply components_view_NoDup | done].
    + apply NoDup_fmap_filter, Hs.
    + intros id. rewrite (view_ids_live s Q id Hs HQ Hne), list_elem_of_fmap. split.
      * intros (e & He & <- & Hsub). exists e. split; [done|].
        apply list_elem_of_filter. split; [|done]. apply Forall_forall, Hsub.
      * intros (e & -> & [HP He]%list_elem_of_filter). exists e.
        split_and!; [done..|]. by apply Forall_forall.
Qed.

(** X17: the references of the tuple a view yields for a live entity
    hold what [Get] returns for that entity, component by component. *)
Theorem view_refs_are_Get s Q e refs :
  reachable s -> before_wrap s -> Q ≠ [] -> Forall valid_component Q ->
  e ∈ sys_live s ->
  ∃ rows, (∀ fuel, (length rows < fuel)%nat ->
             view_rows fuel Q (sys_world s) = Some (rows, sys_world s))
    ∧ ((m_id e, refs) ∈ rows ->
       Forall2 (λ c r, Entity_Get e c (sys_world s) = Some (r, sys_world s)) Q refs).
Proof.
  intros Hr Hb Hne HQ He. pose proof (reachable_sys_inv s Hr Hb) as Hs.
  pose proof (si_world s Hs) as Hw. pose proof (si_live s Hs e He) as Hei.
  exists (tables_rows Q (sys_world s) (components_view Q (sys_world s))). split.
  - intros fuel Hfuel. by apply view_rows_run.
  - intros (m & a & Ha & _ & (c0 & col0 & Hc0 & Hid) & Hcells)%view_rows_elem;
      [|done..].
    pose proof (wi_owner _ Hw m a c0 col0 _ Ha Hc0 Hid) as Hreg.
    rewrite (ei_registered _ _ Hei) in Hreg. injection Hreg as <-.
    apply (Forall2_impl _ _ _ _ Hcells). intros c r Hcell.
    by apply Entity_Get_cell.
Qed.

(** X18: constructing an entity of shape [S] adds it to the views whose
    components [S] has, and changes no other view: the entities a view
    over [Q] yields afterwards are those it yielded before and, when
    every component of [Q] is in [S], the new entity. *)
Theorem view_after_ctor s S Q :
  reachable s -> Z.of_nat (length (sys_issued s)) + 1 < 2 ^ 64 ->
  shape_ok S -> Q ≠ [] -> Forall valid_component Q ->
  ∃ e w' rows rows', Entity_ctor S (sys_world s) = Some (e, w')
    ∧ (∀ fuel, (length rows < fuel)%nat ->
         view_rows fuel Q (sys_world s) = Some (rows, sys_world s))
    ∧ (∀ fuel, (length rows' < fuel)%nat -> view_rows fuel Q w' = Some (rows', w'))
    ∧ ∀ id, id ∈ rows'.*1
        ↔ id ∈ rows.*1 ∨ (id = m_id e ∧ ∀ c, c ∈ Q -> has_component S c).
Proof.
  intros Hr Hlen HS Hne HQ.
  assert (Hb : before_wrap s) by (unfold before_wrap; lia).
  pose proof (reachable_sys_inv s Hr Hb) as Hs.
  pose proof (sys_inv_ctor s S Hs HS Hlen) as Hs'. cbn zeta in Hs'.
  set (e := mkEntity (s_next_entity_id (sys_world s)) S) in *.
  set (w' := registered S _ _) in *.
  set (s' := mkSystem w' (e :: sys_live s) _) in *.
  exists e, w', (tables_rows Q (sys_world s) (components_view Q (sys_world s))),
         (tables_rows Q w' (components_view Q w')). split_and!.
  - apply Entity_ctor_registered; [apply Hs | done | by apply sys_inv_fresh].
  - intros fuel Hfuel. by apply view_rows_run.
  - intros fuel Hfuel. by apply (view_rows_run s').
  - intros id. pose proof (view_ids_live s' Q id Hs' HQ Hne) as Hnew.
    change (sys_world s') with w' in Hnew.
    rewrite Hnew, (view_ids_live s Q id Hs HQ Hne). cbn [s' sys_live].
    split.
    + intros (e' & [->|He']%elem_of_cons & <- & Hsub).
      * right. done.
      * left. by exists e'.
    + intros [(e' & He' & <- & Hsub) | [-> Hsub]].
      * exists e'. split_and!; [by right | done..].
      * exists e. split_and!; [by left | done..].
Qed.

(** X19: destroying a live entity takes it out of every view and
    changes nothing else in them: the entities a view over [Q] yields
    afterwards are those it yielded before, without the destroyed one. *)
Theorem view_after_dtor s e Q :
  reachable s -> before_wrap s -> e ∈ sys_live s ->
  Q ≠ [] -> Forall valid_component Q ->
  ∃ w' rows rows', Entity_dtor e (sys_world s) = Some w'
    ∧ (∀ fuel, (length rows < fuel)%nat ->
         view_rows fuel Q (sys_world s) = Some (rows, sys_world s))
    ∧ (∀ fuel, (length rows' < fuel)%nat -> view_rows fuel Q w' = Some (rows', w'))
    ∧ ∀ id, id ∈ rows'.*1 ↔ id ∈ rows.*1 ∧ id ≠ m_id e.
Proof.
  intros Hr Hb He Hne HQ.
  pose proof (reachable_sys_inv s Hr Hb) as Hs.
  pose proof (sys_inv_dtor s e Hs He) as Hs'.
  set (w' := unregistered _ _ _ _) in *.
  set (s' := mkSystem w' _ _) in *.
  exists w', (tables_rows Q (sys_world s) (components_view Q (sys_world s))),
         (tables_rows Q w' (components_view Q w')). split_and!.
  - apply Entity_dtor_live; [apply Hs | by apply Hs].
  - intros fuel Hfuel. by apply view_rows_run.
  - intros fuel Hfuel. by apply (view_rows_run s').
  - intros id. pose proof (view_ids_live s' Q id Hs' HQ Hne) as Hnew.
    change (sys_world s') with w' in Hnew.
    rewrite Hnew, (view_ids_live s Q id Hs HQ Hne). cbn [s' sys_live].
    split.
    + intros (e' & [Hid He']%list_elem_of_filter & <- & Hsub).
      split; [by exists e' | done].
    + intros [(e' & He' & <- & Hsub) Hid]. exists e'.
      split_and!; [|done..]. by apply list_elem_of_filter.
Qed.

End ViewEntities.

(** ** An empty view *)

Section ViewEmpty.
Context {V : Type} `{!ValueInit V}.
Implicit Types (Q : list Z) (w : World V) (e : Entity V) (s : System V).

(** X20: in a program that makes its entity objects with the
    constructor and moves none, before the id counter wraps, [begin()]
    and [end()] of a view over a non-empty [Q] are built without
    changing the world, and [begin() == end()] holds exactly when no
    live entity has every component of [Q], that is when the view yields
    nothing. *)
Theorem view_begin_eq_end s Q :
  reachable s -> before_wrap s -> Q ≠ [] -> Forall valid_component Q ->
  ∃ first last, components_view_begin Q (sys_world s) = Some (first, sys_world s)
    ∧ components_view_end Q (sys_world s) = Some (last, sys_world s)
    ∧ (Iterator_eq first last = true
       ↔ ¬ ∃ e, e ∈ sys_live s ∧ ∀ c, c ∈ Q -> has_component (derived_type e) c).
Proof.
  intros Hr Hb Hne HQ. pose proof (reachable_sys_inv s Hr Hb) as Hs.
  set (w := sys_world s).
  set (last := mkContext (V := V) eFinished [] [] ((λ _, []) <$> Q) ((λ _, []) <$> Q)).
  set (rows := tables_rows Q w (components_view Q w)).
  destruct (runs_lockstep_tables Q w last (components_view Q w) Hne eq_refl)
    with (ctx := mkContext (V := V) eBeginArchetype (components_view Q w) []
                   ((λ _, []) <$> Q) ((λ _, []) <$> Q))
    as (first & Hbegin & Hrun).
  { apply components_view_lockstep; [apply Hs | done]. }
  exists first, last. unfold components_view_begin, components_view_end.
  rewrite !(Iterator_ctor_nonempty Q _ _ _ Hne).
  split_and!; [exact Hbegin | done |].
  specialize (Hrun (Datatypes.S (length rows)) ltac:(fold rows; lia)).
  fold rows in Hrun. cbn [iterate_view] in Hrun.
  assert (Hrows : rows = [] ↔
    ¬ ∃ e, e ∈ sys_live s ∧ ∀ c, c ∈ Q -> has_component (derived_type e) c).
  { split.
    - intros Hnil (e & He & Hsub).
      assert (m_id e ∈ rows.*1) as Hin.
      { apply (view_ids_live s Q (m_id e) Hs HQ Hne). by exists e. }
      rewrite Hnil in Hin. by apply elem_of_nil in Hin.
    - intros Hnone. destruct rows as [|[id refs] rows'] eqn:Hrows; [done|].
      exfalso. apply Hnone.
      assert (id ∈ rows.*1) as Hin by (rewrite Hrows; left).
      apply (view_ids_live s Q id Hs HQ Hne) in Hin as (e & He & _ & Hsub).
      by exists e. }
  rewrite <- Hrows. destruct (Iterator_eq first last).
  - injection Hrun as <-. done.
  - split; [done|]. intros Hnil. rewrite Hnil in Hrun.
    destruct (Iterator_deref first); simpl in Hrun; [|done].
    destruct (next_row Q first w) as [[it' w']|]; simpl in Hrun; done.
Qed.

End ViewEmpty.

Lemma view_begin_eq_end_witness :
  reachable system_ab ∧ before_wrap system_ab
  ∧ [1] ≠ [] ∧ Forall valid_component [1]
  ∧ ∃ first last, components_view_begin [1] world_ab = Some (first, world_ab)
      ∧ components_view_end [1] world_ab = Some (last, world_ab)
      ∧ Iterator_eq first last = false.
Proof.
  assert (H1 : reachable system_ab) by solve_reachable_ab.
  assert (H2 : before_wrap system_ab) by solve_before_wrap.
  assert (H3 : [1] ≠ @nil Z) by discriminate.
  assert (H4 : Forall valid_component [1]) by solve_valid_components.
  split_and!; [exact H1 | exact H2 | exact H3 | exact H4 |].
  destruct (view_begin_eq_end system_ab [1] H1 H2 H3 H4)
    as (first & last & Hb & He & Hiff).
  exists first, last. split_and!; [exact Hb | exact He |].
  destruct (Iterator_eq first last); [|reflexivity].
  exfalso. apply (proj1 Hiff eq_refl). exists entity_b. split; [by left|].
  intros c Hc. apply elem_of_cons in Hc as [->|Hc]; [right; left|].
  by apply elem_of_nil in Hc.
Defined.

(** ** The further properties at the small program *)

Lemma sibling_columns_same_keys_witness :
  reachable system_ab ∧ before_wrap system_ab
  ∧ column_keys (sys_world system_ab) 3 0 = Some {[ 1 ]}
  ∧ column_keys (sys_world system_ab) 3 1 = Some {[ 1 ]}
  ∧ ({[ 1 ]} : gset Z) = {[ 1 ]}.
Proof.
  assert (H1 : reachable system_ab) by solve_reachable_ab.
  assert (H2 : before_wrap system_ab) by solve_before_wrap.
  assert (H3 : column_keys (sys_world system_ab) 3 0 = Some {[ 1 ]})
    by (vm_compute; reflexivity).
  assert (H4 : column_keys (sys_world system_ab) 3 1 = Some {[ 1 ]})
    by (vm_compute; reflexivity).
  split_and!; [exact H1 | exact H2 | exact H3 | exact H4 |].
  exact (sibling_columns_same_keys system_ab 3 0 1 _ _ H1 H2 H3 H4).
Defined.

Lemma table_columns_are_mask_bits_witness :
  reachable system_ab ∧ before_wrap system_ab
  ∧ s_component_archetype_map (sys_world system_ab) !! 3
    = Some (<[ 1 := {[ 1 := 7 ]} ]> {[ 0 := {[ 1 := 0 ]} ]})
  ∧ (is_Some ((<[ 1 := {[ 1 := 7 ]} ]> {[ 0 := {[ 1 := 0 ]} ]} : Archetype Z) !! 2)
     ↔ valid_component 2 ∧ Z.testbit 3 2 = true).
Proof.
  assert (H1 : reachable system_ab) by solve_reachable_ab.
  assert (H2 : before_wrap system_ab) by solve_before_wrap.
  assert (H3 : s_component_archetype_map (sys_world system_ab) !! 3
               = Some (<[ 1 := {[ 1 := 7 ]} ]> {[ 0 := {[ 1 := 0 ]} ]}))
    by (vm_compute; reflexivity).
  split_and!; [exact H1 | exact H2 | exact H3 |].
  exact (table_columns_are_mask_bits system_ab 3 _ 2 H1 H2 H3).
Defined.

Lemma live_entity_has_one_row_witness :
  reachable system_ab ∧ before_wrap system_ab ∧ entity_b ∈ sys_live system_ab
  ∧ s_entity_archetype_map world_ab !! 1 = Some 3.
Proof.
  assert (H1 : reachable system_ab) by solve_reachable_ab.
  assert (H2 : before_wrap system_ab) by solve_before_wrap.
  assert (H3 : entity_b ∈ sys_live system_ab) by (by left).
  split_and!; [exact H1 | exact H2 | exact H3 |].
  exact (proj1 (live_entity_has_one_row system_ab entity_b H1 H2 H3)).
Defined.

Lemma Entity_dtor_leaves_no_cell_witness :
  reachable system_ab ∧ before_wrap system_ab ∧ entity_b ∈ sys_live system_ab
  ∧ ∃ w', Entity_dtor entity_b world_ab = Some w' ∧ ∀ m c, cell w' m c 1 = None.
Proof.
  assert (H1 : reachable system_ab) by solve_reachable_ab.
  assert (H2 : before_wrap system_ab) by solve_before_wrap.
  assert (H3 : entity_b ∈ sys_live system_ab) by (by left).
  split_and!; [exact H1 | exact H2 | exact H3 |].
  exact (Entity_dtor_leaves_no_cell system_ab entity_b H1 H2 H3).
Defined.

Lemma Entity_dtor_twice_witness :
  reachable system_ab ∧ before_wrap system_ab ∧ entity_a ∈ sys_live system_ab
  ∧ ∃ w', Entity_dtor entity_a world_ab = Some w' ∧ Entity_dtor entity_a w' = Some w'.
Proof.
  assert (H1 : reachable system_ab) by solve_reachable_ab.
  assert (H2 : before_wrap system_ab) by solve_before_wrap.
  assert (H3 : entity_a ∈ sys_live system_ab) by (right; left).
  split_and!; [exact H1 | exact H2 | exact H3 |].
  exact (Entity_dtor_twice system_ab entity_a H1 H2 H3).
Defined.

Lemma program_step_only_grows_witness :
  program_reachable system_a ∧ program_step system_a system_ab ∧ before_wrap system_ab
  ∧ s_component_trie world_a ⊆ s_component_trie world_ab
  ∧ s_entity_archetype_map world_a ⊆ s_entity_archetype_map world_ab.
Proof.
  assert (H1 : program_reachable system_a) by solve_program_reachable_a.
  assert (H2 : program_step system_a system_ab).
  { apply (pstep_ctor system_a shape_B entity_b world_ab);
      [solve_shape_ok | vm_compute; reflexivity]. }
  assert (H3 : before_wrap system_ab) by solve_before_wrap.
  split_and!; [exact H1 | exact H2 | exact H3 | |].
  - exact (proj1 (program_step_only_grows system_a system_ab H1 H2)).
  - exact (proj2 (proj2 (proj2 (program_step_only_grows system_a system_ab H1 H2))) H3).
Defined.

Lemma program_index_matches_store_keys_witness :
  program_reachable system_moved
  ∧ s_component_trie world_moved = dom (s_component_archetype_map world_moved)
  ∧ is_Some (s_entity_archetype_map world_moved !! m_id (Entity_move entity_tmp)).
Proof.
  assert (H1 : program_reachable system_moved) by solve_program_reachable_moved.
  split_and!; [exact H1 | |].
  - exact (proj1 (program_index_matches_store_keys system_moved H1)).
  - apply (proj2 (proj2 (program_index_matches_store_keys system_moved H1))). left.
Defined.

Lemma Entity_ctor_frame_witness :
  reachable system_a ∧ before_wrap system_a ∧ shape_ok shape_B
  ∧ ∃ e w', Entity_ctor shape_B world_a = Some (e, w')
            ∧ m_id e = 1
            ∧ ∀ m c id', id' ≠ m_id e -> cell w' m c id' = cell world_a m c id'.
Proof.
  assert (H1 : reachable system_a) by solve_reachable_a.
  assert (H2 : before_wrap system_a) by solve_before_wrap.
  assert (H3 : shape_ok shape_B) by solve_shape_ok.
  split_and!; [exact H1 | exact H2 | exact H3 |].
  destruct (Entity_ctor_frame system_a shape_B H1 H2 H3)
    as (e & w' & Hctor & Hid & _ & Hframe & _).
  exists e, w'. split_and!; [exact Hctor | exact Hid | exact Hframe].
Defined.

Lemma Entity_ctor_dtor_round_trip_witness :
  reachable system_a ∧ before_wrap system_a ∧ shape_ok shape_B
  ∧ ∃ e w' w'', Entity_ctor shape_B world_a = Some (e, w')
                ∧ Entity_dtor e w' = Some w''
                ∧ ∀ m c id, cell w'' m c id = cell world_a m c id.
Proof.
  assert (H1 : reachable system_a) by solve_reachable_a.
  assert (H2 : before_wrap system_a) by solve_before_wrap.
  assert (H3 : shape_ok shape_B) by solve_shape_ok.
  split_and!; [exact H1 | exact H2 | exact H3 |].
  destruct (Entity_ctor_dtor_round_trip system_a shape_B H1 H2 H3)
    as (e & w' & w'' & Hctor & Hdtor & _ & Hcells).
  exists e, w', w''. split_and!; [exact Hctor | exact Hdtor | exact Hcells].
Defined.

Lemma AllocateID_counts_modulo_witness :
  reachable system_ab ∧ fst (World_AllocateID world_ab) = 2 mod 2 ^ 64.
Proof.
  assert (H1 : reachable system_ab) by solve_reachable_ab.
  split; [exact H1|]. exact (AllocateID_counts_modulo system_ab H1).
Defined.

Lemma view_row_count_witness :
  reachable system_ab ∧ before_wrap system_ab
  ∧ [0] ≠ [] ∧ Forall valid_component [0]
  ∧ ∃ rows, view_rows 3 [0] world_ab = Some (rows, world_ab) ∧ length rows = 2%nat.
Proof.
  assert (H1 : reachable system_ab) by solve_reachable_ab.
  assert (H2 : before_wrap system_ab) by solve_before_wrap.
  assert (H3 : [0] ≠ @nil Z) by discriminate.
  assert (H4 : Forall valid_component [0]) by solve_valid_components.
  split_and!; [exact H1 | exact H2 | exact H3 | exact H4 |].
  destruct (view_row_count system_ab [0] H1 H2 H3 H4) as (rows & Hrun & Hlen).
  assert (Hlen' : length rows = 2%nat) by (rewrite Hlen; vm_compute; reflexivity).
  exists rows. split; [|exact Hlen'].
  apply Hrun. rewrite Hlen'. lia.
Defined.

Lemma view_refs_are_Get_witness :
  reachable system_ab ∧ before_wrap system_ab
  ∧ [0; 1] ≠ [] ∧ Forall valid_component [0; 1] ∧ entity_b ∈ sys_live system_ab
  ∧ ∃ rows, (∀ fuel, (length rows < fuel)%nat ->
               view_rows fuel [0; 1] world_ab = Some (rows, world_ab))
            ∧ ((1, [0; 7]) ∈ rows ->
               Forall2 (λ c r, Entity_Get entity_b c world_ab = Some (r, world_ab))
                       [0; 1] [0; 7]).
Proof.
  assert (H1 : reachable system_ab) by solve_reachable_ab.
  assert (H2 : before_wrap system_ab) by solve_before_wrap.
  assert (H3 : [0; 1] ≠ @nil Z) by discriminate.
  assert (H4 : Forall valid_component [0; 1]) by solve_valid_components.
  assert (H5 : entity_b ∈ sys_live system_ab) by (by left).
  split_and!; [exact H1 | exact H2 | exact H3 | exact H4 | exact H5 |].
  exact (view_refs_are_Get system_ab [0; 1] entity_b [0; 7] H1 H2 H3 H4 H5).
Defined.

Lemma view_after_ctor_witness :
  reachable system_a ∧ Z.of_nat (length (sys_issued system_a)) + 1 < 2 ^ 64
  ∧ shape_ok shape_B ∧ [1] ≠ [] ∧ Forall valid_component [1]
  ∧ ∃ e w' rows', Entity_ctor shape_B world_a = Some (e, w')
      ∧ (∀ fuel, (length rows' < fuel)%nat -> view_rows fuel [1] w' = Some (rows', w'))
      ∧ m_id e ∈ rows'.*1.
Proof.
  assert (H1 : reachable system_a) by solve_reachable_a.
  assert (H2 : Z.of_nat (length (sys_issued system_a)) + 1 < 2 ^ 64) by (simpl; lia).
  assert (H3 : shape_ok shape_B) by solve_shape_ok.
  assert (H4 : [1] ≠ @nil Z) by discriminate.
  assert (H5 : Forall valid_component [1]) by solve_valid_components.
  split_and!; [exact H1 | exact H2 | exact H3 | exact H4 | exact H5 |].
  destruct (view_after_ctor system_a shape_B [1] H1 H2 H3 H4 H5)
    as (e & w' & rows & rows' & Hctor & _ & Hrun & Hids).
  exists e, w', rows'. split_and!; [exact Hctor | exact Hrun |].
  apply Hids. right. split; [reflexivity|].
  intros c Hc. apply elem_of_cons in Hc as [->|Hc]; [right; left|].
  by apply elem_of_nil in Hc.
Defined.

Lemma view_after_dtor_witness :
  reachable system_ab ∧ before_wrap system_ab ∧ entity_b ∈ sys_live system_ab
  ∧ [0] ≠ [] ∧ Forall valid_component [0]
  ∧ ∃ w' rows', Entity_dtor entity_b world_ab = Some w'
      ∧ (∀ fuel, (length rows' < fuel)%nat -> view_rows fuel [0] w' = Some (rows', w'))
      ∧ 1 ∉ rows'.*1.
Proof.
  assert (H1 : reachable system_ab) by solve_reachable_ab.
  assert (H2 : before_wrap system_ab) by solve_before_wrap.
  assert (H3 : entity_b ∈ sys_live system_ab) by (by left).
  assert (H4 : [0] ≠ @nil Z) by discriminate.
  assert (H5 : Forall valid_component [0]) by solve_valid_components.
  split_and!; [exact H1 | exact H2 | exact H3 | exact H4 | exact H5 |].
  destruct (view_after_dtor system_ab entity_b [0] H1 H2 H3 H4 H5)
    as (w' & rows & rows' & Hdtor & _ & Hrun & Hids).
  exists w', rows'. split_and!; [exact Hdtor | exact Hrun |].
  intros Hin. apply Hids in Hin as [_ Hne]. apply Hne. reflexivity.
Defined.

(** ** Moved entity objects *)

Section Moved.
Context {V : Type} `{!ValueInit V}.
Implicit Types (a : Archetype V) (col : gmap Z V) (c id m : Z) (v : V)
  (Q : list Z) (S : Shape V) (w : World V) (e : Entity V) (s : System V).

(** X22: the destructor of a moved-from object drops the row that the
    moved-to object names. When an object is move-constructed from a
    live entity and the source is then destroyed, as happens to a
    temporary, the new object is alive and its id is still registered
    under the mask of its type, so [HasComponent] answers as for its
    type; but no table holds a cell for its id, and a view over a
    non-empty [Q] does not yield it. *)
Theorem moved_object_outlives_its_row s e Q :
  reachable s -> before_wrap s -> e ∈ sys_live s ->
  Q ≠ [] -> Forall valid_component Q ->
  let e2 := Entity_move e in
  let m := ecs_component_mask (shape_components (derived_type e)) in
  ∃ w' rows, Entity_dtor e (sys_world s) = Some w'
    ∧ program_reachable
        (mkSystem w' (e2 :: filter (λ e', m_id e' ≠ m_id e) (sys_live s)) (sys_issued s))
    ∧ s_entity_archetype_map w' !! m_id e2 = Some m
    ∧ (∀ c, valid_component c ->
         (fst (Entity_HasComponent e2 c w') = true ↔ has_component (derived_type e2) c))
    ∧ (∀ m' c, cell w' m' c (m_id e2) = None)
    ∧ (∀ fuel, (length rows < fuel)%nat -> view_rows fuel Q w' = Some (rows, w'))
    ∧ m_id e2 ∉ rows.*1.
Proof.
  intros Hr Hb He Hne HQ e2 m. pose proof (reachable_sys_inv s Hr Hb) as Hs.
  pose proof (si_world s Hs) as Hw. pose proof (si_live s Hs e He) as Hei.
  pose proof (sys_inv_dtor s e Hs He) as Hs'. fold m in Hs'.
  pose proof (Entity_dtor_live _ e Hw Hei) as Hd. fold m in Hd.
  set (w' := unregistered (derived_type e) (m_id e) m (sys_world s)) in *.
  set (s' := mkSystem w' _ _) in Hs'.
  exists w', (tables_rows Q w' (components_view Q w')). split_and!.
  - exact Hd.
  - destruct (proj1 (list_elem_of_lookup _ _) He) as [i Hi].
    rewrite (filter_other_ids_delete _ i e (si_nodup s Hs) Hi).
    apply (program_reachable_step
             (mkSystem (sys_world s) (e2 :: sys_live s) (sys_issued s))).
    + apply (program_reachable_step s); [exact (reachable_program_reachable s Hr Hb)|].
      exact (pstep_move s e He).
    + change (e2 :: delete i (sys_live s)) with (delete (Datatypes.S i) (e2 :: sys_live s)).
      apply (pstep_dtor (mkSystem (sys_world s) (e2 :: sys_live s) (sys_issued s))
               (Datatypes.S i) e w'); [exact Hi | exact Hd].
  - apply Hei.
  - intros c Hc. cbn [e2 Entity_move derived_type].
    destruct (ei_shape _ _ Hei) as [Hvalid _].
    rewrite (Entity_HasComponent_registered e2 c w' m) by apply Hei. cbn [fst].
    unfold m. rewrite mask_and_test by (done || by apply component_bitfield_in_i128).
    unfold ecs_component_mask. rewrite component_bitfield_testbit by done.
    unfold has_component.
    split; [apply bool_decide_eq_true_1 | apply bool_decide_eq_true_2].
  - intros m' c. apply cell_unregistered_eq; [done | apply Hei | apply Hei].
  - intros fuel Hfuel. by apply (view_rows_run s').
  - intros Hin. apply (view_ids_live s' Q _ Hs' HQ Hne) in Hin as (e' & He' & Hid & _).
    cbn [s' sys_live] in He'. apply list_elem_of_filter in He' as [Hneq _].
    by apply Hneq.
Qed.

(** X23: [Set] through an object whose row was dropped puts back one
    cell only. After the destructor has run for the id of a live entity
    of a type with the component [c], [Set<c>(v)] through an object
    moved from it returns and stores [v] in column [c] of the table of
    its type; no other column of any table gets a cell for the id, so
    the columns of that table no longer hold the same ids when the type
    has another component; the cells of the other entities stay as they
    were. *)
Theorem Entity_Set_after_row_dropped s e c v :
  reachable s -> before_wrap s -> e ∈ sys_live s -> has_component (derived_type e) c ->
  let m := ecs_component_mask (shape_components (derived_type e)) in
  ∃ w' w'', Entity_dtor e (sys_world s) = Some w'
    ∧ Entity_Set (Entity_move e) c v w' = Some w''
    ∧ cell w'' m c (m_id e) = Some v
    ∧ (∀ m' c', (m', c') ≠ (m, c) -> cell w'' m' c' (m_id e) = None)
    ∧ (∀ m' c' id', id' ≠ m_id e -> cell w'' m' c' id' = cell (sys_world s) m' c' id').
Proof.
  intros Hr Hb He Hc m. pose proof (reachable_sys_inv s Hr Hb) as Hs.
  pose proof (si_world s Hs) as Hw. pose proof (si_live s Hs e He) as Hei.
  destruct (live_entity_table _ e Hw Hei) as [a Ha]. fold m in Ha.
  destruct (live_entity_cell _ e a c Hw Hei Ha Hc) as (col & v0 & Hcol & _).
  set (w' := unregistered (derived_type e) (m_id e) m (sys_world s)).
  assert (Ha' : s_component_archetype_map w' !! m
                = Some (rows_erase (shape_components (derived_type e)) (m_id e) a)).
  { unfold w', unregistered. cbn [s_component_archetype_map].
    by rewrite lookup_alter_eq, Ha. }
  assert (Hc' : rows_erase (shape_components (derived_type e)) (m_id e) a !! c
                = Some (delete (m_id e) col)).
  { rewrite lookup_rows_erase, Hcol. simpl. by rewrite bool_decide_eq_true_2. }
  assert (Hnone : ∀ m' c', cell w' m' c' (m_id e) = None).
  { intros m' c'. apply cell_unregistered_eq; [done | apply Hei | apply Hei]. }
  exists w', (cell_updated m c (m_id e) v w'). split_and!.
  - by apply Entity_dtor_live.
  - apply (Entity_Set_cell_updated (Entity_move e) c v w' m _ _ (ei_registered _ _ Hei)
             Ha' Hc').
  - by eapply cell_cell_updated_eq.
  - intros m' c' Hne. rewrite cell_cell_updated_ne by congruence. apply Hnone.
  - intros m' c' id' Hne. rewrite cell_cell_updated_ne by congruence.
    by apply cell_unregistered_ne.
Qed.

End Moved.

Lemma moved_object_outlives_its_row_witness :
  reachable system_tmp ∧ before_wrap system_tmp ∧ entity_tmp ∈ sys_live system_tmp
  ∧ [0] ≠ [] ∧ Forall valid_component [0]
  ∧ ∃ w' rows, Entity_dtor entity_tmp world_tmp = Some w'
      ∧ fst (Entity_HasComponent (Entity_move entity_tmp) 0 w') = true
      ∧ cell w' 3 0 0 = None
      ∧ view_rows 1 [0] w' = Some (rows, w')
      ∧ 0 ∉ rows.*1.
Proof.
  assert (H1 : reachable system_tmp).
  { apply (reachable_step System_init system_tmp reachable_init).
    apply (step_ctor System_init shape_B entity_tmp world_tmp);
      [solve_shape_ok | vm_compute; reflexivity]. }
  assert (H2 : before_wrap system_tmp) by solve_before_wrap.
  assert (H3 : entity_tmp ∈ sys_live system_tmp) by (by left).
  assert (H4 : [0] ≠ @nil Z) by discriminate.
  assert (H5 : Forall valid_component [0]) by solve_valid_components.
  assert (H6 : valid_component 0) by (unfold valid_component, kMaxComponents; lia).
  split_and!; [exact H1 | exact H2 | exact H3 | exact H4 | exact H5 |].
  destruct (moved_object_outlives_its_row system_tmp entity_tmp [0] H1 H2 H3 H4 H5)
    as (w' & rows & Hd & _ & _ & Hhas & Hcell & Hrun & Hout).
  exists w', rows. split_and!; [exact Hd | | exact (Hcell 3 0) | | exact Hout].
  - apply (Hhas 0 H6). left.
  - destruct rows as [|r rows]; [exact (Hrun 1%nat ltac:(simpl; lia))|].
    exfalso. specialize (Hrun (Datatypes.S (length (r :: rows))) ltac:(lia)).
    assert (Hw' : w' = world_moved).
    { vm_compute in Hd. injection Hd as <-. reflexivity. }
    subst w'. vm_compute in Hrun. discriminate Hrun.
Defined.

Lemma Entity_Set_after_row_dropped_witness :
  reachable system_tmp ∧ before_wrap system_tmp ∧ entity_tmp ∈ sys_live system_tmp
  ∧ has_component (derived_type entity_tmp) 0
  ∧ ∃ w' w'', Entity_dtor entity_tmp world_tmp = Some w'
      ∧ Entity_Set (Entity_move entity_tmp) 0 5 w' = Some w''
      ∧ cell w'' 3 0 0 = Some 5
      ∧ cell w'' 3 1 0 = None.
Proof.
  assert (H1 : reachable system_tmp).
  { apply (reachable_step System_init system_tmp reachable_init).
    apply (step_ctor System_init shape_B entity_tmp world_tmp);
      [solve_shape_ok | vm_compute; reflexivity]. }
  assert (H2 : before_wrap system_tmp) by solve_before_wrap.
  assert (H3 : entity_tmp ∈ sys_live system_tmp) by (by left).
  assert (H4 : has_component (derived_type entity_tmp) 0) by left.
  split_and!; [exact H1 | exact H2 | exact H3 | exact H4 |].
  destruct (Entity_Set_after_row_dropped system_tmp entity_tmp 0 5 H1 H2 H3 H4)
    as (w' & w'' & Hd & Hset & Hcell & Hnone & _).
  exists w', w''. split_and!; [exact Hd | exact Hset | exact Hcell |].
  apply Hnone. intros [= ?].
Defined.
